(** * Origami page composition: a shallow embedding of
      [origami/batch/detect/compose.py] and its verified properties.

    Python tuples of path segments are lists of strings, dictionaries are
    finite maps ([gmap]) or association lists where the iteration order is
    used, sets are [gset]s, and exceptions are the [Raise] results of a small
    error monad.  A Python string is kept as the bytes of its UTF-8
    encoding; its characters are recovered from them where the program looks
    at characters.  Coordinates and confidences are floating-point numbers in
    the program; here they are rationals. *)

From Stdlib Require Import QArith Qminmax Lqa.
From Stdlib Require Import Ascii String DecimalString DecimalZ.
From stdpp Require Import gmap strings list sorting.

Local Open Scope string_scope.
Local Open Scope list_scope.

(** ** Python strings *)

Module Str.

(** The bytes of a string. *)
Definition bytes (s : string) : list ascii := list_ascii_of_string s.

(** A continuation byte of UTF-8: 0x80..0xBF. *)
Definition continuation (b : ascii) : bool :=
  let n := N_of_ascii b in (128 <=? n)%N && (n <=? 191)%N.

(** The number of bytes that the lead byte of a character announces; 1 for
    a byte that is not a lead byte. *)
Definition width (a : ascii) : nat :=
  let n := N_of_ascii a in
  if (n <? 192)%N then 1
  else if (n <? 224)%N then 2
  else if (n <? 240)%N then 3
  else if (n <? 248)%N then 4
  else 1.

(** The characters of a byte sequence, each with its bytes: a lead byte
    with the continuation bytes it announces, and one byte by itself where
    they do not follow. *)
Fixpoint chars_of (l : list ascii) : list (list ascii) :=
  match l with
  | [] => []
  | a :: l1 =>
      match l1 with
      | [] => [[a]]
      | b :: l2 =>
          if (width a =? 2)%nat && continuation b then [a; b] :: chars_of l2
          else
            match l2 with
            | [] => [a] :: chars_of l1
            | c :: l3 =>
                if (width a =? 3)%nat && continuation b && continuation c
                then [a; b; c] :: chars_of l3
                else
                  match l3 with
                  | [] => [a] :: chars_of l1
                  | d :: l4 =>
                      if (width a =? 4)%nat && continuation b
                         && continuation c && continuation d
                      then [a; b; c; d] :: chars_of l4
                      else [a] :: chars_of l1
                  end
            end
      end
  end.

(** The characters of a string. *)
Definition chars (s : string) : list (list ascii) := chars_of (bytes s).

(** The code point of a character; U+FFFD for bytes that are no character:
    a byte by itself that is not ASCII, or a form longer than the code point
    requires. *)
Definition code_point (c : list ascii) : N :=
  match map N_of_ascii c with
  | [a] => if (a <? 128)%N then a else 65533
  | [a; b] =>
      let n := N.lor (N.shiftl (N.land a 31) 6) (N.land b 63) in
      if (n <? 128)%N then 65533 else n
  | [a; b; c] =>
      let n := N.lor (N.shiftl (N.land a 15) 12)
                     (N.lor (N.shiftl (N.land b 63) 6) (N.land c 63)) in
      if (n <? 2048)%N then 65533 else n
  | [a; b; c; d] =>
      let n := N.lor (N.shiftl (N.land a 7) 18)
                     (N.lor (N.shiftl (N.land b 63) 12)
                            (N.lor (N.shiftl (N.land c 63) 6) (N.land d 63))) in
      if (n <? 65536)%N then 65533 else n
  | _ => 65533
  end%N.

(** The code points for which [str.isspace] holds: U+0009..U+000D,
    U+001C..U+0020, U+0085, U+00A0, U+1680, U+2000..U+200A, U+2028, U+2029,
    U+202F, U+205F and U+3000. *)
Definition whitespace : list N :=
  [9; 10; 11; 12; 13; 28; 29; 30; 31; 32; 133; 160; 5760;
   8192; 8193; 8194; 8195; 8196; 8197; 8198; 8199; 8200; 8201; 8202;
   8232; 8233; 8239; 8287; 12288]%N.

(** [c.isspace()] for a character. *)
Definition is_space (c : list ascii) : bool :=
  bool_decide (code_point c ∈ whitespace).

(** The characters without the white space they begin with. *)
Fixpoint lstrip_chars (cs : list (list ascii)) : list (list ascii) :=
  match cs with
  | [] => []
  | c :: cs' => if is_space c then lstrip_chars cs' else cs
  end.

(** The characters without the white space they end with. *)
Definition rstrip_chars (cs : list (list ascii)) : list (list ascii) :=
  reverse (lstrip_chars (reverse cs)).

Definition strip_chars (cs : list (list ascii)) : list (list ascii) :=
  rstrip_chars (lstrip_chars cs).

(** [s.strip()]: the string without the white space at its two ends. *)
Definition strip (s : string) : string :=
  string_of_list_ascii (concat (strip_chars (chars s))).

(** The string is empty or of white space only. *)
Definition blank (s : string) : Prop := Forall (λ c, is_space c = true) (chars s).

(** [sep.join(parts)] *)
Fixpoint join (sep : string) (parts : list string) : string :=
  match parts with
  | [] => EmptyString
  | [x] => x
  | x :: rest => x +:+ sep +:+ join sep rest
  end.

(** [s.split(sep)] for a one-character separator: the pieces between the
    occurrences of [sep]; always at least one piece. *)
Fixpoint split (sep : ascii) (s : string) : list string :=
  match s with
  | EmptyString => [EmptyString]
  | String c s' =>
      if decide (c = sep) then EmptyString :: split sep s'
      else match split sep s' with
           | [] => [String c EmptyString]
           | p :: ps => String c p :: ps
           end
  end.

(** The line feed, Python's ["\n"]. *)
Definition newline : string := String (ascii_of_nat 10) EmptyString.

(** [bool(s)]: a string is true when it is not empty. *)
Definition truthy (s : string) : bool :=
  match s with EmptyString => false | _ => true end.

End Str.

(** ** Paths *)

(** A path is a tuple of string segments:
    [(namespace, class, block-id[, line-id])]. *)
Abbreviation path := (list string).

(** ** Plain-text composition *)

Module PlainTextComposition.

Record t := mk {
  _line_separator : string;
  _block_separator : string;
  _texts : list string;
  _path : option path
}.

(** [__init__] *)
Definition init (line_separator block_separator : string) : t :=
  {| _line_separator := line_separator;
     _block_separator := block_separator;
     _texts := [];
     _path := None |}.

(** [append_text]: the object after the call. *)
Definition append_text (self : t) (p : path) (text : string) : t :=
  let text := Str.strip text in
  if negb (Str.truthy text) then self
  else
    let texts1 :=
      match _path self with
      | Some last =>
          if decide (take 3 p ≠ take 3 last)
          then _texts self ++ [_block_separator self]
          else _texts self
      | None => _texts self
      end in
    {| _line_separator := _line_separator self;
       _block_separator := _block_separator self;
       _texts := texts1 ++ [text +:+ Str.newline];
       _path := Some p |}.

(** the [text] property *)
Definition text (self : t) : string := Str.join EmptyString (_texts self).

(** A sequence of [append_text] calls. *)
Definition append_all (self : t) (frags : list (path * string)) : t :=
  foldl (fun c f => append_text c f.1 f.2) self frags.

(** The entries of [_texts], told apart: a block separator or a fragment. *)
Inductive piece := Sep | Frag (s : string).

Definition render (sep : string) (x : piece) : string :=
  match x with Sep => sep | Frag s => s +:+ Str.newline end.

Definition is_sep (x : piece) : bool :=
  match x with Sep => true | Frag _ => false end.

(** The fragments that survive stripping, stripped. *)
Definition kept (frags : list (path * string)) : list (path * string) :=
  filter (fun f => Str.truthy f.2 = true)
         (map (fun f => (f.1, Str.strip f.2)) frags).

(** Pieces written for the fragments [l] when the last written path is
    [prev]. *)
Fixpoint pieces_after (prev : path) (l : list (path * string)) : list piece :=
  match l with
  | [] => []
  | (p, s) :: l' =>
      (if decide (take 3 p ≠ take 3 prev) then [Sep] else [])
        ++ Frag s :: pieces_after p l'
  end.

Definition pieces (last : option path) (l : list (path * string)) : list piece :=
  match last, l with
  | _, [] => []
  | None, (p, s) :: l' => Frag s :: pieces_after p l'
  | Some prev, _ => pieces_after prev l
  end.

(** Number of block transitions: consecutive fragments whose 3-segment
    prefixes differ. *)
Fixpoint transitions_after (prev : path) (l : list (path * string)) : nat :=
  match l with
  | [] => 0
  | (p, _) :: l' =>
      (if decide (take 3 p ≠ take 3 prev) then 1 else 0) + transitions_after p l'
  end.

Definition transitions (l : list (path * string)) : nat :=
  match l with
  | [] => 0
  | (p, _) :: l' => transitions_after p l'
  end.

Definition count_sep (l : list piece) : nat := length (filter (fun x => is_sep x = true) l).

End PlainTextComposition.

(** ** Exceptions and the error monad *)

(** What an exception of the program carries. *)
Inductive message :=
| no_text_found (block_path : path) (confidences : list Q)
    (** "no text found for %s, line confidences are: %s" *)
| empty_geometry (line_path : path) (text : string) (confidence : Q)
    (** "line %s has text '%s', confidence %.2f, but empty geometry" *)
| illegal_path_in_reading_order (segment : string)
    (** "illegal path %s in reading order", with the only segment of the
        path for [%s] *)
| illegal_region_line_path (p : path)
    (** "illegal region/line path %s" *)
| invalid_literal (s : string)
    (** [int] of a string that is no number *)
| unpack_mismatch.
    (** a tuple assignment with the wrong number of values *)

Inductive exn :=
| RuntimeError (m : message)
| ValueError (m : message)
| AssertionError
| KeyError
| IndexError
| AttributeError
| TypeError
| NotImplementedError.

Inductive result (A : Type) :=
| Ok (a : A)
| Raise (e : exn).
Arguments Ok {A} a.
Arguments Raise {A} e.

#[global] Instance result_ret : MRet result := λ A a, Ok a.
#[global] Instance result_bind : MBind result :=
  λ A B f m, match m with Ok a => f a | Raise e => Raise e end.

(** [assert b] *)
Definition assert (b : bool) : result () :=
  if b then Ok () else Raise AssertionError.

(** [d[k]] on a dictionary that raises on a missing key. *)
Definition getitem `{Lookup K V M} (d : M) (k : K) : result V :=
  match d !! k with Some v => Ok v | None => Raise KeyError end.

(** [t[i]] on a tuple. *)
Definition index {A} (t : list A) (i : nat) : result A :=
  match t !! i with Some v => Ok v | None => Raise IndexError end.

(** A loop whose body may raise: [for x in l: acc = body(acc, x)]. *)
Fixpoint for_each {A S} (l : list A) (body : S → A → result S) (acc : S) : result S :=
  match l with
  | [] => Ok acc
  | x :: l' => acc' ← body acc x; for_each l' body acc'
  end.

(** ** Python integers and their decimal notation *)

(** [int(s)], for an optional minus sign followed by decimal digits. *)
Definition py_int (s : string) : result Z :=
  match NilZero.int_of_string s with
  | Some d => Ok (Z.of_int d)
  | None => Raise (ValueError (invalid_literal s))
  end.

(** [str(n)] and ["%d" % n] *)
Definition py_str (n : Z) : string := NilZero.string_of_int (Z.to_int n).

(** [sorted(list(s))] for a set of integers. *)
Definition sorted (s : gset Z) : list Z := merge_sort Z.le (elements s).

(** ** Dictionaries that keep their insertion order *)

Module Dict.

(** The items of the dictionary, in insertion order. *)
Definition t (K V : Type) := list (K * V).

Fixpoint get `{EqDecision K} {V} (d : t K V) (k : K) : option V :=
  match d with
  | [] => None
  | (k', v) :: d' => if decide (k' = k) then Some v else get d' k
  end.

Definition keys {K V} (d : t K V) : list K := d.*1.

End Dict.

#[global] Instance dict_lookup `{EqDecision K} {V} : Lookup K V (Dict.t K V) :=
  λ k d, Dict.get d k.

(** [dict(items)]: a later item replaces an earlier one with the same key. *)
Definition dict_of_items `{Countable K} {V} (items : list (K * V)) : gmap K V :=
  foldl (λ m kv, <[kv.1 := kv.2]> m) ∅ items.

(** ** Geometry *)

Definition point : Type := Q * Q.

(** A shapely geometry: a polygon with the coordinates of its exterior ring
    (none when the polygon is empty), or a geometry of another type (a
    multi-polygon, a collection, a line, a point), which has no exterior;
    of that one the coordinates of all its parts are kept. *)
Inductive geometry :=
| Polygon (exterior : list point)
| NonPolygon (coords : list point).

(** [g.geom_type == "Polygon"] *)
Definition is_polygon (g : geometry) : bool :=
  match g with Polygon _ => true | NonPolygon _ => false end.

(** [g.is_empty] *)
Definition is_empty (g : geometry) : bool :=
  match g with
  | Polygon [] | NonPolygon [] => true
  | _ => false
  end.

(** [g.exterior.coords] *)
Definition exterior_coords (g : geometry) : result (list point) :=
  match g with
  | Polygon e => Ok e
  | NonPolygon _ => Raise AttributeError
  end.

(** [shapely.geometry.box(minx, miny, maxx, maxy)] *)
Definition box (minx miny maxx maxy : Q) : geometry :=
  Polygon [(maxx, miny); (maxx, maxy); (minx, maxy); (minx, miny); (maxx, miny)].

(** How [tabulate] is asked to treat the first row. *)
Inductive headers := firstrow | no_headers.

(** The operations of the libraries the program calls and of the modules of
    the package that lie outside the composition code. *)
Class Libraries := {
  (** [shapely.ops.cascaded_union] *)
  cascaded_union : list geometry → geometry;
  (** [g.convex_hull] *)
  convex_hull : geometry → geometry;
  (** [g.intersection(h)] *)
  intersection : geometry → geometry → geometry;
  (** [g.distance(h)] *)
  distance : geometry → geometry → Q;
  (** [tabulate(data, tablefmt="psql", headers=...)] *)
  tabulate : list (list string) → headers → string;
  (** [TableRegionCombinator(paths).mapping] *)
  combinator_mapping : list path → gmap path (list path);
}.

Section Geometry.
Context `{Libraries}.

Definition polygon_union (geoms : list geometry) : geometry :=
  let shape := cascaded_union geoms in
  if negb (is_polygon shape) then convex_hull shape else shape.

End Geometry.

(** ** The inputs of a page *)

Module Line.
Record t := mk {
  image_space_polygon : geometry;
  confidence : Q
}.
End Line.

Module Block.
Record t := mk {
  image_space_polygon : geometry
}.
End Block.

Module Page.
Record t := mk {
  (** [page.size(False)] *)
  size : Q * Q;
  (** [page.dewarper.grid.inverse] *)
  grid_inverse : list point → list point
}.
End Page.

Module Input.
Record t := mk {
  page : Page.t;
  (** [input.regions.by_path] *)
  regions_by_path : Dict.t path Block.t;
  (** [input.lines.by_path] *)
  lines_by_path : Dict.t path Line.t;
  (** [input.lines.min_confidence] *)
  min_confidence : Q;
  (** [input.sorted_ocr] *)
  sorted_ocr : list (path * string);
  (** [input.order["orders"]["*"]] *)
  order : list string
}.
End Input.

(** ** The Page XML tree *)

(** The elements the composition writes: the coordinates of an outline, the
    text of a line, and the regions and lines that contain them. *)
#[local] Set Warnings "-register-all".
Inductive px_node :=
| Coords (points : list point)
| TextEquiv (text : string)
| Element (tag : string) (id_ : string) (children : list px_node).

(** The document under construction together with the warnings logged. *)
Record pagexml_document := mk_px {
  px_reading_order : list (nat * string);
  px_regions : list px_node;
  (** [logging.warning]: the table that was empty, and the page *)
  warnings : list (path * string)
}.

(** [px_document.append_region(...)], with the children the caller adds to
    the new element. *)
Definition append_region (px : pagexml_document) (region : px_node) : pagexml_document :=
  mk_px (px_reading_order px) (px_regions px ++ [region]) (warnings px).

Definition log_warning (px : pagexml_document) (w : path * string) : pagexml_document :=
  mk_px (px_reading_order px) (px_regions px) (warnings px ++ [w]).

(** [map(f, l)] consumed to the end, for an [f] that may raise. *)
Fixpoint map_result {A B} (f : A → result B) (l : list A) : result (list B) :=
  match l with
  | [] => Ok []
  | x :: l' => y ← f x; ys ← map_result f l'; Ok (y :: ys)
  end.

(** ** The order of paths *)

(** [a <= b] on tuples of strings: lexicographic, strings by code point. *)
Fixpoint path_leb (a b : path) : bool :=
  match a, b with
  | [], _ => true
  | _ :: _, [] => false
  | x :: a', y :: b' =>
      match String.compare x y with
      | Lt => true
      | Gt => false
      | Eq => path_leb a' b'
      end
  end.

Definition path_le (a b : path) : Prop := path_leb a b = true.

#[global] Instance path_le_dec : RelDecision path_le.
Proof. intros a b. unfold path_le. apply _. Defined.

(** [c < m] on confidences *)
Definition Qltb (c m : Q) : bool := negb (Qle_bool m c).

(** ** The document of a page *)

Module Document.

(** The regions of the four classes are defined after the document they are
    built from, so the record takes their type as a parameter. *)
Record t (R : Type) := mk {
  _page_path : string;
  _input : Input.t;
  _mapping : gmap path (list path);
  (** a [defaultdict(list)]: a missing key reads as the empty list *)
  _region_lines : gmap path (list (path * Line.t));
  _regions : gmap path R
}.
Arguments mk {R}.
Arguments _page_path {R}.
Arguments _input {R}.
Arguments _mapping {R}.
Arguments _region_lines {R}.
Arguments _regions {R}.

(** A region class as [_add] uses it: its constructor and [isinstance]. *)
Record class (R A : Type) := mk_class {
  construct : t R → path → result A;
  upcast : A → R;
  downcast : R → option A
}.
Arguments construct {R A}.
Arguments upcast {R A}.
Arguments downcast {R A}.

Section Methods.
Context `{Libraries} {R : Type}.
Implicit Type self : t R.

Definition page_path self : string := _page_path self.

Definition page self : Page.t := Input.page (_input self).

(** the [reading_order] property *)
Definition reading_order self : list path :=
  map (Str.split "/") (Input.order (_input self)).

Definition rewarp self (coords : list point) : result (list point) :=
  let warped_coords := Page.grid_inverse (page self) coords in
  let '(width, height) := Page.size (page self) in
  let box_ := box 0 0 width height in
  let poly := intersection (Polygon warped_coords) box_ in
  exterior_coords poly.

(** [self._region_lines[path]] *)
Definition region_lines self (p : path) : list (path * Line.t) :=
  default [] (_region_lines self !! p).

Definition blocks_and_lines self (block_path : path)
  : result (list (path * Block.t) * gmap path Line.t) :=
  paths ← getitem (_mapping self) block_path;
  bl ← for_each paths
        (λ (acc : list (path * Block.t) * list (path * Line.t)) p,
           block ← getitem (Input.regions_by_path (_input self)) p;
           Ok (acc.1 ++ [(p, block)], acc.2 ++ region_lines self p))
        ([], []);
  Ok (bl.1, dict_of_items bl.2).

Definition set_region self (block_path : path) (region : R) : t R :=
  mk (_page_path self) (_input self) (_mapping self) (_region_lines self)
     (<[block_path := region]> (_regions self)).

(** [_add]: the region and the document after the call. *)
Definition _add {A} (class_ : class R A) self (block_path : path)
  : result (A * t R) :=
  rs ← match _regions self !! block_path with
       | Some region => Ok (region, self)
       | None =>
           region ← construct class_ self block_path;
           Ok (upcast class_ region, set_region self block_path (upcast class_ region))
       end;
  match downcast class_ rs.1 with
  | Some region => Ok (region, rs.2)
  | None => Raise AssertionError
  end.

Definition get self (block_path : path) : result (option R) :=
  match _regions self !! block_path with
  | Some region => Ok (Some region)
  | None =>
      let confidences := map (λ l, Line.confidence l.2) (region_lines self block_path) in
      let min_confidence := Input.min_confidence (_input self) in
      if forallb (λ c, Qltb c min_confidence) confidences
      then Ok None
      else Raise (RuntimeError (no_text_found block_path confidences))
  end.

(** the [paths] property *)
Definition paths self : list path :=
  merge_sort path_le (elements (dom (_regions self))).

End Methods.
End Document.

(** ** Text regions *)

Module TextRegion.

Record t := mk {
  _polygon : geometry;
  _block_path : path;
  _lines : gmap path Line.t;
  _line_texts : gmap path string;
  _order : list path;
  _transform : list point → result (list point)
}.

Section Methods.
Context `{Libraries}.

(** [__init__] *)
Definition init {R} (document : Document.t R) (block_path : path) : result t :=
  bl ← Document.blocks_and_lines document block_path;
  match bl.1 with
  | [(_, block)] =>
      Ok {| _polygon := Block.image_space_polygon block;
            _block_path := block_path;
            _lines := bl.2;
            _line_texts := ∅;
            _order := [];
            _transform := Document.rewarp document |}
  | _ => Raise AssertionError
  end.

Definition polygon (self : t) : geometry := _polygon self.

Definition get_line_text (self : t) (line_path : path) : result string :=
  getitem (_line_texts self) line_path.

Definition export_plain_text_region (self : t)
    (composition : PlainTextComposition.t) : result PlainTextComposition.t :=
  for_each (_order self)
    (λ c p, text ← getitem (_line_texts self) p;
            Ok (PlainTextComposition.append_text c p text))
    composition.

Definition export_plain_text_line (self : t)
    (composition : PlainTextComposition.t) (line_path : path)
  : result PlainTextComposition.t :=
  text ← getitem (_line_texts self) line_path;
  Ok (PlainTextComposition.append_text composition line_path text).

(** One round of the loop over [_order] in [export_page_xml]: the children
    of the region element after the round. *)
Definition export_line (self : t) (px_lines : list px_node) (line_path : path)
  : result (list px_node) :=
  line ← getitem (_lines self) line_path;
  if is_empty (Line.image_space_polygon line) then
    text ← getitem (_line_texts self) line_path;
    if Str.truthy text then
      Raise (RuntimeError
               (empty_geometry line_path text (Line.confidence line)))
    else Ok px_lines
  else
    coords ← exterior_coords (Line.image_space_polygon line);
    coords ← _transform self coords;
    text ← getitem (_line_texts self) line_path;
    Ok (px_lines ++ [Element "TextLine" (Str.join "-" line_path)
                       [Coords coords; TextEquiv text]]).

Definition export_page_xml (self : t) (px_document : pagexml_document)
  : result pagexml_document :=
  coords ← exterior_coords (_polygon self);
  coords ← _transform self coords;
  px_lines ← for_each (_order self) (export_line self) [];
  Ok (append_region px_document
        (Element "TextRegion" (Str.join "-" (_block_path self))
           (Coords coords :: px_lines))).

Definition add_text (self : t) (line_path : path) (text : string) : t :=
  {| _polygon := _polygon self;
     _block_path := _block_path self;
     _lines := _lines self;
     _line_texts := <[line_path := text]> (_line_texts self);
     _order := _order self ++ [line_path];
     _transform := _transform self |}.

End Methods.
End TextRegion.

(** ** Graphic regions *)

Module GraphicRegion.

Record t := mk {
  _block : Block.t;
  _lines : gmap path Line.t;
  _block_path : path;
  _transform : list point → result (list point)
}.

Section Methods.
Context `{Libraries}.

Definition init {R} (document : Document.t R) (block_path : path) : result t :=
  bl ← Document.blocks_and_lines document block_path;
  match bl.1 with
  | [(_, block)] =>
      Ok {| _block := block;
            _lines := bl.2;
            _block_path := block_path;
            _transform := Document.rewarp document |}
  | _ => Raise AssertionError
  end.

Definition export_page_xml (self : t) (px_document : pagexml_document)
  : result pagexml_document :=
  coords ← exterior_coords (Block.image_space_polygon (_block self));
  coords ← _transform self coords;
  Ok (append_region px_document
        (Element "GraphicRegion" (Str.join "-" (_block_path self))
           [Coords coords])).

End Methods.
End GraphicRegion.

(** ** Merged text regions *)

Module MergedTextRegion.

Record t := mk {
  _block_path : path;
  _polygon : geometry;
  _transform : list point → result (list point);
  _lines : list (path * Line.t)
}.

Section Methods.
Context `{Libraries}.

Definition init {R} (document : Document.t R) (block_path : path)
    (lines : list (path * Line.t)) : t :=
  {| _block_path := block_path;
     _polygon := polygon_union (map (λ l, Line.image_space_polygon l.2) lines);
     _transform := Document.rewarp document;
     _lines := lines |}.

(** One round of the loop over [enumerate(self._lines)].  The text of the
    line is read from the region of the document that holds it:
    [document_line_text] is
    [self._document.get(line_path[:3]).get_line_text(line_path)]. *)
Definition export_line (self : t) (document_line_text : path → result string)
    (px_lines : list px_node) (il : nat * (path * Line.t))
  : result (list px_node) :=
  let '(i, (line_path, line)) := il in
  line_text ← document_line_text line_path;
  coords ← exterior_coords (Line.image_space_polygon line);
  coords ← _transform self coords;
  Ok (px_lines
        ++ [Element "TextLine"
              (Str.join "-" (_block_path self ++ [py_str (Z.of_nat i)]))
              [Coords coords; TextEquiv line_text]]).

Definition export_page_xml (self : t)
    (document_line_text : path → result string) (px_document : pagexml_document)
  : result pagexml_document :=
  coords ← exterior_coords (_polygon self);
  coords ← _transform self coords;
  px_lines ← for_each (imap (λ i l, (i, l)) (_lines self))
                (export_line self document_line_text) [];
  Ok (append_region px_document
        (Element "TextRegion" (Str.join "-" (_block_path self))
           (Coords coords :: px_lines))).

End Methods.
End MergedTextRegion.

(** ** Table regions *)

Module TableRegion.

Record t := mk {
  _lines : gmap path Line.t;
  _block_path : path;
  _divisions : gset Z;
  (** a [defaultdict(set)] *)
  _rows : gmap Z (gset Z);
  _columns : gset Z;
  (** a [defaultdict(list)], keyed by (division, row, column) *)
  _texts : gmap (Z * Z * Z) (list (path * string));
  _transform : list point → result (list point);
  (** [self._document.page_path] *)
  _document_page_path : string;
  (** keyed by (column, division, row) *)
  _blocks : gmap (Z * Z * Z) Block.t
}.

Section Methods.
Context `{Libraries}.

(** [block_id, division, row, column = map(int, s.split("."))]: the
    assignment draws a fifth value, if there is one, before it fails. *)
Definition unpack_block_id (s : string) : result (Z * Z * Z * Z) :=
  ints ← map_result py_int (take 5 (Str.split "." s));
  match ints with
  | [block_id; division; row; column] => Ok (block_id, division, row, column)
  | _ => Raise (ValueError unpack_mismatch)
  end.

(** [__init__] *)
Definition init {R} (document : Document.t R) (block_path : path) : result t :=
  bl ← Document.blocks_and_lines document block_path;
  blocks ← for_each bl.1
    (λ (blocks : gmap (Z * Z * Z) Block.t) pb,
       segment ← index pb.1 2;
       '(block_id, division, row, column) ← unpack_block_id segment;
       Ok (<[(column, division, row) := pb.2]> blocks))
    ∅;
  Ok {| _lines := bl.2;
        _block_path := block_path;
        _divisions := ∅;
        _rows := ∅;
        _columns := ∅;
        _texts := ∅;
        _transform := Document.rewarp document;
        _document_page_path := Document.page_path document;
        _blocks := blocks |}.

(** [self._rows[division]] *)
Definition rows (self : t) (division : Z) : gset Z :=
  default ∅ (_rows self !! division).

(** [self._texts.get((division, row, column), [])] *)
Definition texts (self : t) (division row column : Z) : list (path * string) :=
  default [] (_texts self !! (division, row, column)).

(** One round of the loop over the texts of a cell. *)
Definition export_text_line (self : t) (px_lines : list px_node)
    (lt : path * string) : result (list px_node) :=
  let '(line_path, text) := lt in
  line ← getitem (_lines self) line_path;
  coords ← exterior_coords (Line.image_space_polygon line);
  coords ← _transform self coords;
  Ok (px_lines ++ [Element "TextLine" (Str.join "-" line_path)
                     [Coords coords; TextEquiv text]]).

(** One round of the loop over the rows of a division: the cells of the
    division element and [cell_shapes] after the round. *)
Definition export_cell (self : t) (division_id : string) (column division : Z)
    (acc : list px_node * list geometry) (row : Z)
  : result (list px_node * list geometry) :=
  match _blocks self !! (column, division, row) with
  | None => Ok acc
  | Some block =>
      if is_empty (Block.image_space_polygon block) then Ok acc
      else
        let cell_id := division_id +:+ "." +:+ py_str row in
        coords ← exterior_coords (Block.image_space_polygon block);
        coords ← _transform self coords;
        px_lines ← for_each (texts self division row column)
                      (export_text_line self) [];
        Ok (acc.1 ++ [Element "TextRegion" cell_id (Coords coords :: px_lines)],
            acc.2 ++ [Block.image_space_polygon block])
  end.

(** One round of the loop over the divisions of a column: the divisions
    that stay in the column element and [division_shapes]. *)
Definition export_division (self : t) (column_id : string) (column : Z)
    (acc : list px_node * list geometry) (division : Z)
  : result (list px_node * list geometry) :=
  let division_id := column_id +:+ "." +:+ py_str division in
  cells ← for_each (sorted (rows self division))
             (export_cell self division_id column division) ([], []);
  match cells.2 with
  | _ :: _ =>
      let division_shape := polygon_union cells.2 in
      coords ← exterior_coords division_shape;
      coords ← _transform self coords;
      Ok (acc.1 ++ [Element "TextRegion" division_id (Coords coords :: cells.1)],
          acc.2 ++ [division_shape])
  | [] => Ok acc
  end.

(** One round of the loop over the columns: the columns that stay in the
    table element and [column_shapes]. *)
Definition export_column (self : t) (table_id : string) (divisions : list Z)
    (acc : list px_node * list geometry) (column : Z)
  : result (list px_node * list geometry) :=
  let column_id := table_id +:+ "." +:+ py_str column in
  divs ← for_each divisions (export_division self column_id column) ([], []);
  match divs.2 with
  | _ :: _ =>
      let column_shape := polygon_union divs.2 in
      coords ← exterior_coords column_shape;
      coords ← _transform self coords;
      Ok (acc.1 ++ [Element "TextRegion" column_id (Coords coords :: divs.1)],
          acc.2 ++ [column_shape])
  | [] => Ok acc
  end.

Definition export_page_xml (self : t) (px_document : pagexml_document)
  : result pagexml_document :=
  let table_id := Str.join "-" (_block_path self) in
  let columns := sorted (_columns self) in
  let divisions := sorted (_divisions self) in
  cols ← for_each columns (export_column self table_id divisions) ([], []);
  match cols.2 with
  | _ :: _ =>
      let shape := polygon_union cols.2 in
      coords ← exterior_coords shape;
      coords ← _transform self coords;
      Ok (append_region px_document
            (Element "TableRegion" table_id (Coords coords :: cols.1)))
  | [] =>
      Ok (log_warning px_document (_block_path self, _document_page_path self))
  end.

Definition append_cell_text (self : t) (grid : list string) (line_path : path)
    (text : string) : result t :=
  ints ← map_result py_int grid;
  match ints with
  | [division; row; column] =>
      Ok {| _lines := _lines self;
            _block_path := _block_path self;
            _divisions := _divisions self ∪ {[division]};
            _rows := <[division := rows self division ∪ {[row]}]> (_rows self);
            _columns := _columns self ∪ {[column]};
            _texts := <[(division, row, column) :=
                          texts self division row column ++ [(line_path, text)]]>
                        (_texts self);
            _transform := _transform self;
            _document_page_path := _document_page_path self;
            _blocks := _blocks self |}
  | _ => Raise (ValueError unpack_mismatch)
  end.

(** The text of a cell in [to_text]. *)
Definition cell_text (self : t) (division row column : Z) : string :=
  Str.join Str.newline (map (λ lt, Str.strip lt.2) (texts self division row column)).

(** [table_data] and [n_rows] of [to_text]. *)
Definition table_data (self : t) : list (list string) :=
  let columns := sorted (_columns self) in
  concat (map (λ division,
                 map (λ row, map (cell_text self division row) columns)
                     (sorted (rows self division)))
              (sorted (_divisions self))).

Definition n_rows (self : t) : list nat :=
  map (λ division, length (sorted (rows self division)))
      (sorted (_divisions self)).

Definition to_text (self : t) : string :=
  let columns := sorted (_columns self) in
  if (length columns =? 1)%nat then
    Str.join Str.newline (map (Str.join EmptyString) (table_data self))
  else
    let headers :=
      if (2 <=? length (n_rows self))%nat
         && bool_decide (n_rows self !! 0%nat = Some 1%nat)
      then firstrow else no_headers in
    tabulate (table_data self) headers.

Definition export_plain_text_region (self : t)
    (composition : PlainTextComposition.t) : PlainTextComposition.t :=
  PlainTextComposition.append_text composition (_block_path self) (to_text self).

End Methods.
End TableRegion.

(** ** The regions of a document, and its construction *)

Inductive region :=
| Text (r : TextRegion.t)
| Table (r : TableRegion.t)
| Graphic (r : GraphicRegion.t)
| Merged (r : MergedTextRegion.t).

Section Regions.
Context `{Libraries}.

Definition TextRegion_class : Document.class region TextRegion.t :=
  {| Document.construct := TextRegion.init;
     Document.upcast := Text;
     Document.downcast := λ r, match r with Text x => Some x | _ => None end |}.

Definition TableRegion_class : Document.class region TableRegion.t :=
  {| Document.construct := TableRegion.init;
     Document.upcast := Table;
     Document.downcast := λ r, match r with Table x => Some x | _ => None end |}.

Definition GraphicRegion_class : Document.class region GraphicRegion.t :=
  {| Document.construct := GraphicRegion.init;
     Document.upcast := Graphic;
     Document.downcast := λ r, match r with Graphic x => Some x | _ => None end |}.

(** [region_lines] of [Document.__init__]: the lines of [input.lines.by_path]
    filed under the first three segments of their path. *)
Definition group_region_lines (lines : Dict.t path Line.t)
  : gmap path (list (path * Line.t)) :=
  foldl (λ region_lines pl,
           <[take 3 pl.1 := default [] (region_lines !! take 3 pl.1) ++ [pl]]>
             region_lines)
        ∅ lines.

(** One round of the loop over [input.sorted_ocr] in [Document.__init__]. *)
Definition add_ocr_line (self : Document.t region) (lt : path * string)
  : result (Document.t region) :=
  let '(line_path, ocr_text) := lt in
  let block_path := take 3 line_path in
  segment ← index block_path 2;
  let table_path := Str.split "." segment in
  if (1 <? length table_path)%nat then
    _ ← assert (bool_decide (take 2 block_path = ["regions"; "TABULAR"]));
    table_id ← index table_path 0;
    let base_block_path := take 2 block_path ++ [table_id] in
    rs ← Document._add TableRegion_class self base_block_path;
    region ← TableRegion.append_cell_text rs.1 (drop 1 table_path) line_path ocr_text;
    Ok (Document.set_region rs.2 base_block_path (Table region))
  else
    _ ← assert (bool_decide (take 2 block_path = ["regions"; "TEXT"]));
    rs ← Document._add TextRegion_class self block_path;
    Ok (Document.set_region rs.2 block_path
          (Text (TextRegion.add_text rs.1 line_path ocr_text))).

(** One round of the loop over [input.regions.by_path]. *)
Definition add_graphic (self : Document.t region) (pb : path * Block.t)
  : result (Document.t region) :=
  if bool_decide (take 2 pb.1 = ["regions"; "ILLUSTRATION"]) then
    rs ← Document._add GraphicRegion_class self pb.1;
    Ok rs.2
  else Ok self.

(** [Document.__init__] *)
Definition Document_init (page_path : string) (input : Input.t)
  : result (Document.t region) :=
  let mapping := combinator_mapping (Dict.keys (Input.regions_by_path input)) in
  let region_lines := group_region_lines (Input.lines_by_path input) in
  let self := Document.mk page_path input mapping region_lines ∅ in
  self ← for_each (Input.sorted_ocr input) add_ocr_line self;
  for_each (Input.regions_by_path input) add_graphic self.

(** [document.get(line_path[:3]).get_line_text(line_path)], as a merged
    region calls it; only text regions have [get_line_text]. *)
Definition document_line_text (document : Document.t region) (line_path : path)
  : result string :=
  region ← Document.get document (take 3 line_path);
  match region with
  | Some (Text r) => TextRegion.get_line_text r line_path
  | _ => Raise AttributeError
  end.

(** [region.export_page_xml(px_document)] *)
Definition export_page_xml (document : Document.t region) (r : region)
    (px_document : pagexml_document) : result pagexml_document :=
  match r with
  | Text x => TextRegion.export_page_xml x px_document
  | Table x => TableRegion.export_page_xml x px_document
  | Graphic x => GraphicRegion.export_page_xml x px_document
  | Merged x =>
      MergedTextRegion.export_page_xml x (document_line_text document) px_document
  end.

(** [region.export_plain_text_region(composition)] *)
Definition export_plain_text_region (r : region)
    (composition : PlainTextComposition.t) : result PlainTextComposition.t :=
  match r with
  | Text x => TextRegion.export_plain_text_region x composition
  | Table x => Ok (TableRegion.export_plain_text_region x composition)
  | Graphic _ | Merged _ => Raise AttributeError
  end.

(** [region.export_plain_text_line(composition, line_path)] *)
Definition export_plain_text_line (r : region)
    (composition : PlainTextComposition.t) (line_path : path)
  : result PlainTextComposition.t :=
  match r with
  | Text x => TextRegion.export_plain_text_line x composition line_path
  | _ => Raise AttributeError
  end.

End Regions.

(** ** The reading order of regions *)

Module RegionReadingOrder.

Record t := mk {
  _document : Document.t region;
  _ordered_regions : list (path * region);
  _regionless_text_lines : list path;
  (** a [defaultdict(int)] *)
  _region_indices : gmap path Z
}.

Section Methods.
Context `{Libraries}.

(** [region_indices[base_path]] *)
Definition region_index (region_indices : gmap path Z) (base_path : path) : Z :=
  default 0%Z (region_indices !! base_path).

(** The loop of [__init__] over [document.paths]. *)
Definition observe_index (region_indices : gmap path Z) (p : path)
  : result (gmap path Z) :=
  segment ← index p 2;
  n ← py_int segment;
  Ok (<[take 2 p := Z.max (region_index region_indices (take 2 p)) n]>
        region_indices).

Definition _flush_regionless_lines (self : t) : result t :=
  match _regionless_text_lines self with
  | [] => Ok self
  | first :: _ =>
      let base_path := take 2 first in
      _ ← assert (forallb (λ p, bool_decide (take 2 p = base_path))
                          (_regionless_text_lines self));
      let new_region_index := (region_index (_region_indices self) base_path + 1)%Z in
      let region_indices := <[base_path := new_region_index]> (_region_indices self) in
      let new_region_path := base_path ++ [py_str new_region_index] in
      let lines := Input.lines_by_path (Document._input (_document self)) in
      merged_lines ← map_result (λ p, l ← getitem lines p; Ok (p, l))
                        (_regionless_text_lines self);
      let merged := MergedTextRegion.init (_document self) new_region_path merged_lines in
      Ok {| _document := _document self;
            _ordered_regions :=
              _ordered_regions self ++ [(new_region_path, Merged merged)];
            _regionless_text_lines := [];
            _region_indices := region_indices |}
  end.

Definition _is_adjacent (self : t) (line_path : path) : result bool :=
  match last (_regionless_text_lines self) with
  | None => Ok false
  | Some previous =>
      if bool_decide (take 3 previous ≠ take 3 line_path) then Ok false
      else
        let lines := Input.lines_by_path (Document._input (_document self)) in
        l0 ← getitem lines previous;
        l1 ← getitem lines line_path;
        if Qltb (distance (Line.image_space_polygon l0)
                          (Line.image_space_polygon l1)) 5
        then Ok true
        else Ok true
  end.

Definition _add_regionless_line (self : t) (line_path : path) : result t :=
  adjacent ← _is_adjacent self line_path;
  self ← (if negb adjacent then _flush_regionless_lines self else Ok self);
  Ok {| _document := _document self;
        _ordered_regions := _ordered_regions self;
        _regionless_text_lines := _regionless_text_lines self ++ [line_path];
        _region_indices := _region_indices self |}.

Definition append (self : t) (p : path) : result t :=
  if (length p =? 3)%nat then
    self ← _flush_regionless_lines self;
    region ← Document.get (_document self) p;
    match region with
    | Some region =>
        Ok {| _document := _document self;
              _ordered_regions := _ordered_regions self ++ [(p, region)];
              _regionless_text_lines := _regionless_text_lines self;
              _region_indices := _region_indices self |}
    | None => Ok self
    end
  else if (3 <? length p)%nat then
    _ ← assert (bool_decide (take 2 p = ["regions"; "TEXT"]));
    _add_regionless_line self p
  else Raise (ValueError (illegal_region_line_path p)).

Definition close (self : t) : result t := _flush_regionless_lines self.

(** [__init__] *)
Definition init (document : Document.t region) : result t :=
  region_indices ← for_each (Document.paths document) observe_index ∅;
  let self := {| _document := document;
                 _ordered_regions := [];
                 _regionless_text_lines := [];
                 _region_indices := region_indices |} in
  self ← for_each (Document.reading_order document) append self;
  close self.

(** the [reading_order] property *)
Definition reading_order (self : t) : list path := (_ordered_regions self).*1.

(** the [regions] property *)
Definition regions (self : t) : list region := (_ordered_regions self).*2.

End Methods.
End RegionReadingOrder.

(** ** The processor *)

(** What [process] writes into a file of the output. *)
Inductive file_content :=
| PlainText (text : string)
| PageXml (px_document : pagexml_document).

Module ComposeProcessor.

Record t := mk {
  _page_xml : bool;
  (** a [RegionsFilter], or [None] *)
  _block_filter : option (path → bool);
  _block_separator : string
}.

Section Methods.
Context `{Libraries}.

Definition export_page_xml (self : t) (page_path : string)
    (document : Document.t region) : result pagexml_document :=
  ro ← RegionReadingOrder.init document;
  let px_document :=
    mk_px (imap (λ i p, (i, Str.join "-" p)) (RegionReadingOrder.reading_order ro))
          [] [] in
  for_each (RegionReadingOrder.regions ro)
    (λ px region, export_page_xml document region px) px_document.

(** One round of the loop over the reading order in [export_plain_text]. *)
Definition export_path (self : t) (document : Document.t region)
    (composition : PlainTextComposition.t) (p : path)
  : result PlainTextComposition.t :=
  if match _block_filter self with
     | Some block_filter => negb (block_filter p)
     | None => false
     end
  then Ok composition
  else if (length p =? 3)%nat then
    region ← Document.get document p;
    match region with
    | Some region => export_plain_text_region region composition
    | None => Ok composition
    end
  else if (length p =? 4)%nat then
    region ← Document.get document (take 3 p);
    match region with
    | Some region => export_plain_text_line region composition p
    | None => Ok composition
    end
  else
    (* ["illegal path %s in reading order" % path]: the tuple [path] is the
       list of the values to format, so that only a path of one segment
       fills the one [%s]; with any other number of segments the formatting
       raises before the error exists. *)
    match p with
    | [segment] => Raise (RuntimeError (illegal_path_in_reading_order segment))
    | _ => Raise TypeError
    end.

Definition export_plain_text (self : t) (document : Document.t region)
  : result string :=
  composition ← for_each (Document.reading_order document)
                   (export_path self document)
                   (PlainTextComposition.init Str.newline (_block_separator self));
  Ok (PlainTextComposition.text composition).

(** [process]: the files written to the output, in the order they are
    written.  A call that raises leaves the [with] block of the output, whose
    context manager is not part of this code; nothing is said here of what
    the output holds then. *)
Definition process (self : t) (page_path : string) (input : Input.t)
  : result (list (string * file_content)) :=
  match Input.regions_by_path input with
  | [] => Ok []
  | _ :: _ =>
      document ← Document_init page_path input;
      text ← export_plain_text self document;
      let written := [("page.txt", PlainText text)] in
      if _page_xml self then
        xml ← export_page_xml self page_path document;
        Ok (written ++ [("page.xml", PageXml xml)])
      else Ok written
  end.

End Methods.
End ComposeProcessor.

(** ** An implementation of the library operations

    Exact on the rationals and enough to run the definitions above: polygons
    are clipped against a rectangle edge by edge, the union of several
    geometries is kept as a multi-part geometry whose hull is taken to be the
    rectangle around it, and the distance is measured between the rectangles
    around the two geometries along the axis where they are farther apart
    (never more than their Euclidean distance). *)

Module Sample.

(** Clipping a ring, given without its closing vertex, against one edge of
    the rectangle: [inside] tells on which side a vertex lies, and [cross]
    gives the point where a segment leaves or enters. *)
Fixpoint clip_from (inside : point → bool) (cross : point → point → point)
    (previous : point) (ring : list point) : list point :=
  match ring with
  | [] => []
  | current :: ring' =>
      (if inside current then
         (if inside previous then [] else [cross previous current]) ++ [current]
       else
         (if inside previous then [cross previous current] else []))
        ++ clip_from inside cross current ring'
  end.

Definition clip (inside : point → bool) (cross : point → point → point)
    (ring : list point) : list point :=
  match last ring with
  | None => []
  | Some previous => clip_from inside cross previous ring
  end.

(** The point of the segment [p q] with abscissa [x]. *)
Definition cross_x (x : Q) (p q : point) : point :=
  (x, p.2 + (q.2 - p.2) * ((x - p.1) / (q.1 - p.1)))%Q.

(** The point of the segment [p q] with ordinate [y]. *)
Definition cross_y (y : Q) (p q : point) : point :=
  (p.1 + (q.1 - p.1) * ((y - p.2) / (q.2 - p.2)), y)%Q.

Definition clip_rectangle (minx miny maxx maxy : Q) (ring : list point)
  : list point :=
  let ring := clip (λ p, Qle_bool minx p.1) (cross_x minx) ring in
  let ring := clip (λ p, Qle_bool p.1 maxx) (cross_x maxx) ring in
  let ring := clip (λ p, Qle_bool miny p.2) (cross_y miny) ring in
  clip (λ p, Qle_bool p.2 maxy) (cross_y maxy) ring.

(** A ring without its closing vertex, and closed again. *)
Definition open_ring (ring : list point) : list point :=
  take (length ring - 1) ring.

Definition close_ring (ring : list point) : list point :=
  match ring with
  | [] => []
  | p :: _ => ring ++ [p]
  end.

(** Intersection with a rectangle as [box] builds it. *)
Definition intersect (g r : geometry) : geometry :=
  match g, r with
  | Polygon ring, Polygon [(maxx, miny); (_, maxy); (minx, _); _; _] =>
      Polygon (close_ring (clip_rectangle minx miny maxx maxy (open_ring ring)))
  | _, _ => NonPolygon []
  end.

Definition all_coords (g : geometry) : list point :=
  match g with Polygon c | NonPolygon c => c end.

Definition union (geoms : list geometry) : geometry :=
  match geoms with
  | [g] => g
  | _ => NonPolygon (concat (map all_coords geoms))
  end.

Definition Qmin_list (x : Q) (l : list Q) : Q := foldr Qmin x l.
Definition Qmax_list (x : Q) (l : list Q) : Q := foldr Qmax x l.

(** The rectangle around a list of points. *)
Definition bounds (points : list point) : option (Q * Q * Q * Q) :=
  match points with
  | [] => None
  | p :: ps =>
      Some (Qmin_list p.1 ps.*1, Qmin_list p.2 ps.*2,
            Qmax_list p.1 ps.*1, Qmax_list p.2 ps.*2)
  end.

Definition hull (g : geometry) : geometry :=
  match bounds (all_coords g) with
  | None => Polygon []
  | Some (minx, miny, maxx, maxy) => box minx miny maxx maxy
  end.

Definition gap (g h : geometry) : Q :=
  match bounds (all_coords g), bounds (all_coords h) with
  | Some (gx0, gy0, gx1, gy1), Some (hx0, hy0, hx1, hy1) =>
      Qmax (Qmax 0 (Qmax (gx0 - hx1) (hx0 - gx1)))
           (Qmax 0 (Qmax (gy0 - hy1) (hy0 - gy1)))
  | _, _ => 0
  end.

(** A plain rendering of a table: cells joined by bars, rows by line feeds,
    and a ruler under the first row when it is a header. *)
Definition render_table (data : list (list string)) (h : headers) : string :=
  let rows := map (Str.join " | ") data in
  match h, rows with
  | firstrow, first :: rest => Str.join Str.newline (first :: "---" :: rest)
  | _, _ => Str.join Str.newline rows
  end.

(** The block path a region path belongs to: the grid suffix of a table
    cell is dropped from its third segment. *)
Definition base_path (p : path) : path :=
  match p with
  | [namespace; class_; block_id] =>
      [namespace; class_; default block_id (head (Str.split "." block_id))]
  | _ => p
  end.

(** Modelled from the spec: [TableRegionCombinator] is not part of the
    composition code.  A table region is built from every sub-block that
    shares the table's base block path; any other region from its own
    block. *)
Definition combine (paths : list path) : gmap path (list path) :=
  foldl (λ m p, <[base_path p := default [] (m !! base_path p) ++ [p]]> m)
        ∅ paths.

Definition libraries : Libraries :=
  {| cascaded_union := union;
     convex_hull := hull;
     intersection := intersect;
     distance := gap;
     tabulate := render_table;
     combinator_mapping := combine |}.

End Sample.

(** ** Vocabulary of the statements *)

(** The character occurs in the string. *)
Fixpoint contains (c : ascii) (s : string) : bool :=
  match s with
  | EmptyString => false
  | String a s' => bool_decide (a = c) || contains c s'
  end.

(** The namespace and class an OCR line has to be filed under: tables for a
    block id with a dotted grid suffix, text otherwise. *)
Definition expected_prefix (block_id : string) : path :=
  if contains "." block_id then ["regions"; "TABULAR"] else ["regions"; "TEXT"].

Definition well_filed (line_path : path) : Prop :=
  ∃ block_id, line_path !! 2%nat = Some block_id
              ∧ take 2 line_path = expected_prefix block_id.

(** The document [Document.__init__] has built when it starts to ingest the
    OCR lines. *)
Definition Document_before_ocr `{Libraries} (page_path : string) (input : Input.t)
  : Document.t region :=
  Document.mk page_path input
    (combinator_mapping (Dict.keys (Input.regions_by_path input)))
    (group_region_lines (Input.lines_by_path input)) ∅.

(** The confidences [Document.get] looks at: those of the lines filed under
    the block path. *)
Definition observed_confidences {R} (self : Document.t R) (block_path : path)
  : list Q :=
  map (λ l, Line.confidence l.2) (Document.region_lines self block_path).

(** The reconstructor with another run of regionless lines. *)
Definition with_run (self : RegionReadingOrder.t) (run : list path)
  : RegionReadingOrder.t :=
  RegionReadingOrder.mk (RegionReadingOrder._document self)
    (RegionReadingOrder._ordered_regions self) run
    (RegionReadingOrder._region_indices self).

(** The reconstructor with one more ordered region. *)
Definition with_region (self : RegionReadingOrder.t) (p : path) (r : region)
  : RegionReadingOrder.t :=
  RegionReadingOrder.mk (RegionReadingOrder._document self)
    (RegionReadingOrder._ordered_regions self ++ [(p, r)])
    (RegionReadingOrder._regionless_text_lines self)
    (RegionReadingOrder._region_indices self).

(** The block filter of the processor lets the path through. *)
Definition passes_filter (self : ComposeProcessor.t) (p : path) : bool :=
  match ComposeProcessor._block_filter self with
  | Some block_filter => block_filter p
  | None => true
  end.

(** Modelled from the spec: [RegionsFilter] is not part of the composition
    code.  A region-selection filter is a path-prefix predicate, given as a
    slash-joined path such as "regions/TEXT". *)
Definition RegionsFilter (regions : string) (p : path) : bool :=
  let prefix := Str.split "/" regions in
  bool_decide (take (length prefix) p = prefix).

(** ** A page to run the definitions on *)

Module Example.

Definition rectangle (minx miny maxx maxy : Q) : geometry :=
  box minx miny maxx maxy.

Definition page : Page.t := Page.mk (100, 200)%Q (λ coords, coords).

(** Two lines of one block, at the top and at the bottom of the page, and
    one line outside of the page. *)
Definition line_top : Line.t := Line.mk (rectangle 10 10 50 20) (9 # 10).
Definition line_bottom : Line.t := Line.mk (rectangle 10 150 50 160) (9 # 10).
Definition line_outside : Line.t := Line.mk (rectangle 110 10 150 20) (9 # 10).

Definition input : Input.t :=
  Input.mk page
    [ (["regions"; "TEXT"; "1"], Block.mk (rectangle 5 5 60 170));
      (["regions"; "ILLUSTRATION"; "2"], Block.mk (rectangle 5 175 60 190)) ]
    [ (["regions"; "TEXT"; "1"; "0"], line_top);
      (["regions"; "TEXT"; "1"; "1"], line_bottom) ]
    0
    [ (["regions"; "TEXT"; "1"; "0"], "Hello");
      (["regions"; "TEXT"; "1"; "1"], "World") ]
    [ "regions/TEXT/1"; "regions/ILLUSTRATION/2" ].

(** The same page with a reading order that names the two lines of the text
    block instead of the block. *)
Definition lines_input : Input.t :=
  Input.mk page (Input.regions_by_path input) (Input.lines_by_path input) 0
    (Input.sorted_ocr input)
    [ "regions/TEXT/1/0"; "regions/TEXT/1/1" ].

(** The same page with a reading order that names the illustration between
    the two lines of the text block. *)
Definition mixed_input : Input.t :=
  Input.mk page (Input.regions_by_path input) (Input.lines_by_path input) 0
    (Input.sorted_ocr input)
    [ "regions/TEXT/1/0"; "regions/ILLUSTRATION/2"; "regions/TEXT/1/1" ].

(** The same page without OCR results: the lines of the text block have been
    detected but not read. *)
Definition unread_input : Input.t :=
  Input.mk page (Input.regions_by_path input) (Input.lines_by_path input) 0
    [] [ "regions/TEXT/1" ].

(** The same page with a reading order that names, after the text block, a
    path of two segments. *)
Definition short_path_input : Input.t :=
  Input.mk page (Input.regions_by_path input) (Input.lines_by_path input) 0
    (Input.sorted_ocr input)
    [ "regions/TEXT/1"; "regions/ILLUSTRATION" ].

(** A page with one line, under a path of five segments, which the reading
    order names. *)
Definition long_path_input : Input.t :=
  Input.mk page (Input.regions_by_path input)
    [ (["regions"; "TEXT"; "1"; "0"; "x"], line_top) ]
    0 [] [ "regions/TEXT/1/0/x" ].

(** A page with two text blocks, of which the first has one line, read, and
    the second has none; the reading order names the line. *)
Definition two_blocks_input : Input.t :=
  Input.mk page
    [ (["regions"; "TEXT"; "1"], Block.mk (rectangle 5 5 60 170));
      (["regions"; "TEXT"; "2"], Block.mk (rectangle 5 175 60 190)) ]
    [ (["regions"; "TEXT"; "1"; "0"], line_top) ]
    0
    [ (["regions"; "TEXT"; "1"; "0"], "Hello") ]
    [ "regions/TEXT/1/0" ].

(** A fragment that is one no-break space, U+00A0: the bytes C2 A0. *)
Definition no_break_space : string :=
  String (ascii_of_nat 194) (String (ascii_of_nat 160) EmptyString).

(** The document before any region is created. *)
Definition empty_document : Document.t region :=
  @Document_before_ocr Sample.libraries "page" input.

(** A line without geometry. *)
Definition line_empty : Line.t := Line.mk (Polygon []) (9 # 10).

(** A text region that holds one line with its text. *)
Definition holding (line : Line.t) (text : string) : TextRegion.t :=
  {| TextRegion._polygon := rectangle 5 5 60 170;
     TextRegion._block_path := ["regions"; "TEXT"; "1"];
     TextRegion._lines := {[ ["regions"; "TEXT"; "1"; "0"] := line ]};
     TextRegion._line_texts := {[ ["regions"; "TEXT"; "1"; "0"] := text ]};
     TextRegion._order := [["regions"; "TEXT"; "1"; "0"]];
     TextRegion._transform :=
       Document.rewarp (H := Sample.libraries) empty_document |}.

Definition empty_pagexml : pagexml_document := mk_px [] [] [].

(** A reconstructor that has the top line in its run. *)
Definition accumulating : RegionReadingOrder.t :=
  RegionReadingOrder.mk empty_document [] [["regions"; "TEXT"; "1"; "0"]] ∅.

(** A reconstructor at its start. *)
Definition idle : RegionReadingOrder.t :=
  RegionReadingOrder.mk empty_document [] [] ∅.

(** A page with a table of two columns: a header division with one row and
    a body division with one row. *)
Definition cell (division column : Z) : Block.t :=
  Block.mk (rectangle (10 + 40 * inject_Z column) (10 + 20 * inject_Z division)
                      (40 + 40 * inject_Z column) (25 + 20 * inject_Z division)).

Definition cell_line (division column : Z) : Line.t :=
  Line.mk (rectangle (12 + 40 * inject_Z column) (12 + 20 * inject_Z division)
                     (38 + 40 * inject_Z column) (22 + 20 * inject_Z division))
          (9 # 10).

Definition cell_path (division column : Z) : path :=
  ["regions"; "TABULAR";
   "3." +:+ py_str division +:+ ".0." +:+ py_str column; "0"].

Definition table : TableRegion.t :=
  {| TableRegion._lines :=
       <[cell_path 0 0 := cell_line 0 0]>
         (<[cell_path 0 1 := cell_line 0 1]>
            (<[cell_path 1 0 := cell_line 1 0]>
               (<[cell_path 1 1 := cell_line 1 1]> ∅)));
     TableRegion._block_path := ["regions"; "TABULAR"; "3"];
     TableRegion._divisions := {[0%Z]} ∪ {[1%Z]};
     TableRegion._rows := <[0%Z := {[0%Z]}]> (<[1%Z := {[0%Z]}]> ∅);
     TableRegion._columns := {[0%Z]} ∪ {[1%Z]};
     TableRegion._texts :=
       <[(0, 0, 0)%Z := [(cell_path 0 0, "Name")]]>
         (<[(0, 0, 1)%Z := [(cell_path 0 1, "Year")]]>
            (<[(1, 0, 0)%Z := [(cell_path 1 0, "Ada")]]>
               (<[(1, 0, 1)%Z := [(cell_path 1 1, "1843")]]> ∅)));
     TableRegion._transform :=
       Document.rewarp (H := Sample.libraries) empty_document;
     TableRegion._document_page_path := "page";
     TableRegion._blocks :=
       <[(0, 0, 0)%Z := cell 0 0]>
         (<[(1, 0, 0)%Z := cell 0 1]>
            (<[(0, 1, 0)%Z := cell 1 0]>
               (<[(1, 1, 0)%Z := cell 1 1]> ∅))) |}.

(** The page of that table as the input has it: one block and one line for
    each of the four cells. *)
Definition table_input : Input.t :=
  Input.mk page
    [ (take 3 (cell_path 0 0), cell 0 0); (take 3 (cell_path 0 1), cell 0 1);
      (take 3 (cell_path 1 0), cell 1 0); (take 3 (cell_path 1 1), cell 1 1) ]
    [ (cell_path 0 0, cell_line 0 0); (cell_path 0 1, cell_line 0 1);
      (cell_path 1 0, cell_line 1 0); (cell_path 1 1, cell_line 1 1) ]
    0
    [ (cell_path 0 0, "Name"); (cell_path 0 1, "Year");
      (cell_path 1 0, "Ada"); (cell_path 1 1, "1843") ]
    [ "regions/TABULAR/3" ].

(** A processor that exports the text regions only. *)
Definition text_only : ComposeProcessor.t :=
  ComposeProcessor.mk true (Some (RegionsFilter "regions/TEXT")) Str.newline.

End Example.

(** Every division of the table has a row. *)
Definition table_wf (self : TableRegion.t) : Prop :=
  ∀ division, division ∈ TableRegion._divisions self →
              TableRegion.rows self division ≠ ∅.

(** The texts of the cells of one column, division after division and row
    after row. *)
Definition cells_in_order (self : TableRegion.t) (column : Z) : list string :=
  concat (map (λ division,
                 map (λ row, TableRegion.cell_text self division row column)
                     (sorted (TableRegion.rows self division)))
              (sorted (TableRegion._divisions self))).

(** The first division of the table has exactly one row, and the table has
    more rows than that one. *)
Definition first_row_is_header (self : TableRegion.t) : Prop :=
  (∃ division, head (sorted (TableRegion._divisions self)) = Some division
               ∧ size (TableRegion.rows self division) = 1%nat)
  ∧ (2 ≤ length (TableRegion.table_data self))%nat.

(** The coordinate transform of a page: [Document.rewarp] of any document of
    that page. *)
Definition rewarp_page `{Libraries} (page : Page.t)
  : list point → result (list point) :=
  Document.rewarp (R := region)
    (Document.mk EmptyString (Input.mk page [] [] 0 [] []) ∅ ∅ ∅).

(** What holds of the region a document keeps under a block path: it
    transforms coordinates with the transform of the page, a text region
    knows its block path and holds lines of that block only, and no merged
    region is kept in the document. *)
Definition region_ok `{Libraries} (page : Page.t) (block_path : path) (r : region)
  : Prop :=
  match r with
  | Text x =>
      TextRegion._block_path x = block_path
      ∧ Forall (λ line_path, take 3 line_path = block_path) (TextRegion._order x)
      ∧ TextRegion._transform x = rewarp_page page
  | Table x => TableRegion._transform x = rewarp_page page ∧ table_wf x
  | Graphic x => GraphicRegion._transform x = rewarp_page page
  | Merged _ => False
  end.

Definition regions_ok `{Libraries} (document : Document.t region) : Prop :=
  ∀ block_path r,
    Document._regions document !! block_path = Some r →
    region_ok (Document.page document) block_path r.

(** The paths of the merged regions among the ordered regions. *)
Definition is_merged (r : region) : bool :=
  match r with Merged _ => true | _ => false end.

Definition merged_paths (ordered : list (path * region)) : list path :=
  (filter (λ pr, is_merged pr.2 = true) ordered).*1.

(** The index a block path carries in its third segment. *)
Definition path_index (p : path) : result Z :=
  segment ← index p 2;
  py_int segment.

(** The largest index among the paths under a namespace and class, and 0 if
    there is none above it. *)
Definition observe (base : path) (acc : Z) (p : path) : Z :=
  if bool_decide (take 2 p = base)
  then match path_index p with Ok n => Z.max acc n | Raise _ => acc end
  else acc.

Definition max_index (base : path) (paths : list path) : Z :=
  foldl (observe base) 0%Z paths.

(** The path of the merged text region with the given index. *)
Definition merged_path (n : Z) : path := ["regions"; "TEXT"; py_str n].

(** The state of the reconstructor while it walks the reading order of
    [document], whose largest text index is [b]: the lines of the run are
    text lines, the merged regions made so far carry the indices [b+1], ...,
    [b+k], and [b+k] is the index on record. *)
Definition walking (document : Document.t region) (b : Z)
    (self : RegionReadingOrder.t) : Prop :=
  RegionReadingOrder._document self = document
  ∧ Forall (λ p, take 2 p = ["regions"; "TEXT"])
           (RegionReadingOrder._regionless_text_lines self)
  ∧ ∃ k : nat,
      merged_paths (RegionReadingOrder._ordered_regions self)
      = map (λ i : nat, merged_path (b + Z.of_nat i)) (seq 1 k)
      ∧ RegionReadingOrder.region_index
          (RegionReadingOrder._region_indices self) ["regions"; "TEXT"]
        = (b + Z.of_nat k)%Z.

(** ** Vocabulary of the table export *)

(** The cell of the table can be rendered: its block exists and has a
    geometry. *)
Definition renderable (self : TableRegion.t) (column division row : Z) : Prop :=
  ∃ block, TableRegion._blocks self !! (column, division, row) = Some block
           ∧ is_empty (Block.image_space_polygon block) = false.

Definition renderable_division (self : TableRegion.t) (column division : Z)
  : Prop :=
  ∃ row, row ∈ TableRegion.rows self division
         ∧ renderable self column division row.

Definition renderable_column (self : TableRegion.t) (column : Z) : Prop :=
  ∃ division, division ∈ TableRegion._divisions self
              ∧ renderable_division self column division.

Definition renderable_table (self : TableRegion.t) : Prop :=
  ∃ column, column ∈ TableRegion._columns self
            ∧ renderable_column self column.

(** The elements of an exported table: a line of a cell, a cell of a
    renderable block, a division with at least one cell, a column with at
    least one division, and the table with at least one column. *)
Definition emitted_line (node : px_node) : Prop :=
  ∃ id_ coords text, node = Element "TextLine" id_ [Coords coords; TextEquiv text].

Definition emitted_cell (self : TableRegion.t) (column division : Z)
    (node : px_node) : Prop :=
  ∃ row id_ coords px_lines,
    node = Element "TextRegion" id_ (Coords coords :: px_lines)
    ∧ Forall emitted_line px_lines
    ∧ row ∈ TableRegion.rows self division
    ∧ renderable self column division row.

Definition emitted_division (self : TableRegion.t) (column : Z)
    (node : px_node) : Prop :=
  ∃ division id_ coords cells,
    node = Element "TextRegion" id_ (Coords coords :: cells)
    ∧ cells ≠ []
    ∧ Forall (emitted_cell self column division) cells.

Definition emitted_column (self : TableRegion.t) (node : px_node) : Prop :=
  ∃ column id_ coords divisions,
    node = Element "TextRegion" id_ (Coords coords :: divisions)
    ∧ divisions ≠ []
    ∧ Forall (emitted_division self column) divisions.

Definition emitted_table (self : TableRegion.t) (node : px_node) : Prop :=
  ∃ coords columns,
    node = Element "TableRegion" (Str.join "-" (TableRegion._block_path self))
             (Coords coords :: columns)
    ∧ columns ≠ []
    ∧ Forall (emitted_column self) columns.

(** ** Vocabulary of the coordinate transform *)

(** The point lies on the page. *)
Definition within (page : Page.t) (p : point) : Prop :=
  (0 <= p.1 ∧ p.1 <= (Page.size page).1 ∧ 0 <= p.2 ∧ p.2 <= (Page.size page).2)%Q.

(** Every coordinate written in the element and below it lies on the page. *)
Fixpoint coords_within (page : Page.t) (node : px_node) : Prop :=
  match node with
  | Coords points => Forall (within page) points
  | TextEquiv _ => True
  | Element _ _ children =>
      (fix all (l : list px_node) : Prop :=
         match l with
         | [] => True
         | n :: l' => coords_within page n ∧ all l'
         end) children
  end.

(** What the intersection with a rectangle guarantees: when the result is a
    polygon, its exterior lies in the rectangle. *)
Definition intersection_within_box `{Libraries} : Prop :=
  ∀ (g : geometry) (width height : Q) (exterior : list point),
    intersection g (box 0 0 width height) = Polygon exterior →
    Forall (λ p : point,
              (0 <= p.1 ∧ p.1 <= width ∧ 0 <= p.2 ∧ p.2 <= height)%Q)
           exterior.

(** The transform a region applies to the coordinates it writes. *)
Definition transform_of (r : region) : list point → result (list point) :=
  match r with
  | Text x => TextRegion._transform x
  | Table x => TableRegion._transform x
  | Graphic x => GraphicRegion._transform x
  | Merged x => MergedTextRegion._transform x
  end.

(** The transform yields coordinates on the page only. *)
Definition bounded (page : Page.t) (transform : list point → result (list point))
  : Prop :=
  ∀ coords coords', transform coords = Ok coords' → Forall (within page) coords'.

(** The regions the reconstructor has ordered transform their coordinates
    onto the page of the document. *)
Definition ordered_bounded (document : Document.t region)
    (self : RegionReadingOrder.t) : Prop :=
  RegionReadingOrder._document self = document
  ∧ Forall (λ pr, bounded (Document.page document) (transform_of pr.2))
           (RegionReadingOrder._ordered_regions self).

(** The call returned. *)
Definition is_ok {A} (r : result A) : bool :=
  match r with Ok _ => true | Raise _ => false end.

(** ** Vocabulary of the further properties *)

(** The paths of the lines a region merges. *)
Definition lines_of (r : region) : list path :=
  match r with
  | Merged m => (MergedTextRegion._lines m).*1
  | _ => []
  end.

(** The lines of the merged regions among the ordered regions, in order. *)
Definition merged_line_paths (ordered : list (path * region)) : list path :=
  concat (map (λ pr, lines_of pr.2) ordered).

(** The entries of a reading order that the reconstructor takes for lines. *)
Definition line_entries (order : list path) : list path :=
  filter (λ p, (3 < length p)%nat) order.

(** The block entries of a reading order that have a region in the document,
    with that region. *)
Definition resolved_blocks `{Libraries} (document : Document.t region)
    (order : list path) : list (path * region) :=
  omap (λ p, if (length p =? 3)%nat
             then match Document.get document p with
                  | Ok (Some r) => Some (p, r)
                  | _ => None
                  end
             else None)
       order.

(** The ordered regions that come from the document. *)
Definition document_regions (ordered : list (path * region))
  : list (path * region) :=
  filter (λ pr, is_merged pr.2 = false) ordered.

(** The block path a region was made for. *)
Definition block_path_of (r : region) : path :=
  match r with
  | Text x => TextRegion._block_path x
  | Table x => TableRegion._block_path x
  | Graphic x => GraphicRegion._block_path x
  | Merged x => MergedTextRegion._block_path x
  end.

(** Every cell of the table that has texts lies on the grid of the table:
    its division, its row in that division and its column are on record. *)
Definition grid_covers (self : TableRegion.t) : Prop :=
  ∀ division row column,
    is_Some (TableRegion._texts self !! (division, row, column)) →
    division ∈ TableRegion._divisions self
    ∧ row ∈ TableRegion.rows self division
    ∧ column ∈ TableRegion._columns self.

(** What holds of the region a document keeps under the key [key]: it was
    made for that path, its class is the one the key names, a text region has
    a text for every line of its order, and a table has every cell with text
    on its grid. *)
Definition region_sound (key : path) (r : region) : Prop :=
  block_path_of r = key
  ∧ match r with
    | Text x =>
        take 2 key = ["regions"; "TEXT"]
        ∧ Forall (λ p, is_Some (TextRegion._line_texts x !! p))
                 (TextRegion._order x)
    | Table x => take 2 key = ["regions"; "TABULAR"] ∧ grid_covers x
    | Graphic x => take 2 key = ["regions"; "ILLUSTRATION"]
    | Merged _ => False
    end.

Definition regions_sound (document : Document.t region) : Prop :=
  ∀ key r, Document._regions document !! key = Some r → region_sound key r.

(** The [id] attribute of an element of the Page XML document. *)
Definition node_id (n : px_node) : string :=
  match n with
  | Element _ id_ _ => id_
  | _ => EmptyString
  end.

(** The region references of the reading order of a Page XML document. *)
Definition region_refs (px : pagexml_document) : list string :=
  (px_reading_order px).*2.

(** The identifiers of the tables that a Page XML export has left out with a
    warning. *)
Definition warned_ids (px : pagexml_document) : list string :=
  map (λ w : path * string, Str.join "-" w.1) (warnings px).

(** Every ordered region was made for the path it is ordered under. *)
Definition ordered_filed (document : Document.t region)
    (self : RegionReadingOrder.t) : Prop :=
  RegionReadingOrder._document self = document
  ∧ Forall (λ pr : path * region, block_path_of pr.2 = pr.1)
           (RegionReadingOrder._ordered_regions self).

(** The state of the reconstructor after the entries [done] of the reading
    order: the lines of the merged regions followed by those of the run are
    the line entries, and the regions taken from the document are the
    resolved block entries. *)
Definition keeps `{Libraries} (document : Document.t region) (done : list path)
    (self : RegionReadingOrder.t) : Prop :=
  RegionReadingOrder._document self = document
  ∧ merged_line_paths (RegionReadingOrder._ordered_regions self)
      ++ RegionReadingOrder._regionless_text_lines self
    = line_entries done
  ∧ document_regions (RegionReadingOrder._ordered_regions self)
    = resolved_blocks document done.

(** The Page XML document after the regions [done] have been exported. *)
Definition exported (refs : list (nat * string)) (done : list region)
    (px : pagexml_document) : Prop :=
  px_reading_order px = refs
  ∧ map node_id (px_regions px) ++ warned_ids px
    ≡ₚ map (λ r, Str.join "-" (block_path_of r)) done
  ∧ sublist (map node_id (px_regions px))
            (map (λ r, Str.join "-" (block_path_of r)) done)
  ∧ sublist (warned_ids px)
            (map (λ r, Str.join "-" (block_path_of r)) done).

(** The OCR lines of a block, in the order of the OCR results. *)
Definition lines_under (block_path : path) (ocr : list (path * string))
  : list (path * string) :=
  filter (λ lt, take 3 lt.1 = block_path) ocr.

(** The document after the OCR lines [done] have been added: every text
    region holds the lines of its block, of which there is one at least, in
    their order and with their texts, a text block without a region has had
    no line, and every text line has the region of its block. *)
Definition holds_texts (done : list (path * string))
    (document : Document.t region) : Prop :=
  regions_sound document
  ∧ (∀ block_path x,
       Document._regions document !! block_path = Some (Text x) →
       TextRegion._order x = (lines_under block_path done).*1
       ∧ TextRegion._line_texts x = dict_of_items (lines_under block_path done)
       ∧ lines_under block_path done ≠ [])
  ∧ (∀ block_path,
       Document._regions document !! block_path = None →
       take 2 block_path = ["regions"; "TEXT"] →
       lines_under block_path done = [])
  ∧ (∀ lt, lt ∈ done → take 2 lt.1 = ["regions"; "TEXT"] →
           is_Some (Document._regions document !! take 3 lt.1)).

(** The document after the blocks [done] of the input have been looked at
    for illustrations: each of them that is one has its graphic region. *)
Definition holds_graphics (done : list (path * Block.t))
    (document : Document.t region) : Prop :=
  ∀ pb, pb ∈ done → take 2 pb.1 = ["regions"; "ILLUSTRATION"] →
        ∃ g, Document._regions document !! pb.1 = Some (Graphic g).

(** The detected lines of a block, in the order of the lines of the input. *)
Definition detected_under (block_path : path) (lines : list (path * Line.t))
  : list (path * Line.t) :=
  filter (λ pl, take 3 pl.1 = block_path) lines.

(** The table and the cell that the path of an OCR line names: the block id
    of a table line is the id of the table followed by the division, the row
    and the column of the cell, separated by dots. *)
Definition cell_of (line_path : path) : option (path * (Z * Z * Z)) :=
  match index (take 3 line_path) 2 with
  | Ok segment =>
      let table_path := Str.split "." segment in
      if (1 <? length table_path)%nat then
        match index table_path 0, map_result py_int (drop 1 table_path) with
        | Ok table_id, Ok [division; row; column] =>
            Some (take 2 (take 3 line_path) ++ [table_id], (division, row, column))
        | _, _ => None
        end
      else None
  | Raise _ => None
  end.

(** The OCR lines of a cell of a table, in the order of the OCR results. *)
Definition cell_lines (table : path) (cell : Z * Z * Z)
    (ocr : list (path * string)) : list (path * string) :=
  filter (λ lt, cell_of lt.1 = Some (table, cell)) ocr.

(** The document after the OCR lines [done] have been added: every table
    holds in each cell the lines of that cell in their order, a table path
    without a region has had no line, and every table line has its table. *)
Definition holds_cells (done : list (path * string))
    (document : Document.t region) : Prop :=
  regions_sound document
  ∧ (∀ table x,
       Document._regions document !! table = Some (Table x) →
       ∀ division row column,
         TableRegion.texts x division row column
         = cell_lines table (division, row, column) done)
  ∧ (∀ table,
       Document._regions document !! table = None →
       ∀ cell, cell_lines table cell done = [])
  ∧ (∀ lt, lt ∈ done → take 2 lt.1 = ["regions"; "TABULAR"] →
           ∃ table cell, cell_of lt.1 = Some (table, cell)
                         ∧ is_Some (Document._regions document !! table)).

(** ** Line detection: how detected lines are filed

    The part of [lines.py] that names the detected lines and writes the
    lines artifact, from which the composition reads its lines and its
    minimum confidence. *)

(** A detected line, as far as the processor looks at it. *)
Module DetectedLine.

Record t := mk {
  predicted_path : path;
  (** the JSON of [line.info] *)
  info : string
}.

End DetectedLine.

(** [d[k] = v] on a dictionary that keeps the order of insertion: a key that
    is present keeps its place. *)
Fixpoint setitem `{EqDecision K} {V} (d : Dict.t K V) (k : K) (v : V)
  : Dict.t K V :=
  match d with
  | [] => [(k, v)]
  | (k', v') :: d' =>
      if decide (k' = k) then (k', v) :: d' else (k', v') :: setitem d' k v
  end.

(** The key of a detected line:
    [(prediction_name, class_name, block_id, line_id)]. *)
Definition line_key : Type := string * string * string * nat.

Module LineDetectionProcessor.

Record t := mk {
  _min_confidence : Q
}.

(** [__init__], as far as the lines artifact depends on it. *)
Definition init : t := {| _min_confidence := 0 |}.

(** One round of the loop over [enumerate(lines)] in [process]:
    [detected_lines] and [free_lines] after the round. *)
Definition file_line (prediction_name class_name block_id : string)
    (acc : Dict.t line_key DetectedLine.t * list (path * DetectedLine.t))
    (il : nat * DetectedLine.t)
  : Dict.t line_key DetectedLine.t * list (path * DetectedLine.t) :=
  let '(line_id, line) := il in
  let pred_path := DetectedLine.predicted_path line in
  if decide (pred_path ≠ [prediction_name; class_name]) then
    (acc.1, acc.2 ++ [(pred_path, line)])
  else
    let line_path := (prediction_name, class_name, block_id, line_id) in
    (setitem acc.1 line_path line, acc.2).

(** One round of the loop over [detected_lines_by_block.items()]. *)
Definition file_block
    (acc : Dict.t line_key DetectedLine.t * list (path * DetectedLine.t))
    (pl : path * list DetectedLine.t)
  : result (Dict.t line_key DetectedLine.t * list (path * DetectedLine.t)) :=
  let '(parts, lines) := pl in
  prediction_name ← index parts 0;
  class_name ← index parts 1;
  block_id ← index parts 2;
  Ok (foldl (file_line prediction_name class_name block_id) acc
            (imap (λ line_id line, (line_id, line)) lines)).

(** [detected_lines] and [free_lines] of [process], from the lines of the
    blocks after their confidences have been updated. *)
Definition file_lines
    (detected_lines_by_block : Dict.t path (list DetectedLine.t))
  : result (Dict.t line_key DetectedLine.t * list (path * DetectedLine.t)) :=
  for_each detected_lines_by_block file_block ([], []).

(** ["%s.json" % "/".join(map(str, line_path))] *)
Definition line_file_name (line_path : line_key) : string :=
  let '(prediction_name, class_name, block_id, line_id) := line_path in
  Str.join "/" [prediction_name; class_name; block_id; py_str (Z.of_nat line_id)]
    +:+ ".json".

(** What [process] writes to the lines artifact: the version and the minimum
    confidence in "meta.json", then one file for each detected line. *)
Inductive lines_file :=
| Meta (version : Z) (min_confidence : Q)
| LineInfo (info : string).

Definition write_lines (self : t)
    (detected_lines : Dict.t line_key DetectedLine.t)
  : list (string * lines_file) :=
  ("meta.json", Meta 1 (_min_confidence self))
    :: map (λ kl, (line_file_name kl.1, LineInfo (DetectedLine.info kl.2)))
           detected_lines.

End LineDetectionProcessor.

(** The lines of all blocks, each with the path of its block and its place
    among the lines of the block. *)
Definition all_lines (blocks : list (path * list DetectedLine.t))
  : list (path * nat * DetectedLine.t) :=
  concat (map (λ pl : path * list DetectedLine.t,
                 imap (λ n line, (pl.1, n, line)) pl.2) blocks).

(** The line is predicted to be of the class of its block. *)
Definition agrees (x : path * nat * DetectedLine.t) : Prop :=
  DetectedLine.predicted_path x.2 = take 2 x.1.1.

(** The key a line of a block is filed under. *)
Definition key_of (parts : path) (line_id : nat) : line_key :=
  (default EmptyString (parts !! 0%nat), default EmptyString (parts !! 1%nat),
   default EmptyString (parts !! 2%nat), line_id).

(** [dict(items)] on a dictionary that keeps the order of insertion. *)
Definition ordered_dict `{EqDecision K} {V} (items : list (K * V)) : Dict.t K V :=
  foldl (λ d kv, setitem d kv.1 kv.2) [] items.

#[global] Instance agrees_dec (x : path * nat * DetectedLine.t) : Decision (agrees x).
Proof. unfold agrees. apply _. Defined.

(** What a line is filed as when it agrees with its block, and what it is
    put aside as when it does not. *)
Definition filed (x : path * nat * DetectedLine.t) : line_key * DetectedLine.t :=
  (key_of x.1.1 x.1.2, x.2).

Definition put_aside (x : path * nat * DetectedLine.t) : path * DetectedLine.t :=
  (DetectedLine.predicted_path x.2, x.2).

(** The lines detected on the page of the example: two in the text block,
    the second of which is predicted to be part of an illustration, and one
    in a cell of the table. *)
Definition detected_blocks : Dict.t path (list DetectedLine.t) :=
  [ (["regions"; "TEXT"; "1"],
     [ DetectedLine.mk ["regions"; "TEXT"] "{}";
       DetectedLine.mk ["regions"; "ILLUSTRATION"] "{}" ]);
    (["regions"; "TABULAR"; "3.0.0.0"],
     [ DetectedLine.mk ["regions"; "TABULAR"] "{}" ]) ].

(** The OCR lines that an entry of the reading order stands for: those of the
    block for a block path, the line itself for a line path. *)
Definition contribution (ocr : list (path * string)) (p : path)
  : list (path * string) :=
  if (length p =? 3)%nat then lines_under p ocr
  else match (ocr : Dict.t path string) !! p with
       | Some text => [(p, text)]
       | None => []
       end.

(** The paths are of lines of one block. *)
Definition same_block (paths : list path) : Prop :=
  ∀ p q, p ∈ paths → q ∈ paths → take 3 p = take 3 q.

(** What holds of a merged region ordered under the path [p]: it was made for
    that path, a path of three segments under ("regions", "TEXT"); it has a
    line, its lines are text lines of one block, and each is the line the
    input has under its path. *)
Definition merged_sound (lines : Dict.t path Line.t) (p : path)
    (m : MergedTextRegion.t) : Prop :=
  MergedTextRegion._block_path m = p
  ∧ take 2 p = ["regions"; "TEXT"]
  ∧ length p = 3%nat
  ∧ MergedTextRegion._lines m ≠ []
  ∧ same_block (MergedTextRegion._lines m).*1
  ∧ Forall (λ l : path * Line.t,
              take 2 l.1 = ["regions"; "TEXT"] ∧ lines !! l.1 = Some l.2)
           (MergedTextRegion._lines m).

(** The state of the reconstructor while it walks the reading order: the
    merged regions made so far are sound, and the run is of text lines of
    one block. *)
Definition homogeneous (document : Document.t region)
    (self : RegionReadingOrder.t) : Prop :=
  RegionReadingOrder._document self = document
  ∧ Forall (λ pr : path * region,
              match pr.2 with
              | Merged m =>
                  merged_sound (Input.lines_by_path (Document._input document))
                               pr.1 m
              | _ => True
              end)
           (RegionReadingOrder._ordered_regions self)
  ∧ Forall (λ p, take 2 p = ["regions"; "TEXT"])
           (RegionReadingOrder._regionless_text_lines self)
  ∧ same_block (RegionReadingOrder._regionless_text_lines self).

(** ** Line detection: the evidence for a line

    [ConfidenceSampler] of [lines.py].  The warped grid of the line, its
    scaling to the shape of the labels and the remapping of the labels are
    the work of the image libraries; they are taken together as the function
    [remap_labels], which gives the labels sampled under a line, flattened.
    Labels and the values of the classes are natural numbers. *)

Module Predictor.

Record t := mk {
  name : string;
  (** the name and the value of every class *)
  classes : list (string * nat)
}.

End Predictor.

(** How often [i] occurs among the labels. *)
Definition occurrences (i : nat) (labels : list nat) : nat :=
  length (filter (λ l, l = i) labels).

(** [np.bincount(labels, minlength=minlength)]: as many counts as the largest
    label requires, and [minlength] at least. *)
Definition bincount (labels : list nat) (minlength : nat) : list nat :=
  (λ i, occurrences i labels)
    <$> seq 0 (minlength `max` foldr (λ l n, S l `max` n) 0%nat labels).

Module ConfidenceSampler.

Record t := mk {
  _predictions : gmap string Predictor.t
}.

(** [__init__], as far as [__call__] depends on it. *)
Definition init (predictions : list Predictor.t) : t :=
  {| _predictions :=
       dict_of_items (map (λ p, (Predictor.name p, p)) predictions) |}.

Section Methods.
Context {L : Type} (remap_labels : Predictor.t → L → list nat).

(** One round of the loop over [predictor.classes]. *)
Definition add_evidence (prediction_name : string) (counts : list nat)
    (sum_all : nat) (evidence : Dict.t string Q) (k : string * nat)
  : result (Dict.t string Q) :=
  let key := prediction_name +:+ "/" +:+ k.1 in
  count ← index counts k.2;
  Ok (setitem evidence key
        (inject_Z (Z.of_nat count) / inject_Z (Z.of_nat sum_all))%Q).

(** [__call__] *)
Definition call (self : t) (p : path) (line : L) : result (Dict.t string Q) :=
  match take 2 p with
  | [prediction_name; predictor_class] =>
      predictor ← getitem (_predictions self) prediction_name;
      let labels := remap_labels predictor line in
      let counts := bincount labels (length (Predictor.classes predictor)) in
      let sum_all := sum_list counts in
      if (0 <? sum_all)%nat then
        for_each (Predictor.classes predictor)
          (add_evidence prediction_name counts sum_all) []
      else Ok []
  | _ => Raise (ValueError unpack_mismatch)
  end.

End Methods.
End ConfidenceSampler.

(** What holds of an entry of the evidence for the labels [labels] and the
    classes [classes]: it is the share of the labels that have the value of
    one of the classes, under the name of the prediction and of that class. *)
Definition evidence_of (prediction_name : string) (classes : list (string * nat))
    (labels : list nat) (kv : string * Q) : Prop :=
  (0 <= kv.2 <= 1)%Q
  ∧ ∃ name value,
      (name, value) ∈ classes
      ∧ kv.1 = prediction_name +:+ "/" +:+ name
      ∧ kv.2 = (inject_Z (Z.of_nat (occurrences value labels))
                / inject_Z (Z.of_nat (length labels)))%Q.

(** The classes of the key of an entry of the evidence are on record. *)
Definition evidence_keys (prediction_name : string)
    (classes : list (string * nat)) (evidence : Dict.t string Q) : Prop :=
  ∀ k, k ∈ classes → is_Some (evidence !! (prediction_name +:+ "/" +:+ k.1)).

(** A sampler for the page of the example: of the three labels under a
    line, two are text. *)
Definition sampler_of_the_example : ConfidenceSampler.t :=
  ConfidenceSampler.init
    [Predictor.mk "regions" [("TEXT", 0%nat); ("ILLUSTRATION", 1%nat)]].

Definition labels_of_the_example (predictor : Predictor.t) (line : DetectedLine.t)
  : list nat :=
  [0; 0; 1]%nat.

(** * Verified properties *)

(** ** The error monad *)

Lemma bind_Ok {A B} (m : result A) (f : A → result B) (b : B) :
  m ≫= f = Ok b → ∃ a, m = Ok a ∧ f a = Ok b.
Proof. destruct m as [a|e]; [by exists a | done]. Qed.

Lemma assert_Ok (b : bool) (u : ()) : assert b = Ok u → b = true.
Proof. by destruct b. Qed.

Ltac inv_bind H :=
  let a := fresh "a" in
  let Ha := fresh "Ha" in
  apply bind_Ok in H as (a & Ha & H).

Tactic Notation "bind_inv" hyp(H) "as" ident(a) ident(Ha) :=
  apply bind_Ok in H as (a & Ha & H).

Lemma for_each_app {A S} (f : S → A → result S) (l1 l2 : list A) (s : S) :
  for_each (l1 ++ l2) f s = s' ← for_each l1 f s; for_each l2 f s'.
Proof.
  revert s. induction l1 as [|x l1 IH]; intros s; [done|].
  cbn. destruct (f s x) as [s1|e]; [apply IH | done].
Qed.

Lemma for_each_Ok_Forall {A S} (f : S → A → result S) (P : A → Prop) :
  (∀ s x s', f s x = Ok s' → P x) →
  ∀ l s s', for_each l f s = Ok s' → Forall P l.
Proof.
  intros Hf l. induction l as [|x l IH]; intros s s' Hl; [constructor|].
  cbn in Hl. inv_bind Hl. constructor; eauto.
Qed.

(** An invariant of the accumulator of a loop holds at its end. *)
Lemma for_each_invariant {A S} (f : S → A → result S) (I : S → Prop) :
  (∀ s x s', I s → f s x = Ok s' → I s') →
  ∀ l s s', I s → for_each l f s = Ok s' → I s'.
Proof.
  intros Hf l. induction l as [|x l IH]; intros s s' Hs Hl.
  - by injection Hl as <-.
  - cbn in Hl. inv_bind Hl. eauto.
Qed.

Lemma for_each_invariant_from {A S} (f : S → A → result S) (I : S → Prop)
    (l : list A) (s s' : S) :
  for_each l f s = Ok s' →
  I s →
  (∀ s x s', I s → f s x = Ok s' → I s') →
  I s'.
Proof. intros Hl Hs Hf. by eapply for_each_invariant. Qed.

(** ** Python strings *)

Section StrFacts.
Import Str.

Lemma chars_of_bytes_upto (n : nat) : ∀ l : list ascii,
  (length l ≤ n)%nat →
  concat (chars_of l) = l ∧ Forall (λ c, c ≠ []) (chars_of l).
Proof.
  induction n as [|n IH]; intros l Hl.
  - destruct l; [by split|cbn in Hl; lia].
  - destruct l as [|a l1]; [by split|].
    pose proof (IH l1 ltac:(cbn in *; lia)) as [H1 N1].
    destruct l1 as [|b l2]; [split; [done|by repeat constructor]|].
    pose proof (IH l2 ltac:(cbn in *; lia)) as [H2 N2].
    destruct l2 as [|c l3].
    { cbn [chars_of] in *. destruct (_ && _); cbn [concat app] in *;
        split; by repeat constructor. }
    pose proof (IH l3 ltac:(cbn in *; lia)) as [H3 N3].
    destruct l3 as [|d l4].
    { cbn [chars_of] in *. repeat destruct (_ && _); cbn [concat app] in *;
        rewrite ?H1, ?H2, ?H3; split; by repeat constructor. }
    pose proof (IH l4 ltac:(cbn in *; lia)) as [H4 N4].
    change (chars_of (a :: b :: c :: d :: l4))
      with (if (width a =? 2)%nat && continuation b
            then [a; b] :: chars_of (c :: d :: l4)
            else if (width a =? 3)%nat && continuation b && continuation c
            then [a; b; c] :: chars_of (d :: l4)
            else if (width a =? 4)%nat && continuation b
                    && continuation c && continuation d
            then [a; b; c; d] :: chars_of l4
            else [a] :: chars_of (b :: c :: d :: l4)).
    repeat destruct (_ && _); cbn [concat app];
      rewrite ?H1, ?H2, ?H3, ?H4; split; by repeat constructor.
Qed.

(** The characters of a string are cut from its bytes, in order, and none
    is empty. *)
Lemma concat_chars (s : string) : concat (chars s) = bytes s.
Proof. by apply (chars_of_bytes_upto (length (bytes s))). Qed.

Lemma chars_nonempty (s : string) : Forall (λ c, c ≠ []) (chars s).
Proof. by apply (chars_of_bytes_upto (length (bytes s))). Qed.

Lemma lstrip_chars_cut (cs : list (list ascii)) :
  ∃ l, cs = l ++ lstrip_chars cs
       ∧ Forall (λ c, is_space c = true) l
       ∧ ∀ c, head (lstrip_chars cs) = Some c → is_space c = false.
Proof.
  induction cs as [|c cs (l & Hcs & Hl & Hhead)].
  - exists []. by repeat split.
  - cbn [lstrip_chars]. destruct (is_space c) eqn:Hc.
    + exists (c :: l). split; [by rewrite Hcs at 1|]. split; [by constructor|done].
    + exists []. split; [done|]. split; [constructor|]. by intros ? [= <-].
Qed.

Lemma lstrip_chars_nil (cs : list (list ascii)) :
  lstrip_chars cs = [] ↔ Forall (λ c, is_space c = true) cs.
Proof.
  induction cs as [|c cs IH]; cbn [lstrip_chars]; [done|].
  destruct (is_space c) eqn:Hc.
  - rewrite IH. split; [by constructor|]. by intros ?%Forall_inv_tail.
  - split; [done|]. intros Hs%Forall_inv. congruence.
Qed.

Lemma rstrip_chars_cut (cs : list (list ascii)) :
  ∃ r, cs = rstrip_chars cs ++ r
       ∧ Forall (λ c, is_space c = true) r
       ∧ ∀ c, last (rstrip_chars cs) = Some c → is_space c = false.
Proof.
  unfold rstrip_chars.
  destruct (lstrip_chars_cut (reverse cs)) as (l & Hcs & Hl & Hhead).
  exists (reverse l). split; [|split].
  - rewrite <- reverse_app, <- Hcs. by rewrite reverse_involutive.
  - by apply Forall_reverse.
  - intros c. rewrite last_reverse. apply Hhead.
Qed.

(** [strip] cuts white space, and nothing but white space, from the two ends
    of the characters. *)
Lemma strip_chars_cut (cs : list (list ascii)) :
  ∃ l r, cs = l ++ strip_chars cs ++ r
         ∧ Forall (λ c, is_space c = true) l
         ∧ Forall (λ c, is_space c = true) r
         ∧ (∀ c, head (strip_chars cs) = Some c → is_space c = false)
         ∧ (∀ c, last (strip_chars cs) = Some c → is_space c = false).
Proof.
  unfold strip_chars.
  destruct (lstrip_chars_cut cs) as (l & Hcs & Hl & Hhead).
  destruct (rstrip_chars_cut (lstrip_chars cs)) as (r & Hm & Hr & Hlast).
  exists l, r. split; [by rewrite <- Hm|]. split; [done|]. split; [done|].
  split; [|done]. intros c Hc. apply Hhead. rewrite Hm.
  by destruct (rstrip_chars (lstrip_chars cs)).
Qed.

Lemma strip_chars_nil (cs : list (list ascii)) :
  strip_chars cs = [] ↔ Forall (λ c, is_space c = true) cs.
Proof.
  destruct (strip_chars_cut cs) as (l & r & Hcs & Hl & Hr & Hhead & _).
  split.
  - intros Hnil. rewrite Hcs, Hnil. by apply Forall_app.
  - intros Hs. destruct (strip_chars cs) as [|c m] eqn:Hm; [done|].
    rewrite Hcs in Hs. apply Forall_app in Hs as [_ Hs].
    apply Forall_inv in Hs. specialize (Hhead c eq_refl). congruence.
Qed.

Lemma strip_chars_nonempty (s : string) :
  Forall (λ c, c ≠ []) (strip_chars (chars s)).
Proof.
  destruct (strip_chars_cut (chars s)) as (l & r & Hcs & _).
  pose proof (chars_nonempty s) as Hs. rewrite Hcs in Hs.
  apply Forall_app in Hs as [_ Hs]. by apply Forall_app in Hs as [Hs _].
Qed.

Lemma bytes_strip (s : string) :
  bytes (strip s) = concat (strip_chars (chars s)).
Proof. unfold bytes, strip. apply list_ascii_of_string_of_list_ascii. Qed.

(** A string strips to the empty string exactly when it is empty or of white
    space only. *)
Lemma strip_empty (s : string) : strip s = EmptyString ↔ blank s.
Proof.
  unfold blank. rewrite <- strip_chars_nil. split.
  - intros Hs. pose proof (bytes_strip s) as Hb. rewrite Hs in Hb.
    pose proof (strip_chars_nonempty s) as Hne.
    destruct (strip_chars (chars s)) as [|c m]; [done|].
    apply Forall_inv in Hne. by destruct c.
  - intros Hnil. unfold strip. by rewrite Hnil.
Qed.

End StrFacts.

(** ** Plain-text composition *)

Section PlainTextCompositionFacts.
Import PlainTextComposition.

Lemma append_text_block_separator c p t :
  _block_separator (append_text c p t) = _block_separator c.
Proof. unfold append_text. by destruct (negb _). Qed.

Lemma append_text_blank c p t :
  Str.strip t = EmptyString → append_text c p t = c.
Proof. intros H. unfold append_text. by rewrite H. Qed.

Lemma append_all_texts frags : ∀ c,
  _texts (append_all c frags)
  = _texts c ++ map (render (_block_separator c)) (pieces (_path c) (kept frags))
  ∧ _block_separator (append_all c frags) = _block_separator c.
Proof.
  induction frags as [|[p t] frags IH]; intros c.
  - cbn. destruct (_path c); cbn; by rewrite app_nil_r.
  - change (append_all c ((p, t) :: frags))
      with (append_all (append_text c p t) frags).
    destruct (IH (append_text c p t)) as [IHt IHs].
    rewrite IHt, IHs, append_text_block_separator. split; [|done].
    unfold kept. cbn [map fst snd]. rewrite filter_cons.
    unfold append_text. cbn [fst snd].
    destruct (Str.strip t) as [|a s] eqn:Hs; cbn [Str.truthy negb].
    + rewrite decide_False by done. done.
    + rewrite decide_True by done.
      set (l := filter _ _). cbn [_texts _path _block_separator].
      destruct (_path c) as [prev|] eqn:Hp.
      * cbn [pieces pieces_after]. destruct (decide (take 3 p ≠ take 3 prev)).
        -- destruct l as [|[q u] l]; cbn; rewrite <- !app_assoc; done.
        -- destruct l as [|[q u] l]; cbn; rewrite <- !app_assoc; done.
      * destruct l as [|[q u] l]; cbn; rewrite <- !app_assoc; done.
Qed.

Lemma count_sep_pieces_after l : ∀ prev,
  count_sep (pieces_after prev l) = transitions_after prev l.
Proof.
  induction l as [|[p s] l IH]; intros prev; [done|].
  cbn [pieces_after transitions_after]. unfold count_sep in *.
  destruct (decide _); cbn; rewrite ?filter_cons; cbn;
    rewrite ?decide_True, ?decide_False by done; cbn; by rewrite IH.
Qed.

Lemma last_frag_cons (xs rest : list piece) s :
  last rest ≠ Some Sep → last (xs ++ Frag s :: rest) ≠ Some Sep.
Proof.
  intros H. rewrite last_app, last_cons.
  destruct (last rest) as [[|u]|]; done.
Qed.

Lemma last_pieces_after l : ∀ prev, last (pieces_after prev l) ≠ Some Sep.
Proof.
  induction l as [|[p s] l IH]; intros prev; [done|].
  cbn [pieces_after]. apply last_frag_cons, IH.
Qed.

End PlainTextCompositionFacts.

Lemma truthy_strip (t : string) :
  Str.truthy (Str.strip t) = true ↔ ¬ Str.blank t.
Proof.
  rewrite <- strip_empty. by destruct (Str.strip t).
Qed.

Lemma kept_not_blank (frags : list (path * string)) :
  PlainTextComposition.kept frags
  = map (λ f, (f.1, Str.strip f.2)) (filter (λ f, ¬ Str.blank f.2) frags).
Proof.
  unfold PlainTextComposition.kept.
  induction frags as [|[p t] frags IH]; [done|].
  cbn [map]. rewrite !filter_cons. cbn [fst snd].
  destruct (decide (Str.truthy (Str.strip t) = true)) as [Ht|Ht];
    rewrite truthy_strip in Ht.
  - rewrite decide_True by done. cbn [map fst snd]. by rewrite IH.
  - by rewrite decide_False.
Qed.

(** C4.  A sequence of [append_text] calls on a fresh composition writes, for
    the fragments that are not blank after stripping, one entry per fragment
    and one block separator per transition between consecutive such fragments
    whose 3-segment prefixes differ; the first and the last entry are never
    a separator; a blank fragment leaves the composition (entries and last
    path) unchanged.  The fragments written are those that are neither empty
    nor of white space only, stripped; a fragment strips to the empty string
    exactly when it is empty or of white space only, so such a fragment, one
    that is a no-break space for instance, leaves the composition unchanged;
    and stripping cuts white space, and nothing else, from the two ends of
    the characters of a fragment. *)
Theorem C4_plain_text_separators (line_separator block_separator : string)
    (frags : list (path * string)) :
  let c := PlainTextComposition.append_all
             (PlainTextComposition.init line_separator block_separator) frags in
  let k := PlainTextComposition.kept frags in
  let ps := PlainTextComposition.pieces None k in
  let space := λ c, Str.is_space c = true in
  PlainTextComposition._texts c
    = map (PlainTextComposition.render block_separator) ps
  ∧ PlainTextComposition.count_sep ps = PlainTextComposition.transitions k
  ∧ length ps = (length k + PlainTextComposition.transitions k)%nat
  ∧ head ps ≠ Some PlainTextComposition.Sep
  ∧ last ps ≠ Some PlainTextComposition.Sep
  ∧ (∀ c' p t, Str.strip t = EmptyString →
       PlainTextComposition.append_text c' p t = c')
  ∧ k = map (λ f, (f.1, Str.strip f.2)) (filter (λ f, ¬ Str.blank f.2) frags)
  ∧ (∀ t, Str.strip t = EmptyString ↔ Str.blank t)
  ∧ (∀ c' p t, Str.blank t → PlainTextComposition.append_text c' p t = c')
  ∧ (∀ t, ∃ l m r,
       Str.chars t = l ++ m ++ r
       ∧ Str.bytes (Str.strip t) = concat m
       ∧ Forall space l ∧ Forall space r
       ∧ (∀ c, head m = Some c → Str.is_space c = false)
       ∧ (∀ c, last m = Some c → Str.is_space c = false))
  ∧ (∀ c' p, PlainTextComposition.append_text c' p Example.no_break_space = c').
Proof.
  cbn zeta. split; [|split; [|split; [|split; [|split; [|split]]]]].
  - destruct (append_all_texts frags
      (PlainTextComposition.init line_separator block_separator)) as [H _].
    by rewrite H.
  - destruct (PlainTextComposition.kept frags) as [|[p s] l]; [done|].
    cbn. apply count_sep_pieces_after.
  - destruct (PlainTextComposition.kept frags) as [|[p s] l]; [done|].
    cbn. f_equal. clear. revert p.
    induction l as [|[q u] l IH]; intros p; [done|].
    cbn. destruct (decide _); cbn; rewrite IH; lia.
  - by destruct (PlainTextComposition.kept frags) as [|[p s] l].
  - destruct (PlainTextComposition.kept frags) as [|[p s] l]; [done|].
    cbn [PlainTextComposition.pieces].
    apply (last_frag_cons []), last_pieces_after.
  - apply append_text_blank.
  - split; [apply kept_not_blank|]. split; [apply strip_empty|].
    split; [|split].
    + intros c' p t Ht. by apply append_text_blank, strip_empty.
    + intros t.
      destruct (strip_chars_cut (Str.chars t)) as (l & r & Hcs & Hl & Hr & Hh & Hla).
      exists l, (Str.strip_chars (Str.chars t)), r.
      split; [done|]. split; [apply bytes_strip|]. done.
    + intros c' p. apply append_text_blank. vm_compute. reflexivity.
Qed.

(** A fragment with a space and a no-break space before its text and a
    no-break space and a line feed after it is stripped to its text, the
    space inside it included. *)
Example strip_of_the_example :
  Str.strip (" " +:+ Example.no_break_space +:+ "a b"
             +:+ Example.no_break_space +:+ Str.newline) = "a b"
  ∧ Str.strip (Example.no_break_space +:+ Str.newline) = EmptyString.
Proof. split; vm_compute; reflexivity. Qed.

(** ** Looking up the region of a block path *)

Lemma Qltb_lt (c m : Q) : Qltb c m = true ↔ (c < m)%Q.
Proof.
  unfold Qltb. rewrite negb_true_iff, <- not_true_iff_false, Qle_bool_iff.
  split; [apply Qnot_le_lt | apply Qlt_not_le].
Qed.

Lemma forallb_Qltb (m : Q) (l : list Q) :
  forallb (λ c, Qltb c m) l = true ↔ Forall (λ c, (c < m)%Q) l.
Proof.
  rewrite forallb_forall, Forall_forall. split; intros Hl c Hc.
  - apply Qltb_lt, Hl. by apply list_elem_of_In.
  - apply Qltb_lt, Hl. by apply list_elem_of_In.
Qed.

(** C2.  [Document.get] returns the region created for the path if there is
    one; otherwise it returns [None] when every confidence observed under the
    path is below the minimum confidence, and raises the error that names the
    path and the confidences when some observed confidence reaches the
    minimum. *)
Theorem C2_get_region_or_none_or_error {R} (self : Document.t R) (block_path : path) :
  let min_confidence := Input.min_confidence (Document._input self) in
  let confidences := observed_confidences self block_path in
  (∀ region, Document._regions self !! block_path = Some region →
     Document.get self block_path = Ok (Some region))
  ∧ (Document._regions self !! block_path = None →
     Forall (λ c, (c < min_confidence)%Q) confidences →
     Document.get self block_path = Ok None)
  ∧ (Document._regions self !! block_path = None →
     Exists (λ c, (min_confidence <= c)%Q) confidences →
     Document.get self block_path
     = Raise (RuntimeError (no_text_found block_path confidences))).
Proof.
  cbn zeta. unfold Document.get, observed_confidences.
  split; [|split].
  - by intros region ->.
  - intros -> Hall. apply forallb_Qltb in Hall. by rewrite Hall.
  - intros -> Hex.
    destruct (forallb _ _) eqn:Hall; [|done].
    apply forallb_Qltb in Hall. apply Exists_exists in Hex as (c & Hc & Hle).
    rewrite Forall_forall in Hall. apply Hall in Hc.
    exfalso. by apply (Qlt_not_le c (Input.min_confidence (Document._input self))).
Qed.

(** ** Ingesting the OCR lines *)

Lemma split_nonempty (c : ascii) (s : string) : Str.split c s ≠ [].
Proof.
  destruct s as [|a s]; [done|]. cbn.
  destruct (decide (a = c)); [done|]. by destruct (Str.split c s).
Qed.

Lemma split_length (c : ascii) (s : string) :
  (1 <? length (Str.split c s))%nat = contains c s.
Proof.
  induction s as [|a s IH]; [done|].
  cbn [Str.split contains].
  pose proof (split_nonempty c s) as Hne.
  destruct (decide (a = c)) as [->|Hac].
  - rewrite bool_decide_eq_true_2 by done.
    by destruct (Str.split c s).
  - rewrite bool_decide_eq_false_2 by done. cbn [orb]. rewrite <- IH.
    by destruct (Str.split c s).
Qed.

Lemma add_ocr_line_misfiled `{Libraries} (self : Document.t region)
    (line_path : path) (text block_id : string) :
  line_path !! 2%nat = Some block_id →
  take 2 line_path ≠ expected_prefix block_id →
  add_ocr_line self (line_path, text) = Raise AssertionError.
Proof.
  intros Hid Hne. unfold add_ocr_line, index.
  rewrite lookup_take_lt, Hid by lia. cbn [mbind result_bind].
  rewrite split_length, take_take. change (2 `min` 3)%nat with 2%nat.
  unfold expected_prefix in Hne.
  destruct (contains "." block_id); by rewrite bool_decide_eq_false_2.
Qed.

Lemma add_ocr_line_well_filed `{Libraries} (self self' : Document.t region)
    (lt : path * string) :
  add_ocr_line self lt = Ok self' → well_filed lt.1.
Proof.
  destruct lt as [line_path text]. intros Hok. cbn [fst].
  destruct (line_path !! 2%nat) as [block_id|] eqn:Hid.
  - exists block_id. split; [done|].
    destruct (decide (take 2 line_path = expected_prefix block_id)); [done|].
    by rewrite (add_ocr_line_misfiled _ _ _ block_id) in Hok.
  - unfold add_ocr_line, index in Hok.
    destruct (decide (2 < length (take 3 line_path))%nat) as [Hlt|Hge].
    + rewrite lookup_take_lt, Hid in Hok by lia. done.
    + rewrite (lookup_ge_None_2 (take 3 line_path)) in Hok by lia. done.
Qed.

(** C10.  [Document.__init__] files every OCR line it ingests either under
    ("regions", "TABULAR"), when the block id of the line has a dotted grid
    suffix, or under ("regions", "TEXT") otherwise: ingesting a line filed
    under anything else raises the assertion error, so a document that is
    built has only well-filed lines, and the construction fails with the
    assertion error at the first line that is not, whatever follows it. *)
Theorem C10_ocr_lines_are_well_filed `{Libraries} :
  (∀ (self : Document.t region) line_path text block_id,
     line_path !! 2%nat = Some block_id →
     take 2 line_path ≠ expected_prefix block_id →
     add_ocr_line self (line_path, text) = Raise AssertionError)
  ∧ (∀ page_path input document,
     Document_init page_path input = Ok document →
     Forall (λ lt, well_filed lt.1) (Input.sorted_ocr input))
  ∧ (∀ page_path input before line_path text after self block_id,
     Input.sorted_ocr input = before ++ (line_path, text) :: after →
     for_each before add_ocr_line (Document_before_ocr page_path input) = Ok self →
     line_path !! 2%nat = Some block_id →
     take 2 line_path ≠ expected_prefix block_id →
     Document_init page_path input = Raise AssertionError).
Proof.
  split; [|split].
  - intros. by eapply add_ocr_line_misfiled.
  - intros page_path input document Hinit. unfold Document_init in Hinit.
    inv_bind Hinit.
    eapply (for_each_Ok_Forall add_ocr_line); [|exact Ha].
    intros s x s'. apply add_ocr_line_well_filed.
  - intros page_path input before line_path text after self block_id
      Hocr Hbefore Hid Hne.
    unfold Document_init. fold (Document_before_ocr page_path input).
    rewrite Hocr, for_each_app, Hbefore.
    cbn [mbind result_bind for_each].
    by rewrite (add_ocr_line_misfiled _ _ _ block_id).
Qed.

(** ** Runs of regionless lines *)

(** The outcome of the distance test is not used. *)
Lemma is_adjacent_same_block `{Libraries} (self : RegionReadingOrder.t)
    (line_path previous : path) (l0 l1 : Line.t) :
  last (RegionReadingOrder._regionless_text_lines self) = Some previous →
  take 3 previous = take 3 line_path →
  Input.lines_by_path (Document._input (RegionReadingOrder._document self))
    !! previous = Some l0 →
  Input.lines_by_path (Document._input (RegionReadingOrder._document self))
    !! line_path = Some l1 →
  RegionReadingOrder._is_adjacent self line_path = Ok true.
Proof.
  intros Hlast Hsame H0 H1. unfold RegionReadingOrder._is_adjacent, getitem.
  rewrite Hlast, bool_decide_eq_false_2 by (by intros ?).
  rewrite H0, H1. cbn. by destruct (Qltb _ _).
Qed.

Lemma is_adjacent_other_block `{Libraries} (self : RegionReadingOrder.t)
    (line_path previous : path) :
  last (RegionReadingOrder._regionless_text_lines self) = Some previous →
  take 3 previous ≠ take 3 line_path →
  RegionReadingOrder._is_adjacent self line_path = Ok false.
Proof.
  intros Hlast Hne. unfold RegionReadingOrder._is_adjacent.
  by rewrite Hlast, bool_decide_eq_true_2.
Qed.

Lemma flush_empties_run `{Libraries} (self self' : RegionReadingOrder.t) :
  RegionReadingOrder._flush_regionless_lines self = Ok self' →
  RegionReadingOrder._regionless_text_lines self' = [].
Proof.
  unfold RegionReadingOrder._flush_regionless_lines.
  destruct (RegionReadingOrder._regionless_text_lines self) as [|first rest] eqn:Hrun.
  - by intros [= <-].
  - intros Hok. inv_bind Hok. inv_bind Hok. by injection Hok as <-.
Qed.

(** C6, as the code has it.  While a run of regionless lines is being
    accumulated, a new line whose 3-segment prefix is that of the previous
    line is appended to the run, however far apart the two geometries are;
    a new line with another prefix has the run flushed first and then starts
    a new run. *)
Theorem C6_run_continues_on_same_block `{Libraries} (self : RegionReadingOrder.t)
    (line_path previous : path) :
  last (RegionReadingOrder._regionless_text_lines self) = Some previous →
  (take 3 previous = take 3 line_path →
   ∀ l0 l1,
     Input.lines_by_path (Document._input (RegionReadingOrder._document self))
       !! previous = Some l0 →
     Input.lines_by_path (Document._input (RegionReadingOrder._document self))
       !! line_path = Some l1 →
     RegionReadingOrder._add_regionless_line self line_path
     = Ok (with_run self
             (RegionReadingOrder._regionless_text_lines self ++ [line_path])))
  ∧ (take 3 previous ≠ take 3 line_path →
     RegionReadingOrder._add_regionless_line self line_path
     = (flushed ← RegionReadingOrder._flush_regionless_lines self;
        Ok (with_run flushed [line_path]))).
Proof.
  intros Hlast. split.
  - intros Hsame l0 l1 H0 H1. unfold RegionReadingOrder._add_regionless_line.
    by rewrite (is_adjacent_same_block self line_path previous l0 l1).
  - intros Hne. unfold RegionReadingOrder._add_regionless_line.
    rewrite (is_adjacent_other_block self line_path previous) by done.
    cbn [mbind result_bind negb].
    destruct (RegionReadingOrder._flush_regionless_lines self) as [flushed|e] eqn:Hf;
      [|done].
    cbn. unfold with_run. by rewrite (flush_empties_run self flushed Hf).
Qed.

(** The line at the bottom of the page follows the line at the top of the
    page in the same block: it joins the run. *)
Lemma C6_run_continues_on_same_block_witness :
  last (RegionReadingOrder._regionless_text_lines Example.accumulating)
  = Some ["regions"; "TEXT"; "1"; "0"]
  ∧ RegionReadingOrder._add_regionless_line (H := Sample.libraries)
      Example.accumulating ["regions"; "TEXT"; "1"; "1"]
    = Ok (with_run Example.accumulating
            [["regions"; "TEXT"; "1"; "0"]; ["regions"; "TEXT"; "1"; "1"]]).
Proof.
  split; [reflexivity|].
  apply (proj1 (C6_run_continues_on_same_block (H := Sample.libraries)
                  Example.accumulating ["regions"; "TEXT"; "1"; "1"]
                  ["regions"; "TEXT"; "1"; "0"] eq_refl)
           eq_refl Example.line_top Example.line_bottom eq_refl eq_refl).
Defined.

(** C6, as stated, fails: the two lines of the example share their block
    but lie 130 units apart, far beyond the threshold of 5, and still the
    second one is appended to the run of the first without a flush. *)
Lemma C6_distance_is_ignored :
  take 3 ["regions"; "TEXT"; "1"; "0"] = take 3 ["regions"; "TEXT"; "1"; "1"]
  ∧ (5 <= distance (Libraries := Sample.libraries)
            (Line.image_space_polygon Example.line_top)
            (Line.image_space_polygon Example.line_bottom))%Q
  ∧ RegionReadingOrder._add_regionless_line (H := Sample.libraries)
      Example.accumulating ["regions"; "TEXT"; "1"; "1"]
    = Ok (RegionReadingOrder.mk Example.empty_document []
            [["regions"; "TEXT"; "1"; "0"]; ["regions"; "TEXT"; "1"; "1"]] ∅).
Proof. split; [done|]. split; [by vm_compute | done]. Qed.

(** ** The length of the paths of the reading order *)

(** C7, as the code has it.  The reconstructor treats a path of length 3 as
    a block reference (the run is flushed, then the region of the block is
    appended if there is one) and a path of length 4 as a line reference (it
    must lie under ("regions", "TEXT") and joins or starts a run); a path of
    length below 3 raises the error of an illegal path.  The plain-text
    exporter skips a path its block filter rejects, whatever its length; of
    the paths it lets through, one of length 3 is exported as a block, one of
    length 4 as a line of its block, and any other length raises an
    exception: the error of an illegal path for a path of one segment, and a
    TypeError for any other, because the message of the error is formatted
    with the path itself as the list of its values. *)
Theorem C7_path_lengths `{Libraries} :
  (∀ (self : RegionReadingOrder.t) (p : path),
     length p = 3%nat →
     RegionReadingOrder.append self p
     = (flushed ← RegionReadingOrder._flush_regionless_lines self;
        region ← Document.get (RegionReadingOrder._document flushed) p;
        Ok (from_option (with_region flushed p) flushed region)))
  ∧ (∀ (self : RegionReadingOrder.t) (p : path),
     length p = 4%nat →
     RegionReadingOrder.append self p
     = (_ ← assert (bool_decide (take 2 p = ["regions"; "TEXT"]));
        RegionReadingOrder._add_regionless_line self p))
  ∧ (∀ (self : RegionReadingOrder.t) (p : path),
     (length p < 3)%nat →
     RegionReadingOrder.append self p
     = Raise (ValueError (illegal_region_line_path p)))
  ∧ (∀ (self : ComposeProcessor.t) document composition (p : path),
     passes_filter self p = false →
     ComposeProcessor.export_path self document composition p = Ok composition)
  ∧ (∀ (self : ComposeProcessor.t) document composition (p : path),
     passes_filter self p = true → length p = 3%nat →
     ComposeProcessor.export_path self document composition p
     = (region ← Document.get document p;
        from_option (λ r, export_plain_text_region r composition)
                    (Ok composition) region))
  ∧ (∀ (self : ComposeProcessor.t) document composition (p : path),
     passes_filter self p = true → length p = 4%nat →
     ComposeProcessor.export_path self document composition p
     = (region ← Document.get document (take 3 p);
        from_option (λ r, export_plain_text_line r composition p)
                    (Ok composition) region))
  ∧ (∀ (self : ComposeProcessor.t) document composition (p : path),
     passes_filter self p = true → length p ≠ 3%nat → length p ≠ 4%nat →
     ComposeProcessor.export_path self document composition p
     = Raise (match p with
              | [segment] => RuntimeError (illegal_path_in_reading_order segment)
              | _ => TypeError
              end)).
Proof.
  repeat split.
  - intros self p Hlen. unfold RegionReadingOrder.append. rewrite Hlen. cbn.
    destruct (RegionReadingOrder._flush_regionless_lines self) as [flushed|]; [|done].
    cbn. destruct (Document.get _ p) as [[region|]|]; done.
  - intros self p Hlen. unfold RegionReadingOrder.append. by rewrite Hlen.
  - intros self p Hlen. unfold RegionReadingOrder.append.
    destruct (Nat.eqb_spec (length p) 3); [lia|].
    destruct (Nat.ltb_spec 3 (length p)); [lia|done].
  - intros self document composition p Hf. unfold ComposeProcessor.export_path.
    unfold passes_filter in Hf.
    destruct (ComposeProcessor._block_filter self); [by rewrite Hf | done].
  - intros self document composition p Hf Hlen.
    unfold ComposeProcessor.export_path. unfold passes_filter in Hf.
    rewrite Hlen.
    destruct (ComposeProcessor._block_filter self); [rewrite Hf|]; cbn;
      destruct (Document.get document p) as [[region|]|]; done.
  - intros self document composition p Hf Hlen.
    unfold ComposeProcessor.export_path. unfold passes_filter in Hf.
    rewrite Hlen.
    destruct (ComposeProcessor._block_filter self); [rewrite Hf|]; cbn;
      destruct (Document.get document (take 3 p)) as [[region|]|]; done.
  - intros self document composition p Hf H3 H4.
    unfold ComposeProcessor.export_path. unfold passes_filter in Hf.
    destruct (Nat.eqb_spec (length p) 3); [done|].
    destruct (Nat.eqb_spec (length p) 4); [done|].
    destruct (ComposeProcessor._block_filter self); [rewrite Hf|]; cbn;
      by destruct p as [|segment [|]].
Qed.

(** C7, as stated, fails in both places.  On a page whose input has a line
    under a path of five segments and whose reading order names that path,
    the reconstruction of the reading order returns: the path is taken for a
    line and ends up in a merged region.  On a page whose reading order
    names a path of two segments that the block filter rejects, the plain
    text export returns the text of the page.  Neither raises. *)
Lemma C7_other_lengths_accepted :
  match Document_init (H := Sample.libraries) "page" Example.long_path_input with
  | Ok document =>
      match RegionReadingOrder.init (H := Sample.libraries) document with
      | Ok ro => Some (RegionReadingOrder.reading_order ro,
                       map lines_of (RegionReadingOrder.regions ro))
      | Raise _ => None
      end
  | Raise _ => None
  end = Some ([["regions"; "TEXT"; "1"]],
              [[["regions"; "TEXT"; "1"; "0"; "x"]]])
  ∧ match Document_init (H := Sample.libraries) "page"
            Example.short_path_input with
    | Ok document =>
        Some (Document.reading_order document,
              ComposeProcessor.export_plain_text (H := Sample.libraries)
                Example.text_only document)
    | Raise _ => None
    end = Some ([["regions"; "TEXT"; "1"]; ["regions"; "ILLUSTRATION"]],
                Ok ("Hello" +:+ Str.newline +:+ "World" +:+ Str.newline)).
Proof. split; vm_compute; reflexivity. Qed.

(** ** The regions a document keeps *)

Section DocumentRegions.
Context `{Libraries}.

Lemma rewarp_rewarp_page {R} (document : Document.t R) :
  Document.rewarp document = rewarp_page (Document.page document).
Proof. reflexivity. Qed.

Lemma add_spec {A} (class_ : Document.class region A)
    (self self' : Document.t region) (block_path : path) (a : A) :
  (∀ x, Document.downcast class_ (Document.upcast class_ x) = Some x) →
  Document._add class_ self block_path = Ok (a, self') →
  (∃ r, Document._regions self !! block_path = Some r
        ∧ Document.downcast class_ r = Some a ∧ self' = self)
  ∨ (Document._regions self !! block_path = None
     ∧ Document.construct class_ self block_path = Ok a
     ∧ self' = Document.set_region self block_path (Document.upcast class_ a)).
Proof.
  intros Hcast. unfold Document._add.
  destruct (Document._regions self !! block_path) as [r|] eqn:Hr.
  - cbn. destruct (Document.downcast class_ r) as [x|] eqn:Hx; [|done].
    intros [= <- <-]. left. by exists r.
  - destruct (Document.construct class_ self block_path) as [x|e] eqn:Hc; [|done].
    cbn. rewrite Hcast. intros [= <- <-]. by right.
Qed.

Lemma set_region_ok (self : Document.t region) (block_path : path) (r : region) :
  regions_ok self →
  region_ok (Document.page self) block_path r →
  regions_ok (Document.set_region self block_path r).
Proof.
  intros Hself Hr bp r'. unfold Document.set_region. cbn.
  destruct (decide (block_path = bp)) as [<-|Hne].
  - rewrite lookup_insert_eq. by intros [= <-].
  - rewrite lookup_insert_ne by done. apply Hself.
Qed.

Lemma set_region_input (self : Document.t region) (block_path : path) (r : region) :
  Document._input (Document.set_region self block_path r) = Document._input self.
Proof. done. Qed.

Lemma TableRegion_init_ok (document : Document.t region)
    (block_path : path) (x : TableRegion.t) :
  TableRegion.init document block_path = Ok x →
  region_ok (Document.page document) block_path (Table x).
Proof.
  unfold TableRegion.init. intros Hc.
  bind_inv Hc as bl Hbl. bind_inv Hc as blocks Hblocks. injection Hc as <-.
  split; [done|]. intros division Hd. cbn in Hd. set_solver.
Qed.

Lemma append_cell_text_ok (page : Page.t) (block_path : path)
    (x x' : TableRegion.t) grid line_path text :
  region_ok page block_path (Table x) →
  TableRegion.append_cell_text x grid line_path text = Ok x' →
  region_ok page block_path (Table x').
Proof.
  intros [Ht Hwf]. unfold TableRegion.append_cell_text. intros Hc.
  bind_inv Hc as ints Hints.
  destruct ints as [|division [|row [|column [|]]]]; try done.
  injection Hc as <-. split; [done|].
  intros d Hd. unfold TableRegion.rows.
  cbn [TableRegion._rows TableRegion._divisions] in *.
  destruct (decide (d = division)) as [->|Hne].
  - rewrite lookup_insert_eq. cbn [default from_option id].
    apply (non_empty_inhabited_L row). apply elem_of_union_r.
    by apply elem_of_singleton_2.
  - rewrite lookup_insert_ne by done. apply Hwf.
    apply elem_of_union in Hd as [Hd|Hd]; [done|].
    by apply elem_of_singleton_1 in Hd.
Qed.

Lemma TextRegion_init_ok (document : Document.t region)
    (block_path : path) (x : TextRegion.t) :
  TextRegion.init document block_path = Ok x →
  region_ok (Document.page document) block_path (Text x).
Proof.
  unfold TextRegion.init. intros Hc. bind_inv Hc as bl Hbl.
  destruct (bl.1) as [|[? block] [|]]; try done. injection Hc as <-.
  cbn. by split; [|split].
Qed.

Lemma add_ocr_line_ok (self self' : Document.t region) (lt : path * string) :
  regions_ok self →
  add_ocr_line self lt = Ok self' →
  regions_ok self' ∧ Document._input self' = Document._input self.
Proof.
  intros Hself. destruct lt as [line_path text]. unfold add_ocr_line.
  intros Hok. bind_inv Hok as segment Hsegment.
  destruct (1 <? length (Str.split "." segment))%nat.
  - bind_inv Hok as u Hu. bind_inv Hok as table_id Hid.
    bind_inv Hok as rs Hrs. destruct rs as [x doc].
    bind_inv Hok as x' Hx'. injection Hok as <-. cbn [fst snd] in *.
    apply add_spec in Hrs as [(r & Hr & Hx & ->)|(Hr & Hc & ->)]; [| |done].
    + split; [|done]. apply set_region_ok; [done|].
      apply Hself in Hr. destruct r; try done.
      cbn in Hx. injection Hx as ->. by eapply append_cell_text_ok.
    + split; [|done]. apply TableRegion_init_ok in Hc.
      apply set_region_ok; [by apply set_region_ok|].
      by eapply append_cell_text_ok.
  - bind_inv Hok as u Hu. bind_inv Hok as rs Hrs. destruct rs as [x doc].
    injection Hok as <-. cbn [fst snd] in *.
    assert (∀ page0 x0, region_ok page0 (take 3 line_path) (Text x0) →
              region_ok page0 (take 3 line_path)
                (Text (TextRegion.add_text x0 line_path text))) as Hadd.
    { intros page0 x0 (Hbp & Horder & Ht). cbn. split; [done|]. split; [|done].
      apply Forall_app. split; [done|]. by constructor. }
    apply add_spec in Hrs as [(r & Hr & Hx & ->)|(Hr & Hc & ->)]; [| |done].
    + split; [|done]. apply set_region_ok; [done|]. apply Hadd.
      apply Hself in Hr. destruct r; try done. cbn in Hx. by injection Hx as ->.
    + split; [|done]. apply TextRegion_init_ok in Hc.
      apply set_region_ok; [by apply set_region_ok|]. by apply Hadd.
Qed.

Lemma add_graphic_ok (self self' : Document.t region) (pb : path * Block.t) :
  regions_ok self →
  add_graphic self pb = Ok self' →
  regions_ok self' ∧ Document._input self' = Document._input self.
Proof.
  intros Hself. unfold add_graphic. case_bool_decide; [|by intros [= <-]].
  intros Hok. bind_inv Hok as rs Hrs. destruct rs as [x doc]. injection Hok as <-.
  apply add_spec in Hrs as [(r & Hr & Hx & ->)|(Hr & Hc & ->)]; [done| |done].
  split; [|done]. apply set_region_ok; [done|].
  cbn in Hc. unfold GraphicRegion.init in Hc. bind_inv Hc as bl Hbl.
  destruct (bl.1) as [|[? block] [|]]; try done. injection Hc as <-. reflexivity.
Qed.

(** The regions of a document that has been constructed. *)
Lemma Document_init_ok (page_path : string) (input : Input.t)
    (document : Document.t region) :
  Document_init page_path input = Ok document →
  regions_ok document ∧ Document._input document = input.
Proof.
  unfold Document_init. intros Hok. bind_inv Hok as a Ha.
  set (I := λ d : Document.t region,
              regions_ok d ∧ Document._input d = input).
  assert (I a) as Ha'.
  { eapply (for_each_invariant add_ocr_line I); [| |exact Ha].
    - intros s x s' [Hs Hin] Hx.
      destruct (add_ocr_line_ok s s' x Hs Hx) as [? ?]. split; [done|congruence].
    - split; [|done]. intros bp r. cbn. by rewrite lookup_empty. }
  eapply (for_each_invariant add_graphic I); [| |exact Hok]; [|done].
  intros s x s' [Hs Hin] Hx.
  destruct (add_graphic_ok s s' x Hs Hx) as [? ?]. split; [done|congruence].
Qed.

End DocumentRegions.

(** ** Lines without geometry in a text region *)

(** C8, as the code has it.  In the export of a text region, a held line
    whose own geometry, before the transform, is empty and whose text is not
    empty aborts the export with the error that names the line path, the
    text and the confidence; a held line with empty geometry and empty text
    is passed over: the export goes on with the lines after it and writes
    no element for it.  In a constructed document the lines a text region
    holds are those of its block, so the line path in the error names the
    block by its first three segments. *)
Theorem C8_empty_line_geometry `{Libraries} :
  (∀ (self : TextRegion.t) (px_document : pagexml_document)
     (before after : list path) (line_path : path) (line : Line.t)
     (text : string) (outline : list point) (px_lines : list px_node),
     TextRegion._order self = before ++ line_path :: after →
     exterior_coords (TextRegion._polygon self) ≫= TextRegion._transform self
       = Ok outline →
     for_each before (TextRegion.export_line self) [] = Ok px_lines →
     TextRegion._lines self !! line_path = Some line →
     is_empty (Line.image_space_polygon line) = true →
     TextRegion._line_texts self !! line_path = Some text →
     (text ≠ EmptyString →
      TextRegion.export_page_xml self px_document
      = Raise (RuntimeError
                 (empty_geometry line_path text (Line.confidence line))))
     ∧ (text = EmptyString →
        TextRegion.export_page_xml self px_document
        = (px_lines' ← for_each after (TextRegion.export_line self) px_lines;
           Ok (append_region px_document
                 (Element "TextRegion"
                    (Str.join "-" (TextRegion._block_path self))
                    (Coords outline :: px_lines'))))))
  ∧ (∀ page_path input document block_path (self : TextRegion.t),
     Document_init page_path input = Ok document →
     Document._regions document !! block_path = Some (Text self) →
     TextRegion._block_path self = block_path
     ∧ Forall (λ line_path, take 3 line_path = block_path)
              (TextRegion._order self)).
Proof.
  split.
  - intros self px_document before after line_path line text outline px_lines
      Horder Houtline Hbefore Hline Hempty Htext.
    assert (TextRegion.export_page_xml self px_document
            = (px_lines' ← (px_lines0 ← TextRegion.export_line self px_lines line_path;
                            for_each after (TextRegion.export_line self) px_lines0);
               Ok (append_region px_document
                     (Element "TextRegion"
                        (Str.join "-" (TextRegion._block_path self))
                        (Coords outline :: px_lines'))))) as ->.
    { unfold TextRegion.export_page_xml.
      destruct (exterior_coords (TextRegion._polygon self)) as [c|]; [|done].
      cbn in Houtline. cbn [mbind result_bind]. rewrite Houtline.
      rewrite Horder, for_each_app, Hbefore. done. }
    assert (TextRegion.export_line self px_lines line_path
            = if Str.truthy text
              then Raise (RuntimeError
                            (empty_geometry line_path text (Line.confidence line)))
              else Ok px_lines) as ->.
    { unfold TextRegion.export_line, getitem.
      rewrite Hline. cbn [mbind result_bind]. by rewrite Hempty, Htext. }
    split.
    + intros Hne. by destruct text.
    + by intros ->.
  - intros page_path input document block_path self Hinit Hr.
    apply Document_init_ok in Hinit as [Hok _]. apply Hok in Hr.
    by destruct Hr as (? & ? & _).
Qed.

(** A line without geometry that has a text stops the export of its
    region. *)
Lemma C8_empty_line_geometry_witness :
  TextRegion.export_page_xml (Example.holding Example.line_empty "Lost")
    Example.empty_pagexml
  = Raise (RuntimeError
             (empty_geometry ["regions"; "TEXT"; "1"; "0"] "Lost" (9 # 10))).
Proof.
  refine (proj1 (proj1 (C8_empty_line_geometry (H := Sample.libraries))
                   (Example.holding Example.line_empty "Lost")
                   Example.empty_pagexml [] [] ["regions"; "TEXT"; "1"; "0"]
                   Example.line_empty "Lost"
                   [(60, 5); (60, 170); (5, 170); (5, 5); (60, 5)]%Q []
                   eq_refl _ eq_refl eq_refl eq_refl eq_refl) _).
  - vm_compute. reflexivity.
  - discriminate.
Defined.

(** C8, as stated, fails: the line outside of the page has a geometry that
    the transform clips to nothing, and a text, and yet the export of its
    region goes through and writes the line with no coordinates. *)
Lemma C8_clipped_line_is_exported :
  (exterior_coords (Line.image_space_polygon Example.line_outside)
     ≫= Document.rewarp (H := Sample.libraries) Example.empty_document)
  = Ok []
  ∧ TextRegion.export_page_xml (Example.holding Example.line_outside "Lost")
      Example.empty_pagexml
    = Ok (mk_px [] [Element "TextRegion" "regions-TEXT-1"
                      [Coords [(60, 5); (60, 170); (5, 170); (5, 5); (60, 5)]%Q;
                       Element "TextLine" "regions-TEXT-1-0"
                         [Coords []; TextEquiv "Lost"]]] []).
Proof. split; vm_compute; reflexivity. Qed.

(** ** Merged regions and their indices *)

Lemma py_int_str (n : Z) : py_int (py_str n) = Ok n.
Proof.
  unfold py_int, py_str. rewrite NilZero.isi.
  - by rewrite DecimalZ.of_to.
  - destruct n as [|p|p]; cbn; try done.
    intros [= Hp]. by apply (DecimalPos.Unsigned.to_uint_nonnil p).
  - destruct n as [|p|p]; cbn; try done.
    intros [= Hp]. by apply (DecimalPos.Unsigned.to_uint_nonnil p).
Qed.

Section MergedRegions.
Context `{Libraries}.

Lemma map_result_lookup (lines : Dict.t path Line.t) (run : list path) :
  (∀ p, p ∈ run → is_Some (lines !! p)) →
  ∃ merged_lines,
    map_result (λ p, l ← getitem lines p; Ok (p, l)) run = Ok merged_lines
    ∧ Forall2 (λ p pl, pl.1 = p ∧ lines !! p = Some pl.2) run merged_lines.
Proof.
  induction run as [|p run IH]; intros Hall.
  - exists []. by split; [|constructor].
  - destruct (Hall p) as [l Hl]; [by left|].
    destruct IH as (ml & Hml & HF); [intros q Hq; apply Hall; by right|].
    exists ((p, l) :: ml). split.
    + assert (getitem lines p = Ok l) as Hg by (unfold getitem; by rewrite Hl).
      cbn [map_result]. rewrite Hg. cbn [mbind result_bind]. by rewrite Hml.
    + by constructor.
Qed.

Lemma flush_run (self : RegionReadingOrder.t) (first : path) (rest : list path) :
  RegionReadingOrder._regionless_text_lines self = first :: rest →
  Forall (λ p, take 2 p = take 2 first) rest →
  (∀ p, p ∈ first :: rest →
        is_Some (Input.lines_by_path
                   (Document._input (RegionReadingOrder._document self)) !! p)) →
  let base := take 2 first in
  let n := (RegionReadingOrder.region_index
              (RegionReadingOrder._region_indices self) base + 1)%Z in
  ∃ merged_lines,
    Forall2 (λ p pl, pl.1 = p
                     ∧ Input.lines_by_path
                         (Document._input (RegionReadingOrder._document self))
                       !! p = Some pl.2)
            (first :: rest) merged_lines
    ∧ RegionReadingOrder._flush_regionless_lines self
      = Ok (RegionReadingOrder.mk (RegionReadingOrder._document self)
              (RegionReadingOrder._ordered_regions self
                 ++ [(base ++ [py_str n],
                      Merged (MergedTextRegion.init
                                (RegionReadingOrder._document self)
                                (base ++ [py_str n]) merged_lines))])
              []
              (<[base := n]> (RegionReadingOrder._region_indices self))).
Proof.
  intros Hrun Hbase Hlines base n.
  destruct (map_result_lookup _ _ Hlines) as (merged_lines & Hml & HF).
  exists merged_lines. split; [done|].
  unfold RegionReadingOrder._flush_regionless_lines. rewrite Hrun.
  assert (forallb (λ p, bool_decide (take 2 p = take 2 first)) (first :: rest)
          = true) as ->.
  { apply forallb_forall. intros p Hp. apply bool_decide_eq_true_2.
    apply list_elem_of_In in Hp. apply elem_of_cons in Hp as [->|Hp]; [done|].
    by eapply Forall_forall in Hbase. }
  cbn [assert mbind result_bind]. by rewrite Hml.
Qed.

End MergedRegions.

Section ReadingOrderIndices.
Context `{Libraries}.

Lemma region_index_insert (m : gmap path Z) (base base' : path) (n : Z) :
  RegionReadingOrder.region_index (<[base := n]> m) base'
  = if bool_decide (base = base') then n
    else RegionReadingOrder.region_index m base'.
Proof.
  unfold RegionReadingOrder.region_index. case_bool_decide as Hb.
  - subst. by rewrite lookup_insert_eq.
  - by rewrite lookup_insert_ne.
Qed.

Lemma observe_loop (paths : list path) : ∀ (m0 m : gmap path Z),
  for_each paths RegionReadingOrder.observe_index m0 = Ok m →
  ∀ base, RegionReadingOrder.region_index m base
          = foldl (observe base) (RegionReadingOrder.region_index m0 base) paths.
Proof.
  induction paths as [|p paths IH]; intros m0 m Hloop base.
  - by injection Hloop as <-.
  - cbn in Hloop. bind_inv Hloop as m1 Hm1.
    rewrite (IH m1 m Hloop base). cbn [foldl]. f_equal.
    unfold RegionReadingOrder.observe_index in Hm1.
    bind_inv Hm1 as segment Hsegment. bind_inv Hm1 as n Hn.
    injection Hm1 as <-. rewrite region_index_insert.
    unfold observe, path_index. rewrite Hsegment. cbn [mbind result_bind].
    rewrite Hn. by case_bool_decide; subst.
Qed.

Lemma observed_max (paths : list path) (m : gmap path Z) (base : path) :
  for_each paths RegionReadingOrder.observe_index ∅ = Ok m →
  RegionReadingOrder.region_index m base = max_index base paths.
Proof. intros Hloop. by rewrite (observe_loop paths ∅ m Hloop base). Qed.

Lemma foldl_observe_le (base : path) (paths : list path) : ∀ acc,
  (acc ≤ foldl (observe base) acc paths)%Z.
Proof.
  induction paths as [|p paths IH]; intros acc; [done|].
  cbn [foldl]. etrans; [|apply IH]. unfold observe.
  case_bool_decide; [|done]. destruct (path_index p); lia.
Qed.

Lemma max_index_ge (base : path) (paths : list path) (p : path) (n : Z) :
  p ∈ paths → take 2 p = base → path_index p = Ok n →
  (n ≤ max_index base paths)%Z.
Proof.
  unfold max_index. generalize 0%Z. intros acc Hp Hbase Hn. revert acc.
  induction Hp as [p paths|p q paths Hp IH]; intros acc; cbn [foldl].
  - etrans; [|apply foldl_observe_le]. unfold observe.
    rewrite bool_decide_eq_true_2, Hn by done. lia.
  - by apply IH.
Qed.

Lemma max_index_nonneg (base : path) (paths : list path) :
  (0 ≤ max_index base paths)%Z.
Proof. apply foldl_observe_le. Qed.

Lemma merged_paths_app (l1 l2 : list (path * region)) :
  merged_paths (l1 ++ l2) = merged_paths l1 ++ merged_paths l2.
Proof. unfold merged_paths. by rewrite filter_app, fmap_app. Qed.

Lemma flush_walking (document : Document.t region) (b : Z)
    (self self' : RegionReadingOrder.t) :
  walking document b self →
  RegionReadingOrder._flush_regionless_lines self = Ok self' →
  walking document b self'
  ∧ RegionReadingOrder._regionless_text_lines self' = [].
Proof.
  intros (Hdoc & Hrun & k & Hmerged & Hindex).
  unfold RegionReadingOrder._flush_regionless_lines.
  destruct (RegionReadingOrder._regionless_text_lines self)
    as [|first rest] eqn:Hlines.
  - intros [= <-]. split; [|done]. split; [done|]. split; [by rewrite Hlines|].
    by exists k.
  - intros Hok. bind_inv Hok as u Hu. bind_inv Hok as merged_lines Hml.
    injection Hok as <-. split; [|done].
    apply Forall_cons in Hrun as [Hfirst _]. rewrite Hfirst.
    split; [done|]. split; [done|]. exists (S k).
    cbn [RegionReadingOrder._ordered_regions RegionReadingOrder._region_indices].
    rewrite merged_paths_app, Hmerged, seq_S, map_app, region_index_insert.
    rewrite bool_decide_eq_true_2 by done. rewrite Hindex. split.
    + f_equal. unfold merged_path. cbn [map].
      replace (b + Z.of_nat (1 + k))%Z with (b + Z.of_nat k + 1)%Z by lia.
      reflexivity.
    + lia.
Qed.

Lemma append_walking (document : Document.t region) (b : Z)
    (self self' : RegionReadingOrder.t) (p : path) :
  regions_ok document →
  walking document b self →
  RegionReadingOrder.append self p = Ok self' →
  walking document b self'.
Proof.
  intros Hdocument Hself. unfold RegionReadingOrder.append.
  destruct (length p =? 3)%nat.
  - intros Hok. bind_inv Hok as flushed Hflushed.
    apply (flush_walking document b) in Hflushed as [Hw Hrun]; [|done].
    bind_inv Hok as region Hregion.
    destruct region as [region|]; [|by injection Hok as <-].
    injection Hok as <-.
    destruct Hw as (Hdoc & Hlines & k & Hmerged & Hindex).
    split; [done|]. split; [done|]. exists k. split; [|done].
    cbn [RegionReadingOrder._ordered_regions].
    rewrite merged_paths_app, Hmerged.
    assert (is_merged region = false) as Hnot.
    { unfold Document.get in Hregion. rewrite Hdoc in Hregion.
      destruct (Document._regions document !! p) as [r|] eqn:Hr.
      - injection Hregion as ->. apply Hdocument in Hr. by destruct region.
      - by destruct (forallb _ _). }
    assert (merged_paths [(p, region)] = []) as ->; [|by rewrite app_nil_r].
    unfold merged_paths. rewrite filter_cons, decide_False; [done|].
    cbn. by rewrite Hnot.
  - destruct (3 <? length p)%nat; [|done].
    intros Hok. bind_inv Hok as u Hu. apply assert_Ok, bool_decide_eq_true_1 in Hu.
    unfold RegionReadingOrder._add_regionless_line in Hok.
    bind_inv Hok as adjacent Hadjacent. bind_inv Hok as kept Hkept.
    injection Hok as <-.
    assert (walking document b kept) as (Hdoc & Hlines & k & Hmerged & Hindex).
    { destruct adjacent; cbn in Hkept.
      - by injection Hkept as <-.
      - by apply (flush_walking document b) in Hkept as [Hw _]. }
    split; [done|]. split; [|by exists k].
    apply Forall_app. split; [done|]. by constructor.
Qed.

End ReadingOrderIndices.

Lemma elem_of_paths {R} (document : Document.t R) (q : path) :
  q ∈ Document.paths document ↔ is_Some (Document._regions document !! q).
Proof.
  unfold Document.paths.
  by rewrite merge_sort_Permutation, elem_of_elements, elem_of_dom.
Qed.

Lemma foldl_observe_attained (base : path) (paths : list path) : ∀ acc,
  foldl (observe base) acc paths = acc
  ∨ ∃ p, p ∈ paths ∧ take 2 p = base
         ∧ path_index p = Ok (foldl (observe base) acc paths).
Proof.
  induction paths as [|p paths IH]; intros acc; [by left|].
  cbn [foldl]. destruct (IH (observe base acc p)) as [Heq|(q & Hq & Hbase & Hn)].
  - rewrite Heq. unfold observe. case_bool_decide as Hbase; [|by left].
    destruct (path_index p) as [n|] eqn:Hn; [|by left].
    destruct (Z.max_spec acc n) as [[_ ->]|[_ ->]]; [|by left].
    right. exists p. split; [apply list_elem_of_here|done].
  - right. exists q. split; [by apply list_elem_of_further|done].
Qed.

Lemma max_index_attained (base : path) (paths : list path) :
  max_index base paths = 0%Z
  ∨ ∃ p, p ∈ paths ∧ take 2 p = base
         ∧ path_index p = Ok (max_index base paths).
Proof. apply foldl_observe_attained. Qed.

Lemma merged_path_inj : Inj (=) (=) merged_path.
Proof.
  intros n m [= Hnm]. pose proof (py_int_str n) as Hn.
  rewrite Hnm, py_int_str in Hn. by injection Hn.
Qed.

(** C5.  A flush of a run of regionless lines that are all in the line table
    appends exactly one merged region, which holds the lines of the run in
    their order, under the path of the run's namespace and class with the
    index on record for them plus one, and puts that index on record.  Over a
    page the index on record starts at the largest index of the regions of
    the document under ("regions", "TEXT"): no such region has a larger
    index, and it is the index of one of them, or 0.  The merged regions
    carry the indices that follow it, one after the other: they differ from
    one another, and the document has no region under the path of any of
    them. *)
Theorem C5_flush_allocates_fresh_index `{Libraries} :
  (∀ (self : RegionReadingOrder.t) (first : path) (rest : list path),
     RegionReadingOrder._regionless_text_lines self = first :: rest →
     Forall (λ p, take 2 p = take 2 first) rest →
     (∀ p, p ∈ first :: rest →
        is_Some (Input.lines_by_path
                   (Document._input (RegionReadingOrder._document self)) !! p)) →
     let base := take 2 first in
     let n := (RegionReadingOrder.region_index
                 (RegionReadingOrder._region_indices self) base + 1)%Z in
     ∃ merged_lines,
       Forall2 (λ p pl, pl.1 = p
                        ∧ Input.lines_by_path
                            (Document._input (RegionReadingOrder._document self))
                          !! p = Some pl.2)
               (first :: rest) merged_lines
       ∧ RegionReadingOrder._flush_regionless_lines self
         = Ok (RegionReadingOrder.mk (RegionReadingOrder._document self)
                 (RegionReadingOrder._ordered_regions self
                    ++ [(base ++ [py_str n],
                         Merged (MergedTextRegion.init
                                   (RegionReadingOrder._document self)
                                   (base ++ [py_str n]) merged_lines))])
                 []
                 (<[base := n]> (RegionReadingOrder._region_indices self))))
  ∧ (∀ page_path input document (ro : RegionReadingOrder.t),
     Document_init page_path input = Ok document →
     RegionReadingOrder.init document = Ok ro →
     let b := max_index ["regions"; "TEXT"] (Document.paths document) in
     let merged := merged_paths (RegionReadingOrder._ordered_regions ro) in
     (∃ k : nat,
        merged = map (λ i : nat, merged_path (b + Z.of_nat i)) (seq 1 k))
     ∧ NoDup merged
     ∧ (∀ q, q ∈ merged → q ∉ Document.paths document)
     ∧ (∀ q, q ∈ merged → Document._regions document !! q = None)
     ∧ (∀ p n, is_Some (Document._regions document !! p) →
               take 2 p = ["regions"; "TEXT"] → path_index p = Ok n →
               (n ≤ b)%Z)
     ∧ (b = 0%Z
        ∨ ∃ p, is_Some (Document._regions document !! p)
               ∧ take 2 p = ["regions"; "TEXT"] ∧ path_index p = Ok b)).
Proof.
  split; [apply flush_run|].
  intros page_path input document ro Hdocument Hro b merged.
  apply Document_init_ok in Hdocument as [Hregions _].
  unfold RegionReadingOrder.init in Hro.
  bind_inv Hro as region_indices Hindices. bind_inv Hro as walked Hwalked.
  apply (observed_max _ _ ["regions"; "TEXT"]) in Hindices. fold b in Hindices.
  assert (walking document b ro) as (_ & _ & k & Hmerged & _).
  { apply (flush_walking document b walked); [|done].
    eapply (for_each_invariant RegionReadingOrder.append (walking document b));
      [| |exact Hwalked].
    - intros s x s'. by apply append_walking.
    - split; [done|]. split; [done|]. exists 0%nat. split; [done|].
      cbn. rewrite Hindices. lia. }
  fold merged in Hmerged. split; [by exists k|]. rewrite Hmerged.
  assert (∀ q, q ∈ map (λ i : nat, merged_path (b + Z.of_nat i)) (seq 1 k) →
               q ∉ Document.paths document) as Hfresh.
  { intros q Hq Hin. apply list_elem_of_fmap in Hq as (i & -> & Hi).
    apply elem_of_seq in Hi.
    assert (b + Z.of_nat i ≤ b)%Z; [|lia].
    apply (max_index_ge _ _ (merged_path (b + Z.of_nat i))); [done..|].
    unfold path_index, merged_path. cbn. apply py_int_str. }
  split; [|split; [done|split; [|split]]].
  - apply NoDup_fmap_2_strong; [|apply NoDup_seq].
    intros i j _ _ Hij. apply merged_path_inj in Hij. lia.
  - intros q Hq. apply Hfresh in Hq. rewrite elem_of_paths in Hq.
    by apply eq_None_not_Some.
  - intros p n Hp Hbase Hn. apply (max_index_ge _ _ p); [|done..].
    by apply elem_of_paths.
  - destruct (max_index_attained ["regions"; "TEXT"] (Document.paths document))
      as [H0|(p & Hp & Hbase & Hn)]; [by left|].
    right. exists p. split; [by apply elem_of_paths|done].
Qed.

(** ** Tables as plain text *)

Section TableText.
Context `{Libraries}.

Lemma sorted_Permutation (s : gset Z) : sorted s ≡ₚ elements s.
Proof. apply merge_sort_Permutation. Qed.

Lemma sorted_length (s : gset Z) : length (sorted s) = size s.
Proof. by rewrite sorted_Permutation. Qed.

Lemma elem_of_sorted (s : gset Z) (x : Z) : x ∈ sorted s ↔ x ∈ s.
Proof. by rewrite sorted_Permutation, elem_of_elements. Qed.

Lemma sorted_singleton (x : Z) : sorted {[x]} = [x].
Proof. unfold sorted. by rewrite elements_singleton. Qed.

Lemma table_data_length (self : TableRegion.t) :
  length (TableRegion.table_data self) = sum_list (TableRegion.n_rows self).
Proof.
  unfold TableRegion.table_data, TableRegion.n_rows.
  induction (sorted (TableRegion._divisions self)) as [|d ds IH]; [done|].
  cbn [map concat sum_list sum_list_with]. rewrite length_app, length_map, IH.
  done.
Qed.

Lemma n_rows_positive (self : TableRegion.t) :
  table_wf self → Forall (λ n, 1 ≤ n)%nat (TableRegion.n_rows self).
Proof.
  intros Hwf. unfold TableRegion.n_rows. apply Forall_forall. intros n Hn.
  apply list_elem_of_fmap in Hn as (d & -> & Hd). apply elem_of_sorted in Hd.
  rewrite sorted_length.
  pose proof (proj2 (size_non_empty_iff (TableRegion.rows self d))) as Hs.
  assert (size (TableRegion.rows self d) ≠ 0)%nat; [|lia].
  apply Hs. intros He. apply (Hwf d Hd). by apply leibniz_equiv.
Qed.

(** The test of [to_text] for a header says that the first division has one
    row and that the table has more rows. *)
Lemma header_test (self : TableRegion.t) :
  table_wf self →
  (2 <=? length (TableRegion.n_rows self))%nat
    && bool_decide (TableRegion.n_rows self !! 0%nat = Some 1%nat) = true
  ↔ first_row_is_header self.
Proof.
  intros Hwf. pose proof (n_rows_positive self Hwf) as Hpos.
  unfold first_row_is_header. rewrite table_data_length.
  rewrite andb_true_iff, bool_decide_eq_true, Nat.leb_le.
  assert (TableRegion.n_rows self !! 0%nat = Some 1%nat
          ↔ ∃ division, head (sorted (TableRegion._divisions self)) = Some division
                        ∧ size (TableRegion.rows self division) = 1%nat) as ->.
  { unfold TableRegion.n_rows.
    destruct (sorted (TableRegion._divisions self)) as [|d ds]; cbn.
    - split; [done|]. by intros (? & ? & ?).
    - rewrite sorted_length. split.
      + intros [= Hd]. by exists d.
      + by intros (? & [= <-] & ->). }
  split.
  - intros [Hlen Hfirst]. split; [done|].
    destruct (TableRegion.n_rows self) as [|n0 [|n1 ns]]; cbn in *; try lia.
    apply Forall_cons in Hpos as [? Hpos]. apply Forall_cons in Hpos as [? _]. lia.
  - intros [(d & Hd & Hsize) Hsum]. split; [|by exists d].
    unfold TableRegion.n_rows in *.
    destruct (sorted (TableRegion._divisions self)) as [|d0 [|d1 ds]];
      cbn in *; try lia.
    injection Hd as ->. rewrite sorted_length in Hsum. lia.
Qed.

Lemma to_text_single_column (self : TableRegion.t) (column : Z) :
  TableRegion._columns self = {[column]} →
  TableRegion.to_text self = Str.join Str.newline (cells_in_order self column).
Proof.
  intros Hc. unfold TableRegion.to_text, TableRegion.table_data, cells_in_order.
  rewrite Hc, sorted_singleton. cbn [length Nat.eqb map]. f_equal.
  induction (sorted (TableRegion._divisions self)) as [|d ds IH]; [done|].
  cbn [map concat]. rewrite map_app, IH. f_equal.
  by induction (sorted (TableRegion.rows self d)) as [|r rs IHr]; [|cbn; f_equal].
Qed.

Lemma to_text_multi_column (self : TableRegion.t) :
  table_wf self →
  (2 ≤ size (TableRegion._columns self))%nat →
  (first_row_is_header self →
   TableRegion.to_text self = tabulate (TableRegion.table_data self) firstrow)
  ∧ (¬ first_row_is_header self →
     TableRegion.to_text self = tabulate (TableRegion.table_data self) no_headers).
Proof.
  intros Hwf Hsize. unfold TableRegion.to_text. rewrite sorted_length.
  destruct (Nat.eqb_spec (size (TableRegion._columns self)) 1); [lia|].
  pose proof (header_test self Hwf) as Ht.
  destruct (_ && _); split; intros Hh; try done.
  - exfalso. apply Hh, Ht. done.
  - apply Ht in Hh. done.
Qed.

End TableText.

(** C9.  For a table region in which every division has a row, as every
    table region of a constructed document is: with exactly one column, its
    plain text is the texts of its cells joined by line feeds; with two or
    more columns, it is the formatted table, whose first row is the header
    exactly when the first division has a single row and the table has
    further rows. *)
Theorem C9_table_to_text `{Libraries} :
  (∀ self : TableRegion.t,
     table_wf self →
     (∀ column, TableRegion._columns self = {[column]} →
        TableRegion.to_text self
        = Str.join Str.newline (cells_in_order self column))
     ∧ ((2 ≤ size (TableRegion._columns self))%nat →
        (first_row_is_header self →
         TableRegion.to_text self
         = tabulate (TableRegion.table_data self) firstrow)
        ∧ (¬ first_row_is_header self →
           TableRegion.to_text self
           = tabulate (TableRegion.table_data self) no_headers)))
  ∧ (∀ page_path input document block_path (self : TableRegion.t),
     Document_init page_path input = Ok document →
     Document._regions document !! block_path = Some (Table self) →
     table_wf self).
Proof.
  split.
  - intros self Hwf. split.
    + apply to_text_single_column.
    + by apply to_text_multi_column.
  - intros page_path input document block_path self Hdocument Hself.
    apply Document_init_ok in Hdocument as [Hok _].
    by apply Hok in Hself as [_ Hwf].
Qed.

Lemma example_table_wf : table_wf Example.table.
Proof.
  intros division Hd.
  apply elem_of_union in Hd as [Hd|Hd]; apply elem_of_singleton_1 in Hd;
    subst division; vm_compute; discriminate.
Qed.

(** The table of the example has two columns and a header row. *)
Lemma C9_table_to_text_witness :
  (2 ≤ size (TableRegion._columns Example.table))%nat
  ∧ first_row_is_header Example.table
  ∧ TableRegion.to_text (H := Sample.libraries) Example.table
    = tabulate (Libraries := Sample.libraries)
        (TableRegion.table_data Example.table) firstrow.
Proof.
  assert (2 ≤ size (TableRegion._columns Example.table))%nat as Hsize
    by (vm_compute; lia).
  assert (first_row_is_header Example.table) as Hheader.
  { split; [exists 0%Z; split; vm_compute; reflexivity | vm_compute; lia]. }
  split; [exact Hsize|]. split; [exact Hheader|].
  exact (proj1 (proj2 (proj1 (C9_table_to_text (H := Sample.libraries))
                         Example.table example_table_wf)
                  Hsize) Hheader).
Defined.

(** ** The export of a table *)

(** A loop that, round by round, either leaves its two lists alone or adds
    one element to each. *)
Lemma for_each_collect {A N S}
    (f : list N * list S → A → result (list N * list S))
    (P : N → Prop) (R : A → Prop) (l : list A) :
  (∀ acc x acc', x ∈ l → f acc x = Ok acc' →
     (acc' = acc ∧ ¬ R x)
     ∨ (∃ n s, acc' = (acc.1 ++ [n], acc.2 ++ [s]) ∧ P n ∧ R x)) →
  ∀ acc acc', for_each l f acc = Ok acc' →
    ∃ ns ss, acc' = (acc.1 ++ ns, acc.2 ++ ss)
             ∧ length ns = length ss
             ∧ Forall P ns
             ∧ (ss = [] → ∀ x, x ∈ l → ¬ R x)
             ∧ (ss ≠ [] → ∃ x, x ∈ l ∧ R x).
Proof.
  induction l as [|x l IH]; intros Hf acc acc' Hl.
  - injection Hl as <-. exists [], []. rewrite !app_nil_r.
    destruct acc. repeat split; try done. intros _ x Hx. by apply elem_of_nil in Hx.
  - cbn in Hl. bind_inv Hl as acc1 Hx.
    destruct (IH (λ acc x' acc' Hx', Hf acc x' acc' (list_elem_of_further _ _ _ Hx'))
                 _ _ Hl)
      as (ns & ss & -> & Hlen & HP & Hnone & Hsome).
    destruct (Hf _ _ _ (list_elem_of_here _ _) Hx)
      as [[-> HR]|(n & s & -> & Hn & HR)].
    + exists ns, ss. repeat split; try done.
      * intros Hss y Hy. apply elem_of_cons in Hy as [->|Hy]; [done|].
        by apply Hnone.
      * intros Hss. destruct (Hsome Hss) as (y & Hy & HRy).
        exists y. split; [by right|done].
    + exists (n :: ns), (s :: ss). cbn [fst snd]. rewrite <- !app_assoc.
      repeat split; try done.
      * cbn. by rewrite Hlen.
      * by constructor.
      * intros _. exists x. split; [by left|done].
Qed.

Section TableExport.
Context `{Libraries}.

Lemma export_text_lines (self : TableRegion.t) (texts : list (path * string)) :
  ∀ px_lines px_lines',
    Forall emitted_line px_lines →
    for_each texts (TableRegion.export_text_line self) px_lines = Ok px_lines' →
    Forall emitted_line px_lines'.
Proof.
  induction texts as [|[line_path text] texts IH]; intros px_lines px_lines' Hl Hok.
  - by injection Hok as <-.
  - cbn [for_each] in Hok. bind_inv Hok as px_lines1 H1.
    apply (IH px_lines1); [|done].
    unfold TableRegion.export_text_line in H1.
    bind_inv H1 as line Hline. bind_inv H1 as c0 Hc0. bind_inv H1 as c1 Hc1.
    injection H1 as <-. apply Forall_app. split; [done|].
    constructor; [|done]. by eexists _, _, _.
Qed.

Lemma export_cell_step (self : TableRegion.t) (division_id : string)
    (column division row : Z) (acc acc' : list px_node * list geometry) :
  row ∈ TableRegion.rows self division →
  TableRegion.export_cell self division_id column division acc row = Ok acc' →
  (acc' = acc ∧ ¬ renderable self column division row)
  ∨ (∃ n s, acc' = (acc.1 ++ [n], acc.2 ++ [s])
            ∧ emitted_cell self column division n
            ∧ renderable self column division row).
Proof.
  intros Hrow. unfold TableRegion.export_cell.
  destruct (TableRegion._blocks self !! (column, division, row))
    as [block|] eqn:Hblock.
  - destruct (is_empty (Block.image_space_polygon block)) eqn:Hempty.
    + intros [= <-]. left. split; [done|].
      intros (b & Hb & Hne). congruence.
    + intros Hok. bind_inv Hok as c0 Hc0. bind_inv Hok as c1 Hc1.
      bind_inv Hok as px_lines Hlines. injection Hok as <-.
      assert (renderable self column division row) as Hr by by exists block.
      right. eexists _, _. split; [done|]. split; [|done].
      exists row. eexists _, _, _. split; [done|]. split; [|done].
      by apply (export_text_lines _ _ _ _ (Forall_nil_2 _) Hlines).
  - intros [= <-]. left. split; [done|]. intros (b & Hb & _). congruence.
Qed.

Lemma export_cells (self : TableRegion.t) (division_id : string)
    (column division : Z) (cells : list px_node * list geometry) :
  for_each (sorted (TableRegion.rows self division))
    (TableRegion.export_cell self division_id column division) ([], [])
  = Ok cells →
  length cells.1 = length cells.2
  ∧ Forall (emitted_cell self column division) cells.1
  ∧ (cells.2 = [] → ¬ renderable_division self column division)
  ∧ (cells.2 ≠ [] → renderable_division self column division).
Proof.
  intros Hok.
  eapply (for_each_collect _ (emitted_cell self column division)
            (renderable self column division)) in Hok
    as (ns & ss & -> & Hlen & HP & Hnone & Hsome).
  - cbn [fst snd]. split; [done|]. split; [done|]. split.
    + intros Hss (row & Hrow & Hr). apply (Hnone Hss row); [|done].
      by apply elem_of_sorted.
    + intros Hss. destruct (Hsome Hss) as (row & Hrow & Hr).
      exists row. split; [by apply elem_of_sorted|done].
  - intros acc row acc' Hrow. apply export_cell_step. by apply elem_of_sorted.
Qed.

Lemma export_division_step (self : TableRegion.t) (column_id : string)
    (column division : Z) (acc acc' : list px_node * list geometry) :
  TableRegion.export_division self column_id column acc division = Ok acc' →
  (acc' = acc ∧ ¬ renderable_division self column division)
  ∨ (∃ n s, acc' = (acc.1 ++ [n], acc.2 ++ [s])
            ∧ emitted_division self column n
            ∧ renderable_division self column division).
Proof.
  unfold TableRegion.export_division. intros Hok. bind_inv Hok as cells Hcells.
  apply export_cells in Hcells as (Hlen & Hcell & Hnone & Hsome).
  destruct (cells.2) as [|shape shapes] eqn:Hshapes.
  - injection Hok as <-. left. split; [done|]. by apply Hnone.
  - bind_inv Hok as c0 Hc0. bind_inv Hok as c1 Hc1. injection Hok as <-.
    right. eexists _, _. split; [done|]. split; [|by apply Hsome].
    exists division. eexists _, _, _. split; [done|]. split; [|done].
    intros Hnil. by rewrite Hnil in Hlen.
Qed.

Lemma export_divisions (self : TableRegion.t) (column_id : string)
    (column : Z) (divs : list px_node * list geometry) :
  for_each (sorted (TableRegion._divisions self))
    (TableRegion.export_division self column_id column) ([], [])
  = Ok divs →
  length divs.1 = length divs.2
  ∧ Forall (emitted_division self column) divs.1
  ∧ (divs.2 = [] → ¬ renderable_column self column)
  ∧ (divs.2 ≠ [] → renderable_column self column).
Proof.
  intros Hok.
  eapply (for_each_collect _ (emitted_division self column)
            (renderable_division self column)) in Hok
    as (ns & ss & -> & Hlen & HP & Hnone & Hsome).
  - cbn [fst snd]. split; [done|]. split; [done|]. split.
    + intros Hss (division & Hd & Hr). apply (Hnone Hss division); [|done].
      by apply elem_of_sorted.
    + intros Hss. destruct (Hsome Hss) as (division & Hd & Hr).
      exists division. split; [by apply elem_of_sorted|done].
  - intros acc division acc' _. apply export_division_step.
Qed.

Lemma export_column_step (self : TableRegion.t) (table_id : string)
    (column : Z) (acc acc' : list px_node * list geometry) :
  TableRegion.export_column self table_id
    (sorted (TableRegion._divisions self)) acc column = Ok acc' →
  (acc' = acc ∧ ¬ renderable_column self column)
  ∨ (∃ n s, acc' = (acc.1 ++ [n], acc.2 ++ [s])
            ∧ emitted_column self n
            ∧ renderable_column self column).
Proof.
  unfold TableRegion.export_column. intros Hok. bind_inv Hok as divs Hdivs.
  apply export_divisions in Hdivs as (Hlen & Hdiv & Hnone & Hsome).
  destruct (divs.2) as [|shape shapes] eqn:Hshapes.
  - injection Hok as <-. left. split; [done|]. by apply Hnone.
  - bind_inv Hok as c0 Hc0. bind_inv Hok as c1 Hc1. injection Hok as <-.
    right. eexists _, _. split; [done|]. split; [|by apply Hsome].
    exists column. eexists _, _, _. split; [done|]. split; [|done].
    intros Hnil. by rewrite Hnil in Hlen.
Qed.

Lemma export_columns (self : TableRegion.t) (table_id : string)
    (cols : list px_node * list geometry) :
  for_each (sorted (TableRegion._columns self))
    (TableRegion.export_column self table_id
       (sorted (TableRegion._divisions self))) ([], [])
  = Ok cols →
  length cols.1 = length cols.2
  ∧ Forall (emitted_column self) cols.1
  ∧ (cols.2 = [] → ¬ renderable_table self)
  ∧ (cols.2 ≠ [] → renderable_table self).
Proof.
  intros Hok.
  eapply (for_each_collect _ (emitted_column self)
            (renderable_column self)) in Hok
    as (ns & ss & -> & Hlen & HP & Hnone & Hsome).
  - cbn [fst snd]. split; [done|]. split; [done|]. split.
    + intros Hss (column & Hc & Hr). apply (Hnone Hss column); [|done].
      by apply elem_of_sorted.
    + intros Hss. destruct (Hsome Hss) as (column & Hc & Hr).
      exists column. split; [by apply elem_of_sorted|done].
  - intros acc column acc' _. apply export_column_step.
Qed.

End TableExport.

(** C3.  The export of a table region, when it goes through, either appends
    the table element, in which every column has at least one division, every
    division at least one cell, and every cell is that of a block that exists
    and has a geometry, the table having at least one column; or, when no
    column of the table can be rendered, leaves the regions of the document
    as they were and logs the warning that the table was empty. *)
Theorem C3_table_pruning `{Libraries} (self : TableRegion.t)
    (px_document px_document' : pagexml_document) :
  TableRegion.export_page_xml self px_document = Ok px_document' →
  (renderable_table self
   ∧ ∃ table, emitted_table self table
              ∧ px_document' = append_region px_document table)
  ∨ (¬ renderable_table self
     ∧ px_regions px_document' = px_regions px_document
     ∧ px_document'
       = log_warning px_document
           (TableRegion._block_path self, TableRegion._document_page_path self)).
Proof.
  unfold TableRegion.export_page_xml. intros Hok. bind_inv Hok as cols Hcols.
  apply export_columns in Hcols as (Hlen & Hcol & Hnone & Hsome).
  destruct (cols.2) as [|shape shapes] eqn:Hshapes.
  - injection Hok as <-. right. split; [by apply Hnone|done].
  - bind_inv Hok as c0 Hc0. bind_inv Hok as c1 Hc1. injection Hok as <-.
    left. split; [by apply Hsome|]. eexists. split; [|done].
    eexists _, _. split; [done|]. split; [|done].
    intros Hnil. by rewrite Hnil in Hlen.
Qed.

(** The table of the example is exported with its columns. *)
Lemma C3_table_pruning_witness :
  renderable_table Example.table
  ∧ ∃ table px_document',
      TableRegion.export_page_xml (H := Sample.libraries) Example.table
        Example.empty_pagexml = Ok px_document'
      ∧ emitted_table Example.table table
      ∧ px_document' = append_region Example.empty_pagexml table.
Proof.
  assert (renderable_table Example.table) as Hr.
  { exists 0%Z. split; [by vm_compute|]. exists 0%Z. split; [by vm_compute|].
    exists 0%Z. split; [by vm_compute|]. eexists. by split; vm_compute. }
  split; [exact Hr|].
  destruct (TableRegion.export_page_xml (H := Sample.libraries) Example.table
              Example.empty_pagexml) as [px_document'|e] eqn:Hexport;
    [|by vm_compute in Hexport].
  destruct (C3_table_pruning (H := Sample.libraries) Example.table
              Example.empty_pagexml px_document' Hexport)
    as [(_ & table & Htable & Hpx)|(Hno & _)].
  - exists table, px_document'. exact (conj eq_refl (conj Htable Hpx)).
  - destruct (Hno Hr).
Defined.

(** ** Coordinates on the page *)

Lemma coords_within_element (page : Page.t) (tag id_ : string)
    (children : list px_node) :
  coords_within page (Element tag id_ children)
  ↔ Forall (coords_within page) children.
Proof.
  cbn [coords_within]. induction children as [|n children IH].
  - split; [by constructor|done].
  - rewrite Forall_cons, <- IH. done.
Qed.

Section Coordinates.
Context `{Libraries}.

Lemma rewarp_bounded {R} (document : Document.t R) :
  intersection_within_box →
  bounded (Document.page document) (Document.rewarp document).
Proof.
  intros Hbox coords coords'. unfold Document.rewarp, within.
  destruct (Page.size (Document.page document)) as [width height].
  destruct (intersection _ _) as [exterior|] eqn:Hi; [|done].
  intros [= <-]. by apply Hbox in Hi.
Qed.

Lemma line_within (page : Page.t) (tag id_ text : string) (coords : list point) :
  Forall (within page) coords →
  coords_within page (Element tag id_ [Coords coords; TextEquiv text]).
Proof. intros Hc. apply coords_within_element. by repeat constructor. Qed.

Lemma element_within (page : Page.t) (tag id_ : string) (coords : list point)
    (children : list px_node) :
  Forall (within page) coords →
  Forall (coords_within page) children →
  coords_within page (Element tag id_ (Coords coords :: children)).
Proof. intros Hc Hch. apply coords_within_element. by constructor. Qed.

Lemma TextRegion_export_within (page : Page.t) (self : TextRegion.t)
    (px_document px_document' : pagexml_document) :
  bounded page (TextRegion._transform self) →
  Forall (coords_within page) (px_regions px_document) →
  TextRegion.export_page_xml self px_document = Ok px_document' →
  Forall (coords_within page) (px_regions px_document').
Proof.
  intros HT Hpx. unfold TextRegion.export_page_xml. intros Hok.
  bind_inv Hok as c0 Hc0. bind_inv Hok as c1 Hc1. bind_inv Hok as px_lines Hlines.
  injection Hok as <-. cbn. apply Forall_app. split; [done|].
  constructor; [|done]. apply element_within; [by eapply HT|].
  eapply (for_each_invariant (TextRegion.export_line self)
            (Forall (coords_within page))); [|by apply Forall_nil_2|exact Hlines].
  intros acc line_path acc' Hacc. unfold TextRegion.export_line.
  intros Hstep. bind_inv Hstep as line Hline.
  destruct (is_empty (Line.image_space_polygon line)).
  - bind_inv Hstep as text Htext. destruct (Str.truthy text); [done|].
    by injection Hstep as <-.
  - bind_inv Hstep as d0 Hd0. bind_inv Hstep as d1 Hd1.
    bind_inv Hstep as text Htext. injection Hstep as <-.
    apply Forall_app. split; [done|]. constructor; [|done].
    apply line_within. by eapply HT.
Qed.

Lemma GraphicRegion_export_within (page : Page.t) (self : GraphicRegion.t)
    (px_document px_document' : pagexml_document) :
  bounded page (GraphicRegion._transform self) →
  Forall (coords_within page) (px_regions px_document) →
  GraphicRegion.export_page_xml self px_document = Ok px_document' →
  Forall (coords_within page) (px_regions px_document').
Proof.
  intros HT Hpx. unfold GraphicRegion.export_page_xml. intros Hok.
  bind_inv Hok as c0 Hc0. bind_inv Hok as c1 Hc1. injection Hok as <-.
  cbn. apply Forall_app. split; [done|]. constructor; [|done].
  apply element_within; [by eapply HT|done].
Qed.

Lemma MergedTextRegion_export_within (page : Page.t) (self : MergedTextRegion.t)
    (document_line_text : path → result string)
    (px_document px_document' : pagexml_document) :
  bounded page (MergedTextRegion._transform self) →
  Forall (coords_within page) (px_regions px_document) →
  MergedTextRegion.export_page_xml self document_line_text px_document
  = Ok px_document' →
  Forall (coords_within page) (px_regions px_document').
Proof.
  intros HT Hpx. unfold MergedTextRegion.export_page_xml. intros Hok.
  bind_inv Hok as c0 Hc0. bind_inv Hok as c1 Hc1. bind_inv Hok as px_lines Hlines.
  injection Hok as <-. cbn. apply Forall_app. split; [done|].
  constructor; [|done]. apply element_within; [by eapply HT|].
  eapply (for_each_invariant (MergedTextRegion.export_line self document_line_text)
            (Forall (coords_within page))); [|by apply Forall_nil_2|exact Hlines].
  intros acc [i [line_path line]] acc' Hacc. unfold MergedTextRegion.export_line.
  intros Hstep. bind_inv Hstep as text Htext.
  bind_inv Hstep as d0 Hd0. bind_inv Hstep as d1 Hd1. injection Hstep as <-.
  apply Forall_app. split; [done|]. constructor; [|done].
  apply line_within. by eapply HT.
Qed.

Lemma TableRegion_export_within (page : Page.t) (self : TableRegion.t)
    (px_document px_document' : pagexml_document) :
  bounded page (TableRegion._transform self) →
  Forall (coords_within page) (px_regions px_document) →
  TableRegion.export_page_xml self px_document = Ok px_document' →
  Forall (coords_within page) (px_regions px_document').
Proof.
  intros HT Hpx.
  set (I := λ acc : list px_node * list geometry,
              Forall (coords_within page) acc.1).
  assert (∀ acc lt acc', Forall (coords_within page) acc →
            TableRegion.export_text_line self acc lt = Ok acc' →
            Forall (coords_within page) acc') as Hline.
  { intros acc [line_path text] acc' Hacc. unfold TableRegion.export_text_line.
    intros Hstep. bind_inv Hstep as line Hl.
    bind_inv Hstep as d0 Hd0. bind_inv Hstep as d1 Hd1. injection Hstep as <-.
    apply Forall_app. split; [done|]. constructor; [|done].
    apply line_within. by eapply HT. }
  assert (∀ division_id column division acc row acc', I acc →
            TableRegion.export_cell self division_id column division acc row
            = Ok acc' → I acc') as Hcell.
  { intros division_id column division acc row acc' Hacc.
    unfold TableRegion.export_cell.
    destruct (TableRegion._blocks self !! _) as [block|]; [|by intros [= <-]].
    destruct (is_empty _); [by intros [= <-]|].
    intros Hstep. bind_inv Hstep as d0 Hd0. bind_inv Hstep as d1 Hd1.
    bind_inv Hstep as px_lines Hlines. injection Hstep as <-.
    unfold I. cbn [fst]. apply Forall_app. split; [done|]. constructor; [|done].
    apply element_within; [by eapply HT|].
    eapply (for_each_invariant (TableRegion.export_text_line self)
              (Forall (coords_within page))); [|by apply Forall_nil_2|exact Hlines].
    intros s x s'. apply Hline. }
  assert (∀ column_id column acc division acc', I acc →
            TableRegion.export_division self column_id column acc division
            = Ok acc' → I acc') as Hdivision.
  { intros column_id column acc division acc' Hacc.
    unfold TableRegion.export_division. intros Hstep.
    bind_inv Hstep as cells Hcells.
    assert (I cells) as Hc.
    { apply (for_each_invariant_from _ I _ _ _ Hcells); [exact (Forall_nil_2 _)|].
      intros s x s'. apply Hcell. }
    destruct (cells.2); [by injection Hstep as <-|].
    bind_inv Hstep as d0 Hd0. bind_inv Hstep as d1 Hd1. injection Hstep as <-.
    unfold I. cbn [fst]. apply Forall_app. split; [done|]. constructor; [|done].
    apply element_within; [by eapply HT|done]. }
  assert (∀ table_id divisions acc column acc', I acc →
            TableRegion.export_column self table_id divisions acc column
            = Ok acc' → I acc') as Hcolumn.
  { intros table_id divisions acc column acc' Hacc.
    unfold TableRegion.export_column. intros Hstep.
    bind_inv Hstep as divs Hdivs.
    assert (I divs) as Hd.
    { apply (for_each_invariant_from _ I _ _ _ Hdivs); [exact (Forall_nil_2 _)|].
      intros s x s'. apply Hdivision. }
    destruct (divs.2); [by injection Hstep as <-|].
    bind_inv Hstep as d0 Hd0. bind_inv Hstep as d1 Hd1. injection Hstep as <-.
    unfold I. cbn [fst]. apply Forall_app. split; [done|]. constructor; [|done].
    apply element_within; [by eapply HT|done]. }
  unfold TableRegion.export_page_xml. intros Hok. bind_inv Hok as cols Hcols.
  assert (I cols) as Hc.
  { apply (for_each_invariant_from _ I _ _ _ Hcols); [exact (Forall_nil_2 _)|].
    intros s x s'. apply Hcolumn. }
  destruct (cols.2); [by injection Hok as <-|].
  bind_inv Hok as d0 Hd0. bind_inv Hok as d1 Hd1. injection Hok as <-.
  cbn. apply Forall_app. split; [done|]. constructor; [|done].
  apply element_within; [by eapply HT|done].
Qed.

End Coordinates.

Lemma for_each_invariant_in {A S} (f : S → A → result S) (I : S → Prop)
    (l : list A) :
  (∀ s x s', x ∈ l → I s → f s x = Ok s' → I s') →
  ∀ s s', I s → for_each l f s = Ok s' → I s'.
Proof.
  induction l as [|x l IH]; intros Hf s s' Hs Hl.
  - by injection Hl as <-.
  - cbn in Hl. bind_inv Hl as s1 Hx.
    apply (IH (λ s x' s' Hx', Hf s x' s' (list_elem_of_further _ _ _ Hx')) s1);
      [|done].
    by apply (Hf s x s1 (list_elem_of_here _ _)).
Qed.

Section EmittedCoordinates.
Context `{Libraries}.
Hypothesis Hbox : intersection_within_box.

Lemma region_ok_bounded (page : Page.t) (block_path : path) (r : region) :
  region_ok page block_path r → bounded page (transform_of r).
Proof.
  pose proof (rewarp_bounded (R := region)
                (Document.mk EmptyString (Input.mk page [] [] 0 [] []) ∅ ∅ ∅)
                Hbox) as Hb.
  destruct r as [x|x|x|x]; cbn.
  - intros (_ & _ & ->). exact Hb.
  - intros (-> & _). exact Hb.
  - intros ->. exact Hb.
  - done.
Qed.

Lemma flush_bounded (document : Document.t region)
    (self self' : RegionReadingOrder.t) :
  ordered_bounded document self →
  RegionReadingOrder._flush_regionless_lines self = Ok self' →
  ordered_bounded document self'.
Proof.
  intros [Hdoc Hall]. unfold RegionReadingOrder._flush_regionless_lines.
  destruct (RegionReadingOrder._regionless_text_lines self) as [|first rest].
  - by intros [= <-].
  - intros Hok. bind_inv Hok as u Hu. bind_inv Hok as merged_lines Hml.
    injection Hok as <-. split; [done|]. cbn.
    apply Forall_app. split; [done|]. constructor; [|done].
    cbn. rewrite Hdoc. by apply rewarp_bounded.
Qed.

Lemma append_bounded (document : Document.t region)
    (self self' : RegionReadingOrder.t) (p : path) :
  regions_ok document →
  ordered_bounded document self →
  RegionReadingOrder.append self p = Ok self' →
  ordered_bounded document self'.
Proof.
  intros Hdocument Hself. unfold RegionReadingOrder.append.
  destruct (length p =? 3)%nat.
  - intros Hok. bind_inv Hok as flushed Hflushed.
    apply (flush_bounded document) in Hflushed as [Hdoc Hall]; [|done].
    bind_inv Hok as region Hregion.
    destruct region as [region|]; [|by injection Hok as <-].
    injection Hok as <-. split; [done|]. cbn.
    apply Forall_app. split; [done|]. constructor; [|done]. cbn.
    unfold Document.get in Hregion. rewrite Hdoc in Hregion.
    destruct (Document._regions document !! p) as [r|] eqn:Hr.
    + injection Hregion as ->. apply Hdocument in Hr.
      by eapply region_ok_bounded.
    + by destruct (forallb _ _).
  - destruct (3 <? length p)%nat; [|done].
    intros Hok. bind_inv Hok as u Hu.
    unfold RegionReadingOrder._add_regionless_line in Hok.
    bind_inv Hok as adjacent Hadjacent. bind_inv Hok as kept Hkept.
    injection Hok as <-.
    assert (ordered_bounded document kept) as [Hdoc Hall].
    { destruct adjacent; cbn in Hkept.
      - by injection Hkept as <-.
      - by apply (flush_bounded document) in Hkept. }
    by split.
Qed.

Lemma init_bounded (document : Document.t region) (ro : RegionReadingOrder.t) :
  regions_ok document →
  RegionReadingOrder.init document = Ok ro →
  ordered_bounded document ro.
Proof.
  intros Hdocument. unfold RegionReadingOrder.init. intros Hro.
  bind_inv Hro as region_indices Hindices. bind_inv Hro as walked Hwalked.
  apply (flush_bounded document walked); [|done].
  apply (for_each_invariant_from _ (ordered_bounded document) _ _ _ Hwalked).
  - by split.
  - intros s x s'. by apply append_bounded.
Qed.

Lemma export_within (document : Document.t region) (r : region)
    (px_document px_document' : pagexml_document) :
  bounded (Document.page document) (transform_of r) →
  Forall (coords_within (Document.page document)) (px_regions px_document) →
  export_page_xml document r px_document = Ok px_document' →
  Forall (coords_within (Document.page document)) (px_regions px_document').
Proof.
  destruct r as [x|x|x|x]; cbn [transform_of export_page_xml].
  - apply TextRegion_export_within.
  - apply TableRegion_export_within.
  - apply GraphicRegion_export_within.
  - apply MergedTextRegion_export_within.
Qed.

Lemma export_page_xml_within (self : ComposeProcessor.t) (page_path : string)
    (document : Document.t region) (px_document : pagexml_document) :
  regions_ok document →
  ComposeProcessor.export_page_xml self page_path document = Ok px_document →
  Forall (coords_within (Document.page document)) (px_regions px_document).
Proof.
  intros Hdocument. unfold ComposeProcessor.export_page_xml. intros Hok.
  bind_inv Hok as ro Hro. apply (init_bounded document ro Hdocument) in Hro as [_ Hall].
  eapply (for_each_invariant_in _
            (λ px, Forall (coords_within (Document.page document)) (px_regions px)));
    [| |exact Hok]; [|exact (Forall_nil_2 _)].
  intros px r px' Hr Hpx Hexport. cbn beta in Hexport.
  apply (export_within document r px px'); [|done..].
  unfold RegionReadingOrder.regions in Hr.
  apply list_elem_of_fmap in Hr as (pr & -> & Hpr).
  by eapply Forall_forall in Hall.
Qed.

End EmittedCoordinates.

(** ** The sample clipping stays in the rectangle *)

Section Clipping.
Import Sample.
Local Open Scope Q_scope.

(** The ratio at which a segment crosses a line between its end points. *)
Lemma crossing_ratio (a b c : Q) :
  ~ a == b →
  (a <= c ∧ c <= b) ∨ (b <= c ∧ c <= a) →
  0 <= (c - a) / (b - a) ∧ (c - a) / (b - a) <= 1.
Proof.
  intros Hab Hc.
  assert (~ b - a == 0) as Hd by (intros Hd; apply Hab; lra).
  pose proof (Qmult_div_r (c - a) (b - a) Hd) as Ht.
  set (t := (c - a) / (b - a)) in *.
  assert (0 < b - a ∨ b - a < 0) as Hsign.
  { destruct (Qlt_le_dec 0 (b - a)); [by left|]. right.
    destruct (Qlt_le_dec (b - a) 0); [done|]. exfalso. apply Hd. lra. }
  split.
  - destruct (Qlt_le_dec t 0) as [Hneg|]; [|done]. exfalso.
    destruct Hsign; nra.
  - destruct (Qlt_le_dec 1 t) as [Hbig|]; [|done]. exfalso.
    destruct Hsign; nra.
Qed.

Lemma Qle_bool_lower_differ (c x y : Q) :
  Qle_bool c x ≠ Qle_bool c y →
  ~ x == y ∧ ((x <= c ∧ c <= y) ∨ (y <= c ∧ c <= x)).
Proof.
  destruct (Qle_bool c x) eqn:Hx; destruct (Qle_bool c y) eqn:Hy; try done;
    intros _.
  - apply Qle_bool_iff in Hx.
    assert (~ c <= y) as Hy' by (rewrite <- Qle_bool_iff; congruence).
    apply Qnot_le_lt in Hy'. split; [intros He; lra|]. right. split; lra.
  - apply Qle_bool_iff in Hy.
    assert (~ c <= x) as Hx' by (rewrite <- Qle_bool_iff; congruence).
    apply Qnot_le_lt in Hx'. split; [intros He; lra|]. left. split; lra.
Qed.

Lemma Qle_bool_upper_differ (c x y : Q) :
  Qle_bool x c ≠ Qle_bool y c →
  ~ x == y ∧ ((x <= c ∧ c <= y) ∨ (y <= c ∧ c <= x)).
Proof.
  destruct (Qle_bool x c) eqn:Hx; destruct (Qle_bool y c) eqn:Hy; try done;
    intros _.
  - apply Qle_bool_iff in Hx.
    assert (~ y <= c) as Hy' by (rewrite <- Qle_bool_iff; congruence).
    apply Qnot_le_lt in Hy'. split; [intros He; lra|]. left. split; lra.
  - apply Qle_bool_iff in Hy.
    assert (~ x <= c) as Hx' by (rewrite <- Qle_bool_iff; congruence).
    apply Qnot_le_lt in Hx'. split; [intros He; lra|]. right. split; lra.
Qed.

Lemma between (lo hi a b t : Q) :
  lo <= a → a <= hi → lo <= b → b <= hi → 0 <= t → t <= 1 →
  lo <= a + (b - a) * t ∧ a + (b - a) * t <= hi.
Proof. intros. split; nra. Qed.

Local Close Scope Q_scope.

Lemma clip_from_elem (inside : point → bool) (cross : point → point → point)
    (ring : list point) : ∀ (previous v : point),
  v ∈ clip_from inside cross previous ring →
  (v ∈ ring ∧ inside v = true)
  ∨ ∃ p q, p ∈ previous :: ring ∧ q ∈ ring
           ∧ inside p ≠ inside q ∧ v = cross p q.
Proof.
  induction ring as [|current ring IH]; intros previous v Hv.
  - by apply elem_of_nil in Hv.
  - cbn [clip_from] in Hv. apply elem_of_app in Hv as [Hv|Hv].
    + destruct (inside current) eqn:Hc; destruct (inside previous) eqn:Hp;
        cbn in Hv.
      * apply list_elem_of_singleton in Hv as ->. left. split; [by left|done].
      * apply elem_of_cons in Hv as [->|Hv].
        -- right. exists previous, current.
           split; [by left|]. split; [by left|]. split; [congruence|done].
        -- apply list_elem_of_singleton in Hv as ->. left. split; [by left|done].
      * apply list_elem_of_singleton in Hv as ->.
        right. exists previous, current.
        split; [by left|]. split; [by left|]. split; [congruence|done].
      * by apply elem_of_nil in Hv.
    + destruct (IH current v Hv) as [[Hin Hi]|(p & q & Hp & Hq & Hne & ->)].
      * left. split; [by right|done].
      * right. exists p, q. split; [by right|]. split; [by right|done].
Qed.

Lemma clip_elem (inside : point → bool) (cross : point → point → point)
    (ring : list point) (v : point) :
  v ∈ clip inside cross ring →
  (v ∈ ring ∧ inside v = true)
  ∨ ∃ p q, p ∈ ring ∧ q ∈ ring ∧ inside p ≠ inside q ∧ v = cross p q.
Proof.
  unfold clip. destruct (last ring) as [previous|] eqn:Hlast.
  - intros Hv. apply clip_from_elem in Hv as [?|(p & q & Hp & Hq & Hne & ->)];
      [by left|].
    right. exists p, q. split; [|done].
    apply elem_of_cons in Hp as [->|Hp]; [|done].
    by apply last_Some_elem_of.
  - intros Hv. by apply elem_of_nil in Hv.
Qed.

(** What holds of the vertices of a ring and of the crossing points of two
    of them on either side of the edge, holds of the vertices of the clipped
    ring. *)
Lemma clip_Forall (P : point → Prop) (inside : point → bool)
    (cross : point → point → point) (ring : list point) :
  Forall P ring →
  (∀ p q, P p → P q → inside p ≠ inside q → P (cross p q)) →
  Forall P (clip inside cross ring).
Proof.
  intros Hring Hcross. apply Forall_forall. intros v Hv.
  rewrite Forall_forall in Hring.
  apply clip_elem in Hv as [[Hv _]|(p & q & Hp & Hq & Hne & ->)]; auto.
Qed.

(** What holds of the vertices on the inner side of the edge and of all
    crossing points, holds of the vertices of the clipped ring. *)
Lemma clip_Forall_inside (P : point → Prop) (inside : point → bool)
    (cross : point → point → point) (ring : list point) :
  (∀ v, inside v = true → P v) →
  (∀ p q, P (cross p q)) →
  Forall P (clip inside cross ring).
Proof.
  intros Hinside Hcross. apply Forall_forall. intros v Hv.
  apply clip_elem in Hv as [[_ Hv]|(p & q & Hp & Hq & Hne & ->)]; auto.
Qed.

Lemma clip_rectangle_within (minx miny maxx maxy : Q) (ring : list point) :
  Forall (λ p : point,
            (minx <= p.1 ∧ p.1 <= maxx ∧ miny <= p.2 ∧ p.2 <= maxy)%Q)
         (clip_rectangle minx miny maxx maxy ring).
Proof.
  unfold clip_rectangle.
  set (r1 := clip (λ p, Qle_bool minx p.1) (cross_x minx) ring).
  set (r2 := clip (λ p, Qle_bool p.1 maxx) (cross_x maxx) r1).
  set (r3 := clip (λ p, Qle_bool miny p.2) (cross_y miny) r2).
  assert (Forall (λ p : point, (minx <= p.1)%Q) r1) as H1.
  { apply clip_Forall_inside.
    - intros v Hv. by apply Qle_bool_iff.
    - intros p q. cbn. apply Qle_refl. }
  assert (Forall (λ p : point, (minx <= p.1 ∧ p.1 <= maxx)%Q) r2) as H2.
  { apply Forall_and. split.
    - apply clip_Forall; [done|]. intros p q Hp Hq Hne. cbn.
      apply Qle_bool_upper_differ in Hne as [_ [[? ?]|[? ?]]]; lra.
    - apply clip_Forall_inside.
      + intros v Hv. by apply Qle_bool_iff.
      + intros p q. cbn. apply Qle_refl. }
  assert (Forall (λ p : point,
                    ((minx <= p.1 ∧ p.1 <= maxx) ∧ miny <= p.2)%Q) r3) as H3.
  { apply Forall_and. split.
    - apply clip_Forall; [done|]. intros p q [? ?] [? ?] Hne. cbn.
      apply Qle_bool_lower_differ in Hne as [Hpq Hc].
      destruct (crossing_ratio _ _ _ Hpq Hc). by apply between.
    - apply clip_Forall_inside.
      + intros v Hv. by apply Qle_bool_iff.
      + intros p q. cbn. apply Qle_refl. }
  assert (Forall (λ p : point,
                    (((minx <= p.1 ∧ p.1 <= maxx) ∧ miny <= p.2)
                     ∧ p.2 <= maxy)%Q)
                 (clip (λ p, Qle_bool p.2 maxy) (cross_y maxy) r3)) as H4.
  { apply Forall_and. split.
    - apply clip_Forall; [done|]. intros p q [[? ?] ?] [[? ?] ?] Hne. cbn.
      apply Qle_bool_upper_differ in Hne as [Hpq Hc].
      destruct (crossing_ratio _ _ _ Hpq Hc).
      split; [by apply between|]. destruct Hc as [[? ?]|[? ?]]; lra.
    - apply clip_Forall_inside.
      + intros v Hv. by apply Qle_bool_iff.
      + intros p q. cbn. apply Qle_refl. }
  eapply Forall_impl; [exact H4|]. cbn. intros p Hp. tauto.
Qed.

(** The sample intersection keeps what the program needs of the
    intersection with a rectangle. *)
Lemma sample_intersection_within_box :
  intersection_within_box (H := Sample.libraries).
Proof.
  intros g width height exterior. cbn. unfold intersect.
  destruct g as [ring|]; [|done]. cbn. intros [= <-].
  pose proof (clip_rectangle_within 0 0 width height (open_ring ring)) as Hc.
  unfold close_ring. destruct (clip_rectangle _ _ _ _ _) as [|p l]; [done|].
  apply Forall_app. split; [done|].
  apply Forall_cons in Hc as [Hp _]. by constructor.
Qed.

End Clipping.

(** C1.  The transform of a document applies the inverse of the dewarping
    grid to the coordinates it is given and intersects the polygon they form
    with the box from the origin to the size of the page; and, the
    intersection with a box lying in the box, every coordinate in the
    structured output of a constructed document is at least 0 and at most
    the corresponding dimension of the page. *)
Theorem C1_emitted_coordinates_on_page `{Libraries} :
  intersection_within_box →
  (∀ (document : Document.t region) (coords : list point),
     Document.rewarp document coords
     = exterior_coords
         (intersection
            (Polygon (Page.grid_inverse (Document.page document) coords))
            (box 0 0 (Page.size (Document.page document)).1
                     (Page.size (Document.page document)).2)))
  ∧ (∀ (document : Document.t region) (coords coords' : list point),
     Document.rewarp document coords = Ok coords' →
     Forall (within (Document.page document)) coords')
  ∧ (∀ (self : ComposeProcessor.t) (page_path : string) (input : Input.t)
       (document : Document.t region) (px_document : pagexml_document),
     Document_init page_path input = Ok document →
     ComposeProcessor.export_page_xml self page_path document = Ok px_document →
     Forall (coords_within (Document.page document)) (px_regions px_document)).
Proof.
  intros Hbox. split; [|split].
  - intros document coords. unfold Document.rewarp.
    by destruct (Page.size (Document.page document)).
  - intros document. by apply rewarp_bounded.
  - intros self page_path input document px_document Hdocument Hexport.
    apply Document_init_ok in Hdocument as [Hok _].
    by eapply export_page_xml_within.
Qed.

(** With the sample clipping, the structured output of the example page is
    produced and has all its coordinates on the page. *)
Lemma C1_emitted_coordinates_on_page_witness :
  intersection_within_box (H := Sample.libraries)
  ∧ is_ok (document ← Document_init (H := Sample.libraries) "page" Example.input;
           ComposeProcessor.export_page_xml (H := Sample.libraries)
             Example.text_only "page" document) = true
  ∧ match Document_init (H := Sample.libraries) "page" Example.input with
    | Ok document =>
        match ComposeProcessor.export_page_xml (H := Sample.libraries)
                Example.text_only "page" document with
        | Ok px_document =>
            Forall (coords_within (Document.page document))
                   (px_regions px_document)
        | Raise _ => True
        end
    | Raise _ => True
    end.
Proof.
  split; [exact sample_intersection_within_box|].
  split; [vm_compute; reflexivity|].
  destruct (Document_init (H := Sample.libraries) "page" Example.input)
    as [document|] eqn:Hdocument; [|exact I].
  destruct (ComposeProcessor.export_page_xml (H := Sample.libraries)
              Example.text_only "page" document)
    as [px_document|] eqn:Hexport; [|exact I].
  exact (proj2 (proj2 (C1_emitted_coordinates_on_page (H := Sample.libraries)
                         sample_intersection_within_box))
           Example.text_only "page" Example.input document px_document
           Hdocument Hexport).
Defined.

(** ** The properties on the example page *)

(** No region has been created for the text block of the example, whose
    lines have a confidence above the minimum: the lookup raises. *)
Lemma C2_get_region_or_none_or_error_witness :
  Document.get Example.empty_document ["regions"; "TEXT"; "1"]
  = Raise (RuntimeError
             (no_text_found ["regions"; "TEXT"; "1"] [9 # 10; 9 # 10]%Q)).
Proof.
  refine (proj2 (proj2 (C2_get_region_or_none_or_error Example.empty_document
                          ["regions"; "TEXT"; "1"])) _ _).
  - reflexivity.
  - apply Exists_cons_hd. vm_compute. discriminate.
Defined.

(** A line filed under the illustrations is refused. *)
Lemma C10_ocr_lines_are_well_filed_witness :
  add_ocr_line (H := Sample.libraries) Example.empty_document
    (["regions"; "ILLUSTRATION"; "2"; "0"], "Lost")
  = Raise AssertionError.
Proof.
  refine (proj1 (C10_ocr_lines_are_well_filed (H := Sample.libraries))
            Example.empty_document ["regions"; "ILLUSTRATION"; "2"; "0"]
            "Lost" "2" eq_refl _).
  vm_compute. discriminate.
Defined.

(** The two lines of the example, named one after the other in the reading
    order, end up in one merged region, whose index follows that of the text
    block. *)
Lemma C5_flush_allocates_fresh_index_witness :
  is_ok (document ← Document_init (H := Sample.libraries) "page"
                      Example.lines_input;
         RegionReadingOrder.init (H := Sample.libraries) document) = true
  ∧ match Document_init (H := Sample.libraries) "page" Example.lines_input with
    | Ok document =>
        match RegionReadingOrder.init (H := Sample.libraries) document with
        | Ok ro =>
            let b := max_index ["regions"; "TEXT"] (Document.paths document) in
            let merged :=
              merged_paths (RegionReadingOrder._ordered_regions ro) in
            (∃ k : nat,
               merged = map (λ i : nat, merged_path (b + Z.of_nat i)) (seq 1 k))
            ∧ NoDup merged
            ∧ (∀ q, q ∈ merged → q ∉ Document.paths document)
            ∧ (∀ q, q ∈ merged → Document._regions document !! q = None)
            ∧ (∀ p n, is_Some (Document._regions document !! p) →
                      take 2 p = ["regions"; "TEXT"] → path_index p = Ok n →
                      (n ≤ b)%Z)
            ∧ (b = 0%Z
               ∨ ∃ p, is_Some (Document._regions document !! p)
                      ∧ take 2 p = ["regions"; "TEXT"] ∧ path_index p = Ok b)
        | Raise _ => True
        end
    | Raise _ => True
    end.
Proof.
  split; [vm_compute; reflexivity|].
  destruct (Document_init (H := Sample.libraries) "page" Example.lines_input)
    as [document|] eqn:Hdocument; [|exact I].
  destruct (RegionReadingOrder.init (H := Sample.libraries) document)
    as [ro|] eqn:Hro; [|exact I].
  exact (proj2 (C5_flush_allocates_fresh_index (H := Sample.libraries))
           "page" Example.lines_input document ro Hdocument Hro).
Defined.

(** C5, as stated, fails where the page has a text block without a region:
    the indices on record are those of the regions of the document, so the
    index of such a block is not on record.  On a page with the text blocks 1
    and 2, of which only the first has a line, and a reading order that names
    that line, the merged region is made under ("regions", "TEXT", "2"), the
    path of the second block of the input. *)
Lemma C5_index_of_a_block_allocated :
  match Document_init (H := Sample.libraries) "page"
          Example.two_blocks_input with
  | Ok document =>
      match RegionReadingOrder.init (H := Sample.libraries) document with
      | Ok ro => Some (Document.paths document,
                       merged_paths (RegionReadingOrder._ordered_regions ro))
      | Raise _ => None
      end
  | Raise _ => None
  end = Some ([["regions"; "TEXT"; "1"]], [["regions"; "TEXT"; "2"]])
  ∧ is_Some (Input.regions_by_path Example.two_blocks_input
             !! ["regions"; "TEXT"; "2"]).
Proof. split; [vm_compute; reflexivity|]. by eexists. Qed.

(** On that page the merged region is ("regions", "TEXT", "2"). *)
Example merged_region_of_the_example :
  match Document_init (H := Sample.libraries) "page" Example.lines_input with
  | Ok document =>
      match RegionReadingOrder.init (H := Sample.libraries) document with
      | Ok ro => RegionReadingOrder.reading_order ro
      | Raise _ => []
      end
  | Raise _ => []
  end = [["regions"; "TEXT"; "2"]].
Proof. vm_compute. reflexivity. Qed.

(** * Further properties *)

(** ** What the reconstruction of the reading order keeps *)

Lemma for_each_prefix {A S} (f : S → A → result S) (I : list A → S → Prop) :
  (∀ done s x s', I done s → f s x = Ok s' → I (done ++ [x]) s') →
  ∀ l done s s', I done s → for_each l f s = Ok s' → I (done ++ l) s'.
Proof.
  intros Hf l. induction l as [|x l IH]; intros done s s' Hs Hl.
  - injection Hl as <-. by rewrite app_nil_r.
  - cbn in Hl. bind_inv Hl as s1 Hx.
    replace (done ++ x :: l) with ((done ++ [x]) ++ l)
      by (by rewrite <- app_assoc).
    eapply IH; [|exact Hl]. by eapply Hf.
Qed.

Lemma map_result_fst (lines : Dict.t path Line.t) (run : list path)
    (merged_lines : list (path * Line.t)) :
  map_result (λ p, l ← getitem lines p; Ok (p, l)) run = Ok merged_lines →
  merged_lines.*1 = run.
Proof.
  revert merged_lines. induction run as [|p run IH]; intros merged_lines Hml.
  - by injection Hml as <-.
  - cbn [map_result] in Hml. bind_inv Hml as y Hy. bind_inv Hml as ys Hys.
    injection Hml as <-. bind_inv Hy as l Hl. injection Hy as <-.
    cbn. by rewrite (IH ys).
Qed.

Section ReadingOrderKeeps.
Context `{Libraries}.

Lemma merged_line_paths_app (l1 l2 : list (path * region)) :
  merged_line_paths (l1 ++ l2) = merged_line_paths l1 ++ merged_line_paths l2.
Proof. unfold merged_line_paths. by rewrite map_app, concat_app. Qed.

Lemma document_regions_app (l1 l2 : list (path * region)) :
  document_regions (l1 ++ l2) = document_regions l1 ++ document_regions l2.
Proof. unfold document_regions. by rewrite filter_app. Qed.

Lemma line_entries_app (l1 l2 : list path) :
  line_entries (l1 ++ l2) = line_entries l1 ++ line_entries l2.
Proof. unfold line_entries. by rewrite filter_app. Qed.

Lemma resolved_blocks_app (document : Document.t region) (l1 l2 : list path) :
  resolved_blocks document (l1 ++ l2)
  = resolved_blocks document l1 ++ resolved_blocks document l2.
Proof. unfold resolved_blocks. by rewrite omap_app. Qed.

Lemma flush_keeps (document : Document.t region) (done : list path)
    (self self' : RegionReadingOrder.t) :
  keeps document done self →
  RegionReadingOrder._flush_regionless_lines self = Ok self' →
  keeps document done self'
  ∧ RegionReadingOrder._regionless_text_lines self' = [].
Proof.
  intros (Hdoc & Hlines & Hblocks).
  unfold RegionReadingOrder._flush_regionless_lines.
  destruct (RegionReadingOrder._regionless_text_lines self)
    as [|first rest] eqn:Hrun.
  - intros [= <-]. split; [|done]. split; [done|]. split; [by rewrite Hrun|done].
  - intros Hok. bind_inv Hok as u Hu. bind_inv Hok as merged_lines Hml.
    injection Hok as <-. split; [|done]. apply map_result_fst in Hml.
    split; [done|]. cbn [RegionReadingOrder._ordered_regions RegionReadingOrder._regionless_text_lines RegionReadingOrder._document].
    split.
    + rewrite merged_line_paths_app, app_nil_r, <- Hlines. f_equal.
      unfold merged_line_paths. cbn. by rewrite app_nil_r, Hml.
    + rewrite document_regions_app, <- Hblocks. unfold document_regions at 2.
      rewrite filter_cons, decide_False by done. by rewrite app_nil_r.
Qed.

Lemma append_keeps (document : Document.t region) (done : list path)
    (self self' : RegionReadingOrder.t) (p : path) :
  regions_ok document →
  keeps document done self →
  RegionReadingOrder.append self p = Ok self' →
  keeps document (done ++ [p]) self'.
Proof.
  intros Hdocument Hself. unfold RegionReadingOrder.append.
  destruct (Nat.eqb_spec (length p) 3) as [Hlen|Hlen].
  - intros Hok. bind_inv Hok as flushed Hflushed.
    apply (flush_keeps document done) in Hflushed
      as [(Hdoc & Hlines & Hblocks) Hrun]; [|done].
    bind_inv Hok as region Hregion. rewrite Hdoc in Hregion.
    assert (line_entries (done ++ [p]) = line_entries done) as Hle.
    { rewrite line_entries_app. unfold line_entries at 2.
      rewrite filter_cons, decide_False by lia. by rewrite app_nil_r. }
    assert (resolved_blocks document (done ++ [p])
            = resolved_blocks document done
              ++ match region with Some r => [(p, r)] | None => [] end) as Hrb.
    { rewrite resolved_blocks_app. f_equal. unfold resolved_blocks. cbn.
      rewrite (proj2 (Nat.eqb_eq _ _) Hlen), Hregion. by destruct region. }
    unfold keeps. rewrite Hle, Hrb.
    destruct region as [region|]; injection Hok as <-.
    + assert (is_merged region = false) as Hnot.
      { unfold Document.get in Hregion.
        destruct (Document._regions document !! p) as [r|] eqn:Hr.
        - injection Hregion as ->. apply Hdocument in Hr. by destruct region.
        - by destruct (forallb _ _). }
      split; [done|]. cbn [RegionReadingOrder._ordered_regions RegionReadingOrder._regionless_text_lines RegionReadingOrder._document].
      split.
      * rewrite merged_line_paths_app, <- Hlines.
        unfold merged_line_paths at 2. cbn.
        destruct region; try done; by rewrite !app_nil_r.
      * rewrite document_regions_app, Hblocks. f_equal.
        unfold document_regions. by rewrite filter_cons, decide_True.
    + split; [done|]. by rewrite app_nil_r.
  - unfold keeps. destruct (Nat.ltb_spec 3 (length p)) as [Hlt|Hge]; [|done].
    intros Hok. bind_inv Hok as u Hu.
    unfold RegionReadingOrder._add_regionless_line in Hok.
    bind_inv Hok as adjacent Hadjacent. bind_inv Hok as kept Hkept.
    injection Hok as <-.
    assert (keeps document done kept) as (Hdoc & Hlines & Hblocks).
    { destruct adjacent; cbn in Hkept.
      - by injection Hkept as <-.
      - by apply (flush_keeps document done) in Hkept as [? _]. }
    split; [done|]. cbn [RegionReadingOrder._ordered_regions RegionReadingOrder._regionless_text_lines RegionReadingOrder._document].
    split.
    + rewrite line_entries_app, <- Hlines, <- (assoc_L (++)). f_equal.
      unfold line_entries. by rewrite filter_cons, decide_True.
    + rewrite resolved_blocks_app, Hblocks. unfold resolved_blocks at 2. cbn.
      rewrite (proj2 (Nat.eqb_neq _ _) Hlen). by rewrite app_nil_r.
Qed.

Lemma init_keeps (document : Document.t region) (ro : RegionReadingOrder.t) :
  regions_ok document →
  RegionReadingOrder.init document = Ok ro →
  keeps document (Document.reading_order document) ro
  ∧ RegionReadingOrder._regionless_text_lines ro = [].
Proof.
  intros Hdocument. unfold RegionReadingOrder.init. intros Hro.
  bind_inv Hro as region_indices Hindices. bind_inv Hro as walked Hwalked.
  apply (flush_keeps document _ walked); [|done].
  apply (for_each_prefix RegionReadingOrder.append (keeps document)
           (λ done s x s' Hs Hx, append_keeps document done s s' x Hdocument Hs Hx)
           _ [] _ _) in Hwalked; [done|].
  by split.
Qed.

End ReadingOrderKeeps.

(** X1.  The reconstructed reading order keeps every line entry of the
    reading order of the document exactly once and in order: the lines of the
    merged regions, read region after region, are the entries of more than
    three segments, none lost, none repeated and none moved. *)
Theorem X1_merged_regions_keep_the_lines `{Libraries}
    (page_path : string) (input : Input.t) (document : Document.t region)
    (ro : RegionReadingOrder.t) :
  Document_init page_path input = Ok document →
  RegionReadingOrder.init document = Ok ro →
  merged_line_paths (RegionReadingOrder._ordered_regions ro)
  = line_entries (Document.reading_order document).
Proof.
  intros Hdocument Hro. apply Document_init_ok in Hdocument as [Hregions _].
  apply init_keeps in Hro as [(_ & Hlines & _) Hrun]; [|done].
  by rewrite Hrun, app_nil_r in Hlines.
Qed.

Lemma X1_merged_regions_keep_the_lines_witness :
  is_ok (document ← Document_init (H := Sample.libraries) "page"
                      Example.mixed_input;
         RegionReadingOrder.init (H := Sample.libraries) document) = true
  ∧ match Document_init (H := Sample.libraries) "page" Example.mixed_input with
    | Ok document =>
        match RegionReadingOrder.init (H := Sample.libraries) document with
        | Ok ro =>
            merged_line_paths (RegionReadingOrder._ordered_regions ro)
            = line_entries (Document.reading_order document)
        | Raise _ => True
        end
    | Raise _ => True
    end.
Proof.
  split; [vm_compute; reflexivity|].
  destruct (Document_init (H := Sample.libraries) "page" Example.mixed_input)
    as [document|] eqn:Hdocument; [|exact I].
  destruct (RegionReadingOrder.init (H := Sample.libraries) document)
    as [ro|] eqn:Hro; [|exact I].
  exact (X1_merged_regions_keep_the_lines (H := Sample.libraries)
           "page" Example.mixed_input document ro Hdocument Hro).
Defined.

(** X2.  The regions that the reconstructed reading order takes from the
    document are the block entries of the reading order that have a region
    there, each with that region, in the order of the reading order: a block
    entry without a region is passed over, and merging lines moves no
    block. *)
Theorem X2_blocks_keep_their_order `{Libraries}
    (page_path : string) (input : Input.t) (document : Document.t region)
    (ro : RegionReadingOrder.t) :
  Document_init page_path input = Ok document →
  RegionReadingOrder.init document = Ok ro →
  document_regions (RegionReadingOrder._ordered_regions ro)
  = resolved_blocks document (Document.reading_order document).
Proof.
  intros Hdocument Hro. apply Document_init_ok in Hdocument as [Hregions _].
  by apply init_keeps in Hro as [(_ & _ & Hblocks) _].
Qed.

Lemma X2_blocks_keep_their_order_witness :
  is_ok (document ← Document_init (H := Sample.libraries) "page"
                      Example.mixed_input;
         RegionReadingOrder.init (H := Sample.libraries) document) = true
  ∧ match Document_init (H := Sample.libraries) "page" Example.mixed_input with
    | Ok document =>
        match RegionReadingOrder.init (H := Sample.libraries) document with
        | Ok ro =>
            document_regions (RegionReadingOrder._ordered_regions ro)
            = resolved_blocks (H := Sample.libraries) document
                (Document.reading_order document)
        | Raise _ => True
        end
    | Raise _ => True
    end.
Proof.
  split; [vm_compute; reflexivity|].
  destruct (Document_init (H := Sample.libraries) "page" Example.mixed_input)
    as [document|] eqn:Hdocument; [|exact I].
  destruct (RegionReadingOrder.init (H := Sample.libraries) document)
    as [ro|] eqn:Hro; [|exact I].
  exact (X2_blocks_keep_their_order (H := Sample.libraries)
           "page" Example.mixed_input document ro Hdocument Hro).
Defined.

(** On the page of the example the illustration stands between two merged
    regions of one line each. *)
Example mixed_order_of_the_example :
  match Document_init (H := Sample.libraries) "page" Example.mixed_input with
  | Ok document =>
      match RegionReadingOrder.init (H := Sample.libraries) document with
      | Ok ro => RegionReadingOrder.reading_order ro
      | Raise _ => []
      end
  | Raise _ => []
  end = [["regions"; "TEXT"; "2"]; ["regions"; "ILLUSTRATION"; "2"];
         ["regions"; "TEXT"; "3"]].
Proof. vm_compute. reflexivity. Qed.

(** ** The regions of a constructed document *)

Section SoundRegions.
Context `{Libraries}.

Lemma set_region_sound (self : Document.t region) (key : path) (r : region) :
  regions_sound self → region_sound key r →
  regions_sound (Document.set_region self key r).
Proof.
  intros Hself Hr k r'. unfold Document.set_region. cbn.
  destruct (decide (key = k)) as [<-|Hne].
  - rewrite lookup_insert_eq. by intros [= <-].
  - rewrite lookup_insert_ne by done. apply Hself.
Qed.

Lemma append_cell_text_sound (key : path) (x x' : TableRegion.t)
    (grid : list string) (line_path : path) (text : string) :
  region_sound key (Table x) →
  TableRegion.append_cell_text x grid line_path text = Ok x' →
  region_sound key (Table x').
Proof.
  intros (Hkey & Hclass & Hgrid). unfold TableRegion.append_cell_text.
  intros Hc. bind_inv Hc as ints Hints.
  destruct ints as [|division [|row [|column [|]]]]; try done.
  injection Hc as <-. split; [done|]. split; [done|].
  intros d r c. unfold TableRegion.rows.
  cbn [TableRegion._texts TableRegion._divisions TableRegion._rows
       TableRegion._columns].
  destruct (decide ((division, row, column) = (d, r, c))) as [[= <- <- <-]|Hne].
  - intros _. rewrite lookup_insert_eq. cbn [default from_option id].
    split; [|split]; apply elem_of_union_r; by apply elem_of_singleton_2.
  - rewrite lookup_insert_ne by done. intros Hsome.
    apply Hgrid in Hsome as (Hd & Hr & Hc). split; [|split].
    + by apply elem_of_union_l.
    + destruct (decide (division = d)) as [->|Hd'].
      * rewrite lookup_insert_eq. cbn [default from_option id].
        by apply elem_of_union_l.
      * by rewrite lookup_insert_ne.
    + by apply elem_of_union_l.
Qed.

Lemma add_text_sound (key : path) (x : TextRegion.t) (line_path : path)
    (text : string) :
  region_sound key (Text x) →
  region_sound key (Text (TextRegion.add_text x line_path text)).
Proof.
  intros (Hkey & Hclass & Htexts). split; [done|]. split; [done|].
  cbn [TextRegion.add_text TextRegion._order TextRegion._line_texts].
  apply Forall_app. split.
  - eapply Forall_impl; [exact Htexts|]. intros p Hp. cbn in Hp |- *.
    destruct (decide (line_path = p)) as [->|Hne].
    + by rewrite lookup_insert_eq.
    + by rewrite lookup_insert_ne.
  - constructor; [|done]. by rewrite lookup_insert_eq.
Qed.

Lemma add_ocr_line_sound (self self' : Document.t region) (lt : path * string) :
  regions_sound self →
  add_ocr_line self lt = Ok self' →
  regions_sound self'.
Proof.
  intros Hself. destruct lt as [line_path text]. unfold add_ocr_line.
  intros Hok. bind_inv Hok as segment Hsegment.
  destruct (1 <? length (Str.split "." segment))%nat.
  - bind_inv Hok as u Hu. bind_inv Hok as table_id Hid.
    bind_inv Hok as rs Hrs. destruct rs as [x doc].
    bind_inv Hok as x' Hx'. injection Hok as <-. cbn [fst snd] in *.
    unfold assert in Hu. case_bool_decide as Hclass; [|done].
    assert (take 2 (take 2 (take 3 line_path) ++ [table_id])
            = ["regions"; "TABULAR"]) as Hkey by (by rewrite Hclass).
    apply add_spec in Hrs as [(r & Hr & Hx & ->)|(Hr & Hc & ->)]; [| |done].
    + apply set_region_sound; [done|].
      apply Hself in Hr. destruct r; try done.
      cbn in Hx. injection Hx as ->. by eapply append_cell_text_sound.
    + assert (region_sound (take 2 (take 3 line_path) ++ [table_id]) (Table x))
        as Hx.
      { cbn in Hc. unfold TableRegion.init in Hc.
        bind_inv Hc as bl Hbl. bind_inv Hc as blocks Hblocks. injection Hc as <-.
        split; [done|]. split; [done|]. intros d r c. cbn.
        rewrite lookup_empty. by intros [? ?]. }
      apply set_region_sound; [by apply set_region_sound|].
      by eapply append_cell_text_sound.
  - bind_inv Hok as u Hu. bind_inv Hok as rs Hrs. destruct rs as [x doc].
    injection Hok as <-. cbn [fst snd] in *.
    unfold assert in Hu. case_bool_decide as Hclass; [|done].
    apply add_spec in Hrs as [(r & Hr & Hx & ->)|(Hr & Hc & ->)]; [| |done].
    + apply set_region_sound; [done|]. apply add_text_sound.
      apply Hself in Hr. destruct r; try done. cbn in Hx. by injection Hx as ->.
    + assert (region_sound (take 3 line_path) (Text x)) as Hx.
      { cbn in Hc. unfold TextRegion.init in Hc. bind_inv Hc as bl Hbl.
        destruct (bl.1) as [|[? block] [|]]; try done. injection Hc as <-.
        split; [done|]. split; [done|]. cbn. constructor. }
      apply set_region_sound; [by apply set_region_sound|].
      by apply add_text_sound.
Qed.

Lemma add_graphic_sound (self self' : Document.t region) (pb : path * Block.t) :
  regions_sound self →
  add_graphic self pb = Ok self' →
  regions_sound self'.
Proof.
  intros Hself. unfold add_graphic.
  case_bool_decide as Hclass; [|by intros [= <-]].
  intros Hok. bind_inv Hok as rs Hrs. destruct rs as [x doc]. injection Hok as <-.
  apply add_spec in Hrs as [(r & Hr & Hx & ->)|(Hr & Hc & ->)]; [done| |done].
  apply set_region_sound; [done|].
  cbn in Hc. unfold GraphicRegion.init in Hc. bind_inv Hc as bl Hbl.
  destruct (bl.1) as [|[? block] [|]]; try done. injection Hc as <-. done.
Qed.

Lemma Document_init_sound (page_path : string) (input : Input.t)
    (document : Document.t region) :
  Document_init page_path input = Ok document → regions_sound document.
Proof.
  unfold Document_init. intros Hok. bind_inv Hok as a Ha.
  eapply (for_each_invariant add_graphic regions_sound); [| |exact Hok].
  - intros s x s'. apply add_graphic_sound.
  - eapply (for_each_invariant add_ocr_line regions_sound); [| |exact Ha].
    + intros s x s'. apply add_ocr_line_sound.
    + intros key r. cbn. by rewrite lookup_empty.
Qed.

End SoundRegions.

(** ** The references and the elements of the Page XML document *)

Section PageXmlReferences.
Context `{Libraries}.

Lemma flush_filed (document : Document.t region)
    (self self' : RegionReadingOrder.t) :
  ordered_filed document self →
  RegionReadingOrder._flush_regionless_lines self = Ok self' →
  ordered_filed document self'.
Proof.
  intros [Hdoc Hordered]. unfold RegionReadingOrder._flush_regionless_lines.
  destruct (RegionReadingOrder._regionless_text_lines self) as [|first rest].
  - by intros [= <-].
  - intros Hok. bind_inv Hok as u Hu. bind_inv Hok as merged_lines Hml.
    injection Hok as <-. split; [done|]. cbn.
    apply Forall_app. split; [done|]. by constructor.
Qed.

Lemma append_filed (document : Document.t region)
    (self self' : RegionReadingOrder.t) (p : path) :
  regions_sound document →
  ordered_filed document self →
  RegionReadingOrder.append self p = Ok self' →
  ordered_filed document self'.
Proof.
  intros Hdocument Hself. unfold RegionReadingOrder.append.
  destruct (length p =? 3)%nat.
  - intros Hok. bind_inv Hok as flushed Hflushed.
    apply (flush_filed document) in Hflushed as [Hdoc Hordered]; [|done].
    bind_inv Hok as region Hregion. rewrite Hdoc in Hregion.
    destruct region as [region|]; injection Hok as <-; [|done].
    split; [done|]. cbn. apply Forall_app. split; [done|].
    constructor; [|done]. cbn. unfold Document.get in Hregion.
    destruct (Document._regions document !! p) as [r|] eqn:Hr.
    + injection Hregion as ->. by apply Hdocument in Hr as [? _].
    + by destruct (forallb _ _).
  - destruct (3 <? length p)%nat; [|done].
    intros Hok. bind_inv Hok as u Hu.
    unfold RegionReadingOrder._add_regionless_line in Hok.
    bind_inv Hok as adjacent Hadjacent. bind_inv Hok as kept Hkept.
    injection Hok as <-.
    assert (ordered_filed document kept) as [Hdoc Hordered]; [|done].
    destruct adjacent; cbn in Hkept.
    + by injection Hkept as <-.
    + by apply (flush_filed document) in Hkept.
Qed.

Lemma init_filed (document : Document.t region) (ro : RegionReadingOrder.t) :
  regions_sound document →
  RegionReadingOrder.init document = Ok ro →
  ordered_filed document ro.
Proof.
  intros Hdocument. unfold RegionReadingOrder.init. intros Hro.
  bind_inv Hro as region_indices Hindices. bind_inv Hro as walked Hwalked.
  apply (flush_filed document walked); [|done].
  apply (for_each_invariant_from _ (ordered_filed document) _ _ _ Hwalked).
  - by split.
  - intros s x s'. by apply append_filed.
Qed.

(** The export of one region adds one element with the identifier of the
    region, or, for a table, one warning that names the table. *)
Lemma export_outcome (document : Document.t region) (r : region)
    (px px' : pagexml_document) :
  export_page_xml document r px = Ok px' →
  px_reading_order px' = px_reading_order px
  ∧ ((∃ tag children,
        px_regions px'
        = px_regions px ++ [Element tag (Str.join "-" (block_path_of r)) children]
        ∧ warnings px' = warnings px)
     ∨ (px_regions px' = px_regions px
        ∧ (∃ page_path, warnings px' = warnings px ++ [(block_path_of r, page_path)])
        ∧ ∃ x, r = Table x)).
Proof.
  destruct r as [x|x|x|x]; cbn [export_page_xml block_path_of].
  - unfold TextRegion.export_page_xml. intros Hok.
    bind_inv Hok as c Hc. bind_inv Hok as c' Hc'. bind_inv Hok as l Hl.
    injection Hok as <-. split; [done|]. left. by eexists _, _.
  - unfold TableRegion.export_page_xml. intros Hok.
    bind_inv Hok as cols Hcols. destruct (cols.2) as [|shape shapes].
    + injection Hok as <-. split; [done|]. right. split; [done|].
      split; [by eexists|by eexists].
    + bind_inv Hok as c Hc. bind_inv Hok as c' Hc'.
      injection Hok as <-. split; [done|]. left. by eexists _, _.
  - unfold GraphicRegion.export_page_xml. intros Hok.
    bind_inv Hok as c Hc. bind_inv Hok as c' Hc'.
    injection Hok as <-. split; [done|]. left. by eexists _, _.
  - unfold MergedTextRegion.export_page_xml. intros Hok.
    bind_inv Hok as c Hc. bind_inv Hok as c' Hc'. bind_inv Hok as l Hl.
    injection Hok as <-. split; [done|]. left. by eexists _, _.
Qed.

Lemma export_exported (document : Document.t region)
    (refs : list (nat * string)) (done : list region) (r : region)
    (px px' : pagexml_document) :
  exported refs done px →
  export_page_xml document r px = Ok px' →
  exported refs (done ++ [r]) px'.
Proof.
  intros (Hrefs & Hperm & Hsub & Hwarned) Hok.
  apply export_outcome in Hok
    as [Horder [(tag & children & Hregions & Hwarnings)
               |(Hregions & [page_path Hwarnings] & _)]];
    unfold exported, warned_ids in *; rewrite Horder, Hregions, Hwarnings;
    rewrite !map_app; cbn [map node_id fst].
  - split; [done|]. split; [|split].
    + rewrite <- Hperm. by rewrite <- !(assoc_L (++)), (comm (++) [_]).
    + by apply sublist_app.
    + by apply sublist_inserts_r.
  - split; [done|]. split; [|split].
    + by rewrite (assoc_L (++)), Hperm.
    + by apply sublist_inserts_r.
    + by apply sublist_app.
Qed.

Lemma imap_snd {A B} (f : A → B) (l : list A) :
  (imap (λ i x, (i, f x)) l).*2 = map f l.
Proof.
  assert (∀ (g : nat → nat), (imap (λ i x, (g i, f x)) l).*2 = map f l) as Hg.
  { induction l as [|x l IH]; intros g; [done|].
    cbn. f_equal. apply (IH (g ∘ S)). }
  apply (Hg id).
Qed.

End PageXmlReferences.

(** X3.  In the Page XML document of a constructed document, the reading
    order numbers the regions of the reconstructed reading order from 0 and
    refers to each by its path joined with "-"; every such reference is the
    identifier of exactly one region element or of one table left out with a
    warning, the elements stand in the order of their references, and so do
    the warnings. *)
Theorem X3_references_and_elements `{Libraries}
    (self : ComposeProcessor.t) (page_path : string) (input : Input.t)
    (document : Document.t region) (px : pagexml_document) :
  Document_init page_path input = Ok document →
  ComposeProcessor.export_page_xml self page_path document = Ok px →
  ∃ ro, RegionReadingOrder.init document = Ok ro
        ∧ px_reading_order px
          = imap (λ i p, (i, Str.join "-" p)) (RegionReadingOrder.reading_order ro)
        ∧ map node_id (px_regions px) ++ warned_ids px ≡ₚ region_refs px
        ∧ sublist (map node_id (px_regions px)) (region_refs px)
        ∧ sublist (warned_ids px) (region_refs px).
Proof.
  intros Hdocument Hpx. apply Document_init_sound in Hdocument.
  unfold ComposeProcessor.export_page_xml in Hpx. bind_inv Hpx as ro Hro.
  exists ro. split; [done|].
  apply (init_filed document) in Hro as [_ Hfiled]; [|done].
  set (refs := imap (λ i p, (i, Str.join "-" p))
                    (RegionReadingOrder.reading_order ro)) in *.
  apply (for_each_prefix
           (λ px region, export_page_xml document region px) (exported refs)
           (λ done s x s' Hs Hx, export_exported document refs done x s s' Hs Hx)
           _ [] _ _) in Hpx.
  - destruct Hpx as (Hrefs & Hperm & Hsub & Hwarned). cbn [app] in *.
    assert (map (λ r, Str.join "-" (block_path_of r))
                (RegionReadingOrder.regions ro)
            = region_refs px) as Heq.
    { unfold region_refs. rewrite Hrefs. unfold refs. rewrite imap_snd.
      unfold RegionReadingOrder.regions, RegionReadingOrder.reading_order.
      rewrite !map_map. apply map_ext_Forall.
      eapply Forall_impl; [exact Hfiled|]. intros pr Hpr. cbn. by rewrite Hpr. }
    by rewrite <- Heq.
  - split; [done|]. split; [done|]. split; constructor.
Qed.

Lemma X3_references_and_elements_witness :
  is_ok (document ← Document_init (H := Sample.libraries) "page"
                      Example.mixed_input;
         ComposeProcessor.export_page_xml (H := Sample.libraries)
           Example.text_only "page" document) = true
  ∧ match Document_init (H := Sample.libraries) "page" Example.mixed_input with
    | Ok document =>
        match ComposeProcessor.export_page_xml (H := Sample.libraries)
                Example.text_only "page" document with
        | Ok px =>
            ∃ ro, RegionReadingOrder.init (H := Sample.libraries) document = Ok ro
                  ∧ px_reading_order px
                    = imap (λ i p, (i, Str.join "-" p))
                           (RegionReadingOrder.reading_order ro)
                  ∧ map node_id (px_regions px) ++ warned_ids px
                    ≡ₚ region_refs px
                  ∧ sublist (map node_id (px_regions px)) (region_refs px)
                  ∧ sublist (warned_ids px) (region_refs px)
        | Raise _ => True
        end
    | Raise _ => True
    end.
Proof.
  split; [vm_compute; reflexivity|].
  destruct (Document_init (H := Sample.libraries) "page" Example.mixed_input)
    as [document|] eqn:Hdocument; [|exact I].
  destruct (ComposeProcessor.export_page_xml (H := Sample.libraries)
              Example.text_only "page" document) as [px|] eqn:Hpx; [|exact I].
  exact (X3_references_and_elements (H := Sample.libraries)
           Example.text_only "page" Example.mixed_input document px
           Hdocument Hpx).
Defined.

(** ** The texts a text region holds *)

Lemma dict_of_items_snoc `{Countable K} {V} (items : list (K * V)) (k : K) (v : V) :
  dict_of_items (items ++ [(k, v)]) = <[k := v]> (dict_of_items items).
Proof. unfold dict_of_items. by rewrite foldl_app. Qed.

Lemma dict_of_items_lookup `{Countable K} {V} (items : list (K * V)) (k : K) (v : V) :
  NoDup items.*1 → (k, v) ∈ items → dict_of_items items !! k = Some v.
Proof.
  induction items as [|[k' v'] items IH] using rev_ind; intros Hnodup Hin.
  - by apply elem_of_nil in Hin.
  - rewrite dict_of_items_snoc. rewrite fmap_app in Hnodup.
    apply NoDup_app in Hnodup as (Hnodup & Hnot & _).
    apply elem_of_app in Hin as [Hin|Hin].
    + rewrite lookup_insert_ne; [by apply IH|]. intros <-.
      apply (Hnot k'); [|by apply list_elem_of_here].
      apply list_elem_of_fmap. by exists (k', v).
    + apply list_elem_of_singleton in Hin as [= -> ->].
      by rewrite lookup_insert_eq.
Qed.

Lemma take_take_2_3 {A} (l : list A) : take 2 (take 3 l) = take 2 l.
Proof. by rewrite take_take. Qed.

Section TextsHeld.
Context `{Libraries}.

(** What adding one OCR line does to the regions of the document. *)
Lemma add_ocr_line_regions (self self' : Document.t region)
    (line_path : path) (text : string) :
  add_ocr_line self (line_path, text) = Ok self' →
  (take 2 line_path = ["regions"; "TABULAR"]
   ∧ ∃ table_id x',
       Document._regions self'
       = <[take 2 line_path ++ [table_id] := Table x']> (Document._regions self))
  ∨ (take 2 line_path = ["regions"; "TEXT"]
     ∧ ∃ x,
         (Document._regions self !! take 3 line_path = Some (Text x)
          ∨ (Document._regions self !! take 3 line_path = None
             ∧ TextRegion._order x = [] ∧ TextRegion._line_texts x = ∅))
         ∧ Document._regions self'
           = <[take 3 line_path := Text (TextRegion.add_text x line_path text)]>
               (Document._regions self)).
Proof.
  unfold add_ocr_line. intros Hok. bind_inv Hok as segment Hsegment.
  rewrite take_take_2_3 in Hok.
  destruct (1 <? length (Str.split "." segment))%nat.
  - bind_inv Hok as u Hu. bind_inv Hok as table_id Hid.
    bind_inv Hok as rs Hrs. destruct rs as [x doc].
    bind_inv Hok as x' Hx'. injection Hok as <-. cbn [fst snd] in *.
    unfold assert in Hu. case_bool_decide as Hclass; [|done].
    left. split; [done|]. exists table_id, x'.
    apply add_spec in Hrs as [(r & Hr & Hx & ->)|(Hr & Hc & ->)]; [done| |done].
    cbn. by rewrite insert_insert_eq.
  - bind_inv Hok as u Hu. bind_inv Hok as rs Hrs. destruct rs as [x doc].
    injection Hok as <-. cbn [fst snd] in *.
    unfold assert in Hu. case_bool_decide as Hclass; [|done].
    right. split; [done|]. exists x.
    apply add_spec in Hrs as [(r & Hr & Hx & ->)|(Hr & Hc & ->)]; [| |done].
    + split; [|done]. left. destruct r; try done. cbn in Hx. by injection Hx as ->.
    + split; [|cbn; by rewrite insert_insert_eq]. right. split; [done|].
      cbn in Hc. unfold TextRegion.init in Hc. bind_inv Hc as bl Hbl.
      destruct (bl.1) as [|[? block] [|]]; try done. by injection Hc as <-.
Qed.

Lemma lines_under_snoc (block_path : path) (done : list (path * string))
    (line_path : path) (text : string) :
  lines_under block_path (done ++ [(line_path, text)])
  = lines_under block_path done
    ++ (if decide (take 3 line_path = block_path) then [(line_path, text)] else []).
Proof.
  unfold lines_under. rewrite filter_app. reflexivity.
Qed.

Lemma add_ocr_line_holds (done : list (path * string))
    (self self' : Document.t region) (lt : path * string) :
  holds_texts done self →
  add_ocr_line self lt = Ok self' →
  holds_texts (done ++ [lt]) self'.
Proof.
  intros (Hsound & Htexts & Hnone & Hsome) Hok.
  pose proof (add_ocr_line_sound _ _ _ Hsound Hok) as Hsound'.
  destruct lt as [line_path text].
  assert (∀ block_path x, Document._regions self !! block_path = Some (Text x) →
                          take 2 block_path = ["regions"; "TEXT"]) as Hclass.
  { intros bp x Hx. by apply Hsound in Hx as (_ & ? & _). }
  apply add_ocr_line_regions in Hok
    as [(Htab & table_id & x' & Hregions)|(Htext & x & Hx & Hregions)].
  - assert (∀ bp, take 2 bp = ["regions"; "TEXT"] →
                  bp ≠ take 2 line_path ++ [table_id]
                  ∧ take 3 line_path ≠ bp) as Hne.
    { intros bp Hbp. split.
      - intros ->. rewrite Htab in Hbp. done.
      - intros <-. rewrite take_take_2_3 in Hbp. congruence. }
    split; [done|]. split; [|split].
    + intros bp y. rewrite Hregions. intros Hy.
      destruct (decide (take 2 line_path ++ [table_id] = bp)) as [<-|Hkey].
      { by rewrite lookup_insert_eq in Hy. }
      rewrite lookup_insert_ne in Hy by done.
      rewrite lines_under_snoc, decide_False, app_nil_r; [by apply Htexts|].
      by apply Hne, (Hclass bp y).
    + intros bp. rewrite Hregions. intros Hbp Hclass'.
      destruct (Hne _ Hclass') as [Hkey _].
      rewrite lookup_insert_ne in Hbp; [|intros Heq; apply Hkey; by rewrite Heq].
      rewrite lines_under_snoc, decide_False, app_nil_r; [by apply Hnone|].
      by apply Hne.
    + intros lt Hlt Hlt'. rewrite Hregions.
      apply elem_of_app in Hlt as [Hlt|Hlt].
      * destruct (decide (take 2 line_path ++ [table_id] = take 3 lt.1))
          as [->|Hkey]; [by rewrite lookup_insert_eq|].
        rewrite lookup_insert_ne by done. by apply Hsome.
      * apply list_elem_of_singleton in Hlt as ->. cbn in Hlt'. congruence.
  - assert (TextRegion._order x = (lines_under (take 3 line_path) done).*1
            ∧ TextRegion._line_texts x
              = dict_of_items (lines_under (take 3 line_path) done)) as [Ho Ht].
    { destruct Hx as [Hx|(Hx & -> & ->)];
        [by apply Htexts in Hx as (? & ? & _)|].
      rewrite Hnone; [done|done|]. by rewrite take_take_2_3. }
    split; [done|]. split; [|split].
    + intros bp y. rewrite Hregions. intros Hy. rewrite lines_under_snoc.
      destruct (decide (take 3 line_path = bp)) as [<-|Hkey].
      * rewrite lookup_insert_eq in Hy. injection Hy as <-.
        cbn [TextRegion.add_text TextRegion._order TextRegion._line_texts].
        rewrite fmap_app, dict_of_items_snoc, Ho, Ht.
        split; [done|]. split; [done|]. intros Hnil.
        by apply app_eq_nil in Hnil as [_ ?].
      * rewrite lookup_insert_ne in Hy by done. rewrite app_nil_r.
        by apply Htexts.
    + intros bp. rewrite Hregions. intros Hbp Hclass'.
      rewrite lines_under_snoc.
      destruct (decide (take 3 line_path = bp)) as [<-|Hkey].
      * by rewrite lookup_insert_eq in Hbp.
      * rewrite lookup_insert_ne in Hbp by done. rewrite app_nil_r.
        by apply Hnone.
    + intros lt Hlt Hlt'. rewrite Hregions.
      destruct (decide (take 3 line_path = take 3 lt.1)) as [->|Hkey];
        [by rewrite lookup_insert_eq|].
      rewrite lookup_insert_ne by done.
      apply elem_of_app in Hlt as [Hlt|Hlt]; [by apply Hsome|].
      apply list_elem_of_singleton in Hlt as ->. done.
Qed.

Lemma add_graphic_holds (done : list (path * string))
    (self self' : Document.t region) (pb : path * Block.t) :
  holds_texts done self →
  add_graphic self pb = Ok self' →
  holds_texts done self'.
Proof.
  intros (Hsound & Htexts & Hnone & Hsome) Hok.
  pose proof (add_graphic_sound _ _ _ Hsound Hok) as Hsound'.
  unfold add_graphic in Hok.
  case_bool_decide as Hclass; [|by injection Hok as <-].
  bind_inv Hok as rs Hrs. destruct rs as [x doc]. injection Hok as <-.
  apply add_spec in Hrs as [(r & Hr & Hx & ->)|(Hr & Hc & ->)]; [done| |done].
  split; [done|]. cbn. split; [|split].
  - intros bp y Hy. destruct (decide (pb.1 = bp)) as [<-|Hkey].
    + by rewrite lookup_insert_eq in Hy.
    + rewrite lookup_insert_ne in Hy by done. by apply Htexts.
  - intros bp Hbp. destruct (decide (pb.1 = bp)) as [<-|Hkey].
    + by rewrite lookup_insert_eq in Hbp.
    + rewrite lookup_insert_ne in Hbp by done. by apply Hnone.
  - intros lt Hlt Hlt'. destruct (decide (pb.1 = take 3 lt.1)) as [->|Hkey].
    + by rewrite lookup_insert_eq.
    + rewrite lookup_insert_ne by done. by apply Hsome.
Qed.

Lemma Document_init_holds (page_path : string) (input : Input.t)
    (document : Document.t region) :
  Document_init page_path input = Ok document →
  holds_texts (Input.sorted_ocr input) document.
Proof.
  unfold Document_init. intros Hok. bind_inv Hok as a Ha.
  eapply (for_each_invariant add_graphic (holds_texts (Input.sorted_ocr input)));
    [| |exact Hok].
  - intros s x s'. apply add_graphic_holds.
  - apply (for_each_prefix add_ocr_line holds_texts
             (λ done s x s', add_ocr_line_holds done s s' x) _ [] _ _) in Ha;
      [done|].
    split; [|split; [|split]].
    + intros key r. cbn. by rewrite lookup_empty.
    + intros bp x. cbn. by rewrite lookup_empty.
    + done.
    + intros lt Hlt. by apply elem_of_nil in Hlt.
Qed.

(** The plain text of a region whose lines all have a text. *)
Lemma export_plain_text_lines (self : TextRegion.t)
    (lines : list (path * string)) (composition : PlainTextComposition.t) :
  (∀ p t, (p, t) ∈ lines → TextRegion._line_texts self !! p = Some t) →
  for_each lines.*1
    (λ c p, text ← getitem (TextRegion._line_texts self) p;
            Ok (PlainTextComposition.append_text c p text))
    composition
  = Ok (PlainTextComposition.append_all composition lines).
Proof.
  revert composition. induction lines as [|[p t] lines IH];
    intros composition Hlines; [done|].
  assert (getitem (TextRegion._line_texts self) p = Ok t) as Hp.
  { unfold getitem. by rewrite (Hlines p t (list_elem_of_here _ _)). }
  cbn [fmap list_fmap for_each fst]. rewrite Hp.
  cbn [mbind result_bind]. rewrite IH; [done|].
  intros p' t' Hin. apply Hlines. by apply list_elem_of_further.
Qed.

End TextsHeld.

(** X4.  A text region of a constructed document holds the OCR lines of its
    block and no others, in the order of the OCR results; the text it gives
    for a line is the text of the last OCR result for that line; and, when no
    line occurs twice in the OCR results, its plain text export does not
    fail and appends the texts of exactly these lines in that order. *)
Theorem X4_text_region_holds_its_lines `{Libraries}
    (page_path : string) (input : Input.t) (document : Document.t region)
    (block_path : path) (x : TextRegion.t) :
  Document_init page_path input = Ok document →
  Document._regions document !! block_path = Some (Text x) →
  let lines := lines_under block_path (Input.sorted_ocr input) in
  TextRegion._order x = lines.*1
  ∧ (∀ p, TextRegion.get_line_text x p = getitem (dict_of_items lines) p)
  ∧ (NoDup (Input.sorted_ocr input).*1 →
     ∀ composition,
       TextRegion.export_plain_text_region x composition
       = Ok (PlainTextComposition.append_all composition lines)).
Proof.
  intros Hdocument Hx lines.
  apply Document_init_holds in Hdocument as (_ & Htexts & _).
  apply Htexts in Hx as (Horder & Hline_texts & _).
  fold lines in Horder, Hline_texts.
  split; [done|]. split.
  - intros p. unfold TextRegion.get_line_text. by rewrite Hline_texts.
  - intros Hnodup composition. unfold TextRegion.export_plain_text_region.
    rewrite Horder. apply export_plain_text_lines.
    intros p t Hin. rewrite Hline_texts. apply dict_of_items_lookup; [|done].
    eapply sublist_NoDup; [exact Hnodup|].
    apply fmap_sublist, sublist_filter.
Qed.

Lemma X4_text_region_holds_its_lines_witness :
  match Document_init (H := Sample.libraries) "page" Example.input with
  | Ok document =>
      match Document._regions document !! ["regions"; "TEXT"; "1"] with
      | Some (Text _) => true
      | _ => false
      end
  | Raise _ => false
  end = true
  ∧ match Document_init (H := Sample.libraries) "page" Example.input with
    | Ok document =>
        match Document._regions document !! ["regions"; "TEXT"; "1"] with
        | Some (Text x) =>
            let lines := lines_under ["regions"; "TEXT"; "1"]
                           (Input.sorted_ocr Example.input) in
            TextRegion._order x = lines.*1
            ∧ (∀ p, TextRegion.get_line_text x p
                    = getitem (dict_of_items lines) p)
            ∧ (NoDup (Input.sorted_ocr Example.input).*1 →
               ∀ composition,
                 TextRegion.export_plain_text_region x composition
                 = Ok (PlainTextComposition.append_all composition lines))
        | _ => True
        end
    | Raise _ => True
    end.
Proof.
  split; [vm_compute; reflexivity|].
  destruct (Document_init (H := Sample.libraries) "page" Example.input)
    as [document|] eqn:Hdocument; [|exact I].
  destruct (Document._regions document !! ["regions"; "TEXT"; "1"])
    as [[x|x|x|x]|] eqn:Hx; try exact I.
  exact (X4_text_region_holds_its_lines (H := Sample.libraries)
           "page" Example.input document ["regions"; "TEXT"; "1"] x
           Hdocument Hx).
Defined.

(** X5.  In a constructed document every OCR line under
    ("regions", "TEXT") has the text region of its block, and that region
    gives the text of the line: the lookup a merged region makes for the text
    of its lines does not fail for a line that has an OCR result.  No line
    occurs twice in the OCR results. *)
Theorem X5_ocr_lines_have_their_text `{Libraries}
    (page_path : string) (input : Input.t) (document : Document.t region)
    (line_path : path) (text : string) :
  Document_init page_path input = Ok document →
  NoDup (Input.sorted_ocr input).*1 →
  (line_path, text) ∈ Input.sorted_ocr input →
  take 2 line_path = ["regions"; "TEXT"] →
  (∃ x, Document.get document (take 3 line_path) = Ok (Some (Text x)))
  ∧ document_line_text document line_path = Ok text.
Proof.
  intros Hdocument Hnodup Hin Hclass.
  apply Document_init_holds in Hdocument as (Hsound & Htexts & _ & Hsome).
  destruct (Hsome _ Hin Hclass) as [r Hr]. cbn [fst] in Hr.
  pose proof (Hsound _ _ Hr) as [_ Hr'].
  assert (take 2 (take 3 line_path) = ["regions"; "TEXT"]) as Hkey
    by (by rewrite take_take_2_3).
  destruct r as [x|x|x|x]; [| | |done].
  - assert (Document.get document (take 3 line_path) = Ok (Some (Text x)))
      as Hget by (unfold Document.get; by rewrite Hr).
    split; [by exists x|]. unfold document_line_text. rewrite Hget.
    cbn [mbind result_bind]. unfold TextRegion.get_line_text, getitem.
    apply Htexts in Hr as (_ & -> & _).
    rewrite (dict_of_items_lookup _ line_path text); [done| |].
    + eapply sublist_NoDup; [exact Hnodup|].
      apply fmap_sublist, sublist_filter.
    + unfold lines_under. by apply list_elem_of_filter.
  - destruct Hr' as [Hr' _]. congruence.
  - congruence.
Qed.

Lemma X5_ocr_lines_have_their_text_witness :
  is_ok (Document_init (H := Sample.libraries) "page" Example.mixed_input) = true
  ∧ match Document_init (H := Sample.libraries) "page" Example.mixed_input with
    | Ok document =>
        (∃ x, Document.get document (take 3 ["regions"; "TEXT"; "1"; "1"])
              = Ok (Some (Text x)))
        ∧ document_line_text document
            ["regions"; "TEXT"; "1"; "1"] = Ok "World"
    | Raise _ => True
    end.
Proof.
  split; [vm_compute; reflexivity|].
  destruct (Document_init (H := Sample.libraries) "page" Example.mixed_input)
    as [document|] eqn:Hdocument; [|exact I].
  apply (X5_ocr_lines_have_their_text (H := Sample.libraries)
           "page" Example.mixed_input document
           ["regions"; "TEXT"; "1"; "1"] "World" Hdocument).
  - apply (bool_decide_unpack _). vm_compute. exact I.
  - apply (bool_decide_unpack _). vm_compute. exact I.
  - reflexivity.
Defined.

(** ** Illustrations in the plain text export *)

(** A loop over a list with an element at which the body raises whatever the
    accumulator is, raises. *)
Lemma for_each_raises {A S} (f : S → A → result S) (l : list A) (x : A) :
  x ∈ l → (∀ s, is_ok (f s x) = false) → ∀ s, is_ok (for_each l f s) = false.
Proof.
  intros Hin Hx. induction l as [|y l IH]; intros s.
  - by apply elem_of_nil in Hin.
  - cbn. apply elem_of_cons in Hin as [<-|Hin].
    + specialize (Hx s). by destruct (f s x).
    + destruct (f s y); [by apply IH|done].
Qed.

Section Illustrations.
Context `{Libraries}.

Lemma add_graphic_holds_graphics (done : list (path * Block.t))
    (self self' : Document.t region) (pb : path * Block.t) :
  holds_graphics done self →
  add_graphic self pb = Ok self' →
  holds_graphics (done ++ [pb]) self'.
Proof.
  intros Hself. unfold add_graphic. case_bool_decide as Hclass.
  - intros Hok. bind_inv Hok as rs Hrs. destruct rs as [x doc].
    injection Hok as <-.
    apply add_spec in Hrs as [(r & Hr & Hx & ->)|(Hr & Hc & ->)]; [| |done].
    + intros pb' Hin Hclass'. apply elem_of_app in Hin as [Hin|Hin].
      * by apply Hself.
      * apply list_elem_of_singleton in Hin as ->. exists x.
        destruct r; try done. cbn in Hx. by injection Hx as ->.
    + intros pb' Hin Hclass'. cbn.
      destruct (decide (pb.1 = pb'.1)) as [Heq|Hne].
      * rewrite Heq, lookup_insert_eq. by exists x.
      * rewrite lookup_insert_ne by done.
        apply elem_of_app in Hin as [Hin|Hin]; [by apply Hself|].
        apply list_elem_of_singleton in Hin as ->. done.
  - intros [= <-] pb' Hin Hclass'.
    apply elem_of_app in Hin as [Hin|Hin]; [by apply Hself|].
    apply list_elem_of_singleton in Hin as ->. done.
Qed.

Lemma Document_init_holds_graphics (page_path : string) (input : Input.t)
    (document : Document.t region) :
  Document_init page_path input = Ok document →
  holds_graphics (Input.regions_by_path input) document.
Proof.
  unfold Document_init. intros Hok. bind_inv Hok as a Ha.
  apply (for_each_prefix add_graphic holds_graphics
           (λ done s x s', add_graphic_holds_graphics done s s' x) _ [] _ _)
    in Hok; [done|].
  intros pb Hin. by apply elem_of_nil in Hin.
Qed.

End Illustrations.

(** X6.  In a constructed document every illustration block of the input
    has a graphic region.  A graphic region has no plain text export: when
    the reading order names such a block and the block filter, if there is
    one, lets its path through, the round of the plain text export for it
    raises AttributeError, the plain text export fails, and so does the
    processing of the page. *)
Theorem X6_illustration_in_plain_text `{Libraries}
    (page_path : string) (input : Input.t) (document : Document.t region)
    (p : path) (block : Block.t) :
  Document_init page_path input = Ok document →
  (p, block) ∈ Input.regions_by_path input →
  take 2 p = ["regions"; "ILLUSTRATION"] →
  (∃ g, Document.get document p = Ok (Some (Graphic g)))
  ∧ (∀ (self : ComposeProcessor.t),
       length p = 3%nat →
       passes_filter self p = true →
       (∀ composition,
          ComposeProcessor.export_path self document composition p
          = Raise AttributeError)
       ∧ (p ∈ Document.reading_order document →
          is_ok (ComposeProcessor.export_plain_text self document) = false
          ∧ is_ok (ComposeProcessor.process self page_path input) = false)).
Proof.
  intros Hdocument Hin Hclass.
  pose proof (Document_init_holds_graphics _ _ _ Hdocument (p, block) Hin Hclass)
    as [g Hg]. cbn [fst] in Hg.
  assert (Document.get document p = Ok (Some (Graphic g))) as Hget
    by (unfold Document.get; by rewrite Hg).
  split; [by exists g|]. intros self Hlen Hfilter.
  assert (∀ composition,
            ComposeProcessor.export_path self document composition p
            = Raise AttributeError) as Hpath.
  { intros composition. unfold ComposeProcessor.export_path.
    unfold passes_filter in Hfilter.
    destruct (ComposeProcessor._block_filter self) as [block_filter|];
      [rewrite Hfilter|]; cbn [negb];
      by rewrite (proj2 (Nat.eqb_eq _ _) Hlen), Hget. }
  split; [done|]. intros Horder.
  assert (is_ok (ComposeProcessor.export_plain_text self document) = false)
    as Htext.
  { unfold ComposeProcessor.export_plain_text.
    assert (∀ s, is_ok (ComposeProcessor.export_path self document s p) = false)
      as Hraises by (intros s; by rewrite Hpath).
    pose proof (for_each_raises (ComposeProcessor.export_path self document)
                  (Document.reading_order document) p Horder Hraises
                  (PlainTextComposition.init Str.newline
                     (ComposeProcessor._block_separator self))) as Hloop.
    by destruct (for_each _ _ _). }
  split; [done|]. unfold ComposeProcessor.process.
  destruct (Input.regions_by_path input) as [|pb blocks];
    [by apply elem_of_nil in Hin|].
  rewrite Hdocument. cbn [mbind result_bind].
  by destruct (ComposeProcessor.export_plain_text self document).
Qed.

Lemma X6_illustration_in_plain_text_witness :
  is_ok (Document_init (H := Sample.libraries) "page" Example.input) = true
  ∧ match Document_init (H := Sample.libraries) "page" Example.input with
    | Ok document =>
        (∃ g, Document.get document ["regions"; "ILLUSTRATION"; "2"]
              = Ok (Some (Graphic g)))
        ∧ (∀ (self : ComposeProcessor.t),
             length ["regions"; "ILLUSTRATION"; "2"] = 3%nat →
             passes_filter self ["regions"; "ILLUSTRATION"; "2"] = true →
             (∀ composition,
                ComposeProcessor.export_path (H := Sample.libraries)
                  self document composition ["regions"; "ILLUSTRATION"; "2"]
                = Raise AttributeError)
             ∧ (["regions"; "ILLUSTRATION"; "2"]
                  ∈ Document.reading_order document →
                is_ok (ComposeProcessor.export_plain_text
                         (H := Sample.libraries) self document) = false
                ∧ is_ok (ComposeProcessor.process (H := Sample.libraries)
                           self "page" Example.input) = false))
    | Raise _ => True
    end.
Proof.
  split; [vm_compute; reflexivity|].
  destruct (Document_init (H := Sample.libraries) "page" Example.input)
    as [document|] eqn:Hdocument; [|exact I].
  apply (X6_illustration_in_plain_text (H := Sample.libraries)
           "page" Example.input document ["regions"; "ILLUSTRATION"; "2"]
           (Block.mk (Example.rectangle 5 175 60 190)) Hdocument).
  - apply list_elem_of_further, list_elem_of_here.
  - reflexivity.
Defined.

(** With no block filter, the page of the example, whose reading order names
    its illustration, is not composed. *)
Example illustration_of_the_example :
  ComposeProcessor.process (H := Sample.libraries)
    (ComposeProcessor.mk false None Str.newline) "page" Example.input
  = Raise AttributeError.
Proof. vm_compute. reflexivity. Qed.

(** ** Blocks without text *)

Lemma group_region_lines_lookup (lines : list (path * Line.t))
    (block_path : path) :
  default [] (group_region_lines lines !! block_path)
  = detected_under block_path lines.
Proof.
  unfold group_region_lines, detected_under.
  induction lines as [|[p l] lines IH] using rev_ind.
  - cbn. by rewrite lookup_empty.
  - rewrite foldl_app, filter_app. cbn [foldl fst].
    destruct (decide (take 3 p = block_path)) as [Heq|Hne].
    + rewrite Heq, lookup_insert_eq. cbn [default from_option id].
      rewrite <- Heq at 1. rewrite Heq, IH. f_equal.
      rewrite filter_cons, decide_True by done. done.
    + rewrite lookup_insert_ne by done. rewrite IH.
      rewrite filter_cons, decide_False by done. by rewrite app_nil_r.
Qed.

Section BlocksWithoutText.
Context `{Libraries}.

(** The construction of a document changes its regions only. *)
Lemma Document_init_frame (page_path : string) (input : Input.t)
    (document : Document.t region) :
  Document_init page_path input = Ok document →
  Document._input document = input
  ∧ Document._region_lines document
    = group_region_lines (Input.lines_by_path input).
Proof.
  unfold Document_init. intros Hok. bind_inv Hok as a Ha.
  set (I := λ d : Document.t region,
              Document._input d = input
              ∧ Document._region_lines d
                = group_region_lines (Input.lines_by_path input)).
  assert (∀ {A} (class_ : Document.class region A) s bp x s',
            (∀ y, Document.downcast class_ (Document.upcast class_ y) = Some y) →
            I s → Document._add class_ s bp = Ok (x, s') → I s') as Hadd.
  { intros A class_ s bp x s' Hcast Hs Hx.
    by apply add_spec in Hx as [(r & _ & _ & ->)|(_ & _ & ->)]. }
  eapply (for_each_invariant add_graphic I); [| |exact Hok].
  - intros s pb s' Hs. unfold add_graphic.
    case_bool_decide; [|by intros [= <-]].
    intros Hx. bind_inv Hx as rs Hrs. destruct rs as [x doc].
    injection Hx as <-. apply Hadd in Hrs; [exact Hrs|done|done].
  - eapply (for_each_invariant add_ocr_line I); [| |exact Ha]; [|done].
    intros s [line_path text] s' Hs. unfold add_ocr_line. intros Hx.
    bind_inv Hx as segment Hsegment.
    destruct (1 <? length (Str.split "." segment))%nat.
    + bind_inv Hx as u Hu. bind_inv Hx as table_id Hid.
      bind_inv Hx as rs Hrs. destruct rs as [x doc].
      bind_inv Hx as x' Hx'. injection Hx as <-.
      apply Hadd in Hrs; [exact Hrs|done|done].
    + bind_inv Hx as u Hu. bind_inv Hx as rs Hrs. destruct rs as [x doc].
      injection Hx as <-.
      apply Hadd in Hrs; [exact Hrs|done|done].
Qed.

End BlocksWithoutText.

(** X7.  Line detection writes 0 as the minimum confidence: the lines
    artifact of a processor begins with "meta.json", which holds the version
    1 and the minimum confidence 0, and has one more file for each detected
    line.  With the minimum confidence of line detection and confidences
    that are not negative, the document of a page answers for a block path
    under ("regions", "TEXT") as follows: with the
    text region of the block when an OCR line lies under the path, with
    [None] when neither an OCR line nor a detected line lies under it, and
    with the error that names the path and the confidences of its detected
    lines when it has detected lines but no OCR line. *)
Theorem X7_text_block_without_text `{Libraries}
    (page_path : string) (input : Input.t) (document : Document.t region)
    (block_path : path) :
  Document_init page_path input = Ok document →
  (Input.min_confidence input
   == LineDetectionProcessor._min_confidence LineDetectionProcessor.init)%Q →
  Forall (λ pl, (0 <= Line.confidence pl.2)%Q) (Input.lines_by_path input) →
  take 2 block_path = ["regions"; "TEXT"] →
  let ocr := lines_under block_path (Input.sorted_ocr input) in
  let detected := detected_under block_path (Input.lines_by_path input) in
  (∀ detected_lines : Dict.t line_key DetectedLine.t,
     ∃ files,
       LineDetectionProcessor.write_lines LineDetectionProcessor.init
         detected_lines
       = ("meta.json", LineDetectionProcessor.Meta 1 0) :: files
       ∧ length files = length detected_lines)
  ∧ (ocr ≠ [] → ∃ x, Document.get document block_path = Ok (Some (Text x)))
  ∧ (ocr = [] → detected = [] → Document.get document block_path = Ok None)
  ∧ (ocr = [] → detected ≠ [] →
     Document.get document block_path
     = Raise (RuntimeError
                (no_text_found block_path
                   (map (λ pl, Line.confidence pl.2) detected)))).
Proof.
  intros Hdocument Hmin Hconfidences Hclass ocr detected.
  change (LineDetectionProcessor._min_confidence LineDetectionProcessor.init)
    with 0%Q in Hmin.
  split.
  { intros detected_lines. eexists. split; [reflexivity|].
    apply length_map. }
  destruct (Document_init_frame _ _ _ Hdocument) as [Hinput Hlines].
  apply Document_init_holds in Hdocument as (Hsound & Htexts & Hnone & _).
  assert (Document.region_lines document block_path = detected) as Hdetected.
  { unfold Document.region_lines. rewrite Hlines.
    apply group_region_lines_lookup. }
  assert (ocr = [] → Document._regions document !! block_path = None) as Hocr.
  { intros Hnil.
    destruct (Document._regions document !! block_path) as [r|] eqn:Hr; [|done].
    pose proof (Hsound _ _ Hr) as [_ Hr'].
    destruct r as [x|x|x|x]; [| | |done].
    - by apply Htexts in Hr as (_ & _ & ?).
    - destruct Hr' as [Hr' _]. congruence.
    - congruence. }
  split; [|split].
  - intros Hsome.
    destruct (Document._regions document !! block_path) as [r|] eqn:Hr.
    + pose proof (Hsound _ _ Hr) as [_ Hr'].
      destruct r as [x|x|x|x]; [| | |done].
      * exists x. unfold Document.get. by rewrite Hr.
      * destruct Hr' as [Hr' _]. congruence.
      * congruence.
    + by apply Hnone in Hr.
  - intros Hnil Hnone'. unfold Document.get.
    by rewrite (Hocr Hnil), Hdetected, Hnone'.
  - intros Hnil Hsome. unfold Document.get.
    rewrite (Hocr Hnil), Hdetected, Hinput.
    destruct detected as [|[p l] detected'] eqn:Heq; [done|].
    assert ((p, l) ∈ Input.lines_by_path input) as Hin.
    { assert ((p, l) ∈ detected_under block_path (Input.lines_by_path input))
        as Hin by (fold detected; rewrite Heq; apply list_elem_of_here).
      unfold detected_under in Hin. by apply list_elem_of_filter in Hin as [_ ?]. }
    rewrite Forall_forall in Hconfidences. apply Hconfidences in Hin.
    cbn [map forallb fst snd] in *.
    assert (Qltb (Line.confidence l) (Input.min_confidence input) = false)
      as ->; [|done].
    apply not_true_iff_false. rewrite Qltb_lt, Hmin. by apply Qle_not_lt.
Qed.

Lemma X7_text_block_without_text_witness :
  is_ok (Document_init (H := Sample.libraries) "page" Example.unread_input) = true
  ∧ match Document_init (H := Sample.libraries) "page" Example.unread_input with
    | Ok document =>
        let block_path := ["regions"; "TEXT"; "1"] in
        let ocr := lines_under block_path (Input.sorted_ocr Example.unread_input) in
        let detected :=
          detected_under block_path (Input.lines_by_path Example.unread_input) in
        (∀ detected_lines : Dict.t line_key DetectedLine.t,
           ∃ files,
             LineDetectionProcessor.write_lines LineDetectionProcessor.init
               detected_lines
             = ("meta.json", LineDetectionProcessor.Meta 1 0) :: files
             ∧ length files = length detected_lines)
        ∧ (ocr ≠ [] → ∃ x, Document.get document block_path = Ok (Some (Text x)))
        ∧ (ocr = [] → detected = [] → Document.get document block_path = Ok None)
        ∧ (ocr = [] → detected ≠ [] →
           Document.get document block_path
           = Raise (RuntimeError
                      (no_text_found block_path
                         (map (λ pl, Line.confidence pl.2) detected))))
    | Raise _ => True
    end.
Proof.
  split; [vm_compute; reflexivity|].
  destruct (Document_init (H := Sample.libraries) "page" Example.unread_input)
    as [document|] eqn:Hdocument; [|exact I].
  apply (X7_text_block_without_text (H := Sample.libraries)
           "page" Example.unread_input document ["regions"; "TEXT"; "1"]
           Hdocument).
  - reflexivity.
  - repeat constructor; cbn; discriminate.
  - reflexivity.
Defined.

(** The page of the example whose lines have not been read is not
    composed: its text block has two detected lines and no text. *)
Example unread_block_of_the_example :
  ComposeProcessor.process (H := Sample.libraries)
    Example.text_only "page" Example.unread_input
  = Raise (RuntimeError
             (no_text_found ["regions"; "TEXT"; "1"] [9 # 10; 9 # 10]%Q)).
Proof. vm_compute. reflexivity. Qed.

(** ** The texts a table holds *)

Section CellsHeld.
Context `{Libraries}.

(** What adding one OCR line does to the regions of the document, told by
    the cell the line names. *)
Lemma add_ocr_line_cells (self self' : Document.t region)
    (line_path : path) (text : string) :
  add_ocr_line self (line_path, text) = Ok self' →
  (cell_of line_path = None
   ∧ take 2 line_path = ["regions"; "TEXT"]
   ∧ ∃ x', Document._regions self'
           = <[take 3 line_path := Text x']> (Document._regions self))
  ∨ (take 2 line_path = ["regions"; "TABULAR"]
     ∧ ∃ table division row column x x',
         cell_of line_path = Some (table, (division, row, column))
         ∧ take 2 table = ["regions"; "TABULAR"]
         ∧ (Document._regions self !! table = Some (Table x)
            ∨ (Document._regions self !! table = None
               ∧ TableRegion._texts x = ∅))
         ∧ TableRegion._texts x'
           = <[(division, row, column) :=
                 TableRegion.texts x division row column ++ [(line_path, text)]]>
               (TableRegion._texts x)
         ∧ Document._regions self'
           = <[table := Table x']> (Document._regions self)).
Proof.
  unfold add_ocr_line, cell_of. intros Hok. bind_inv Hok as segment Hsegment.
  rewrite Hsegment. rewrite take_take_2_3 in Hok.
  destruct (1 <? length (Str.split "." segment))%nat.
  - bind_inv Hok as u Hu. bind_inv Hok as table_id Hid.
    bind_inv Hok as rs Hrs. destruct rs as [x doc].
    bind_inv Hok as x' Hx'. injection Hok as <-. cbn [fst snd] in *.
    unfold assert in Hu. case_bool_decide as Hclass; [|done].
    right. split; [done|]. rewrite Hid, take_take_2_3.
    unfold TableRegion.append_cell_text in Hx'. bind_inv Hx' as ints Hints.
    rewrite Hints.
    destruct ints as [|division [|row [|column [|]]]]; try done.
    injection Hx' as Hx'.
    exists (take 2 line_path ++ [table_id]), division, row, column, x, x'.
    split; [done|]. split; [by rewrite Hclass|].
    assert (TableRegion._texts x'
            = <[(division, row, column) :=
                  TableRegion.texts x division row column ++ [(line_path, text)]]>
                (TableRegion._texts x)) as Htexts by (by rewrite <- Hx').
    apply add_spec in Hrs as [(r & Hr & Hx & ->)|(Hr & Hc & ->)]; [| |done].
    + split; [|done]. left. destruct r; try done. cbn in Hx. by injection Hx as ->.
    + split; [|split; [done|cbn; by rewrite insert_insert_eq]].
      right. split; [done|]. cbn in Hc. unfold TableRegion.init in Hc.
      bind_inv Hc as bl Hbl. bind_inv Hc as blocks Hblocks.
      by injection Hc as <-.
  - bind_inv Hok as u Hu. bind_inv Hok as rs Hrs. destruct rs as [x doc].
    injection Hok as <-. cbn [fst snd] in *.
    unfold assert in Hu. case_bool_decide as Hclass; [|done].
    left. split; [done|]. split; [done|]. eexists.
    apply add_spec in Hrs as [(r & Hr & Hx & ->)|(Hr & Hc & ->)]; [done| |done].
    cbn. by rewrite insert_insert_eq.
Qed.

Lemma cell_lines_snoc (table : path) (cell : Z * Z * Z)
    (done : list (path * string)) (line_path : path) (text : string) :
  cell_lines table cell (done ++ [(line_path, text)])
  = cell_lines table cell done
    ++ (if decide (cell_of line_path = Some (table, cell))
        then [(line_path, text)] else []).
Proof. unfold cell_lines. rewrite filter_app. reflexivity. Qed.

Lemma add_ocr_line_holds_cells (done : list (path * string))
    (self self' : Document.t region) (lt : path * string) :
  holds_cells done self →
  add_ocr_line self lt = Ok self' →
  holds_cells (done ++ [lt]) self'.
Proof.
  intros (Hsound & Hcells & Hnone & Hsome) Hok.
  pose proof (add_ocr_line_sound _ _ _ Hsound Hok) as Hsound'.
  destruct lt as [line_path text].
  apply add_ocr_line_cells in Hok
    as [(Hcell & Hclass & x' & Hregions)
       |(Hclass & table & d & r & c & x & x' & Hcell & Htable & Hx & Hx'
         & Hregions)].
  - split; [done|]. split; [|split].
    + intros K y. rewrite Hregions. intros Hy d r c.
      destruct (decide (take 3 line_path = K)) as [<-|Hkey];
        [by rewrite lookup_insert_eq in Hy|].
      rewrite lookup_insert_ne in Hy by done.
      rewrite cell_lines_snoc, Hcell, decide_False, app_nil_r by done.
      by apply Hcells.
    + intros K. rewrite Hregions. intros HK cell.
      destruct (decide (take 3 line_path = K)) as [<-|Hkey];
        [by rewrite lookup_insert_eq in HK|].
      rewrite lookup_insert_ne in HK by done.
      rewrite cell_lines_snoc, Hcell, decide_False, app_nil_r by done.
      by apply Hnone.
    + intros lt Hlt Hlt'. rewrite Hregions.
      apply elem_of_app in Hlt as [Hlt|Hlt].
      * destruct (Hsome lt Hlt Hlt') as (K & cell & HK & Hreg).
        exists K, cell. split; [done|].
        destruct (decide (take 3 line_path = K)) as [<-|Hkey];
          [by rewrite lookup_insert_eq|by rewrite lookup_insert_ne].
      * apply list_elem_of_singleton in Hlt as ->. cbn in Hlt'. congruence.
  - assert (∀ d' r' c', TableRegion.texts x d' r' c'
                        = cell_lines table (d', r', c') done) as Hx0.
    { intros d' r' c'. destruct Hx as [Hx|[Hx Hempty]]; [by apply Hcells|].
      rewrite (Hnone _ Hx). unfold TableRegion.texts.
      by rewrite Hempty, lookup_empty. }
    split; [done|]. split; [|split].
    + intros K y. rewrite Hregions. intros Hy d' r' c'.
      rewrite cell_lines_snoc, Hcell.
      destruct (decide (table = K)) as [<-|Hkey].
      * rewrite lookup_insert_eq in Hy. injection Hy as <-.
        unfold TableRegion.texts at 1. rewrite Hx'.
        destruct (decide ((d, r, c) = (d', r', c'))) as [[= <- <- <-]|Hne].
        -- rewrite lookup_insert_eq, decide_True by done.
           cbn [default from_option id]. by rewrite Hx0.
        -- rewrite lookup_insert_ne by done.
           rewrite decide_False, app_nil_r by congruence. apply Hx0.
      * rewrite lookup_insert_ne in Hy by done.
        rewrite decide_False, app_nil_r by congruence. by apply Hcells.
    + intros K. rewrite Hregions. intros HK cell.
      destruct (decide (table = K)) as [<-|Hkey];
        [by rewrite lookup_insert_eq in HK|].
      rewrite lookup_insert_ne in HK by done.
      rewrite cell_lines_snoc, Hcell, decide_False, app_nil_r by congruence.
      by apply Hnone.
    + intros lt Hlt Hlt'. rewrite Hregions.
      apply elem_of_app in Hlt as [Hlt|Hlt].
      * destruct (Hsome lt Hlt Hlt') as (K & cell & HK & Hreg).
        exists K, cell. split; [done|].
        destruct (decide (table = K)) as [<-|Hkey];
          [by rewrite lookup_insert_eq|by rewrite lookup_insert_ne].
      * apply list_elem_of_singleton in Hlt as ->. cbn [fst].
        exists table, (d, r, c). split; [done|]. by rewrite lookup_insert_eq.
Qed.

Lemma add_graphic_holds_cells (done : list (path * string))
    (self self' : Document.t region) (pb : path * Block.t) :
  holds_cells done self →
  add_graphic self pb = Ok self' →
  holds_cells done self'.
Proof.
  intros (Hsound & Hcells & Hnone & Hsome) Hok.
  pose proof (add_graphic_sound _ _ _ Hsound Hok) as Hsound'.
  unfold add_graphic in Hok.
  case_bool_decide as Hclass; [|by injection Hok as <-].
  bind_inv Hok as rs Hrs. destruct rs as [x doc]. injection Hok as <-.
  apply add_spec in Hrs as [(r & Hr & Hx & ->)|(Hr & Hc & ->)]; [done| |done].
  split; [done|]. cbn. split; [|split].
  - intros K y Hy. destruct (decide (pb.1 = K)) as [<-|Hkey].
    + by rewrite lookup_insert_eq in Hy.
    + rewrite lookup_insert_ne in Hy by done. by apply Hcells.
  - intros K HK. destruct (decide (pb.1 = K)) as [<-|Hkey].
    + by rewrite lookup_insert_eq in HK.
    + rewrite lookup_insert_ne in HK by done. by apply Hnone.
  - intros lt Hlt Hlt'. destruct (Hsome lt Hlt Hlt') as (K & cell & HK & Hreg).
    exists K, cell. split; [done|].
    destruct (decide (pb.1 = K)) as [<-|Hkey];
      [by rewrite lookup_insert_eq|by rewrite lookup_insert_ne].
Qed.

Lemma Document_init_holds_cells (page_path : string) (input : Input.t)
    (document : Document.t region) :
  Document_init page_path input = Ok document →
  holds_cells (Input.sorted_ocr input) document.
Proof.
  unfold Document_init. intros Hok. bind_inv Hok as a Ha.
  eapply (for_each_invariant add_graphic (holds_cells (Input.sorted_ocr input)));
    [| |exact Hok].
  - intros s x s'. apply add_graphic_holds_cells.
  - apply (for_each_prefix add_ocr_line holds_cells
             (λ done s x s', add_ocr_line_holds_cells done s s' x) _ [] _ _) in Ha;
      [done|].
    split; [|split; [|split]].
    + intros key r. cbn. by rewrite lookup_empty.
    + intros K x. cbn. by rewrite lookup_empty.
    + done.
    + intros lt Hlt. by apply elem_of_nil in Hlt.
Qed.

End CellsHeld.

(** X8.  In a constructed document every OCR line under
    ("regions", "TABULAR") names a table and a cell, and the document has
    that table.  A table holds in each cell exactly the OCR lines that name
    the table and the cell, in the order of the OCR results, and every cell
    that has a line lies on the grid of the table: its division, its row and
    its column are among those the text and the Page XML of the table are
    made from, so that no line of a table is left out for want of a place. *)
Theorem X8_table_holds_its_cells `{Libraries}
    (page_path : string) (input : Input.t) (document : Document.t region) :
  Document_init page_path input = Ok document →
  (∀ lt, lt ∈ Input.sorted_ocr input →
         take 2 lt.1 = ["regions"; "TABULAR"] →
         ∃ table cell x,
           cell_of lt.1 = Some (table, cell)
           ∧ Document._regions document !! table = Some (Table x))
  ∧ (∀ table x,
       Document._regions document !! table = Some (Table x) →
       ∀ division row column,
         let lines := cell_lines table (division, row, column)
                        (Input.sorted_ocr input) in
         TableRegion.texts x division row column = lines
         ∧ (lines ≠ [] →
            division ∈ TableRegion._divisions x
            ∧ row ∈ TableRegion.rows x division
            ∧ column ∈ TableRegion._columns x)).
Proof.
  intros Hdocument.
  apply Document_init_holds_cells in Hdocument as (Hsound & Hcells & _ & Hsome).
  split.
  - intros lt Hlt Hclass.
    destruct (Hsome lt Hlt Hclass) as (table & cell & Hcell & [r Hr]).
    exists table, cell.
    assert (take 2 table = ["regions"; "TABULAR"]) as Htable.
    { unfold cell_of in Hcell.
      destruct (index (take 3 lt.1) 2) as [segment|]; [|done].
      destruct (1 <? length _)%nat; [|done].
      destruct (index _ 0) as [table_id|]; [|done].
      destruct (map_result _ _) as [[|? [|? [|? [|]]]]|]; try done.
      injection Hcell as <- _. rewrite take_take_2_3, Hclass. done. }
    pose proof (Hsound _ _ Hr) as [_ Hr'].
    destruct r as [x|x|x|x]; [| | |done].
    + destruct Hr' as [Hr' _]. congruence.
    + by exists x.
    + congruence.
  - intros table x Hx division row column lines.
    pose proof (Hcells _ _ Hx division row column) as Htexts. fold lines in Htexts.
    split; [done|]. intros Hlines.
    apply Hsound in Hx as (_ & _ & Hgrid). apply Hgrid.
    unfold TableRegion.texts in Htexts.
    destruct (TableRegion._texts x !! (division, row, column)); [done|].
    cbn in Htexts. congruence.
Qed.

Lemma X8_table_holds_its_cells_witness :
  is_ok (Document_init (H := Sample.libraries) "page" Example.table_input) = true
  ∧ match Document_init (H := Sample.libraries) "page" Example.table_input with
    | Ok document =>
        (∀ lt, lt ∈ Input.sorted_ocr Example.table_input →
               take 2 lt.1 = ["regions"; "TABULAR"] →
               ∃ table cell x,
                 cell_of lt.1 = Some (table, cell)
                 ∧ Document._regions document !! table = Some (Table x))
        ∧ (∀ table x,
             Document._regions document !! table = Some (Table x) →
             ∀ division row column,
               let lines := cell_lines table (division, row, column)
                              (Input.sorted_ocr Example.table_input) in
               TableRegion.texts x division row column = lines
               ∧ (lines ≠ [] →
                  division ∈ TableRegion._divisions x
                  ∧ row ∈ TableRegion.rows x division
                  ∧ column ∈ TableRegion._columns x))
    | Raise _ => True
    end.
Proof.
  split; [vm_compute; reflexivity|].
  destruct (Document_init (H := Sample.libraries) "page" Example.table_input)
    as [document|] eqn:Hdocument; [|exact I].
  exact (X8_table_holds_its_cells (H := Sample.libraries)
           "page" Example.table_input document Hdocument).
Defined.

(** The table of the example as plain text. *)
Example table_of_the_example :
  ComposeProcessor.process (H := Sample.libraries)
    (ComposeProcessor.mk false None Str.newline) "page" Example.table_input
  = Ok [("page.txt",
         PlainText
           (Str.join Str.newline ["Name | Year"; "---"; "Ada | 1843"]
              +:+ Str.newline))].
Proof. vm_compute. reflexivity. Qed.

(** ** Detected lines and free lines *)

Section OrderedDict.
Context `{EqDecision K} {V : Type}.
Implicit Types (d : Dict.t K V) (k : K) (v : V).

Lemma setitem_elem_of d k v k' v' :
  (k', v') ∈ setitem d k v → (k', v') = (k, v) ∨ (k', v') ∈ d.
Proof.
  induction d as [|[k0 v0] d IH]; cbn.
  - intros Hin. apply list_elem_of_singleton in Hin. by left.
  - destruct (decide (k0 = k)) as [->|Hne]; intros Hin.
    + apply elem_of_cons in Hin as [Hin|Hin]; [by left|].
      right. by apply list_elem_of_further.
    + apply elem_of_cons in Hin as [Hin|Hin].
      * right. rewrite Hin. apply list_elem_of_here.
      * destruct (IH Hin) as [?|?]; [by left|].
        right. by apply list_elem_of_further.
Qed.

Lemma setitem_fresh d k v : k ∉ d.*1 → setitem d k v = d ++ [(k, v)].
Proof.
  induction d as [|[k0 v0] d IH]; cbn; [done|]. intros Hnot.
  apply not_elem_of_cons in Hnot as [Hne Hnot].
  rewrite decide_False by done. by rewrite IH.
Qed.

Lemma ordered_dict_snoc (items : list (K * V)) k v :
  ordered_dict (items ++ [(k, v)]) = setitem (ordered_dict items) k v.
Proof. unfold ordered_dict. by rewrite foldl_app. Qed.

Lemma ordered_dict_elem_of (items : list (K * V)) k v :
  (k, v) ∈ ordered_dict items → (k, v) ∈ items.
Proof.
  induction items as [|[k0 v0] items IH] using rev_ind.
  - done.
  - rewrite ordered_dict_snoc. intros Hin.
    apply setitem_elem_of in Hin as [->|Hin].
    + apply elem_of_app. right. apply list_elem_of_here.
    + apply elem_of_app. left. by apply IH.
Qed.

(** Items with distinct keys are kept as they are. *)
Lemma ordered_dict_NoDup (items : list (K * V)) :
  NoDup items.*1 → ordered_dict items = items.
Proof.
  induction items as [|[k0 v0] items IH] using rev_ind; [done|].
  rewrite fmap_app. intros Hnodup.
  apply NoDup_app in Hnodup as (Hnodup & Hnot & _).
  rewrite ordered_dict_snoc, IH by done. apply setitem_fresh.
  intros Hin. apply (Hnot k0 Hin). apply list_elem_of_here.
Qed.

Lemma setitem_lookup d k v : setitem d k v !! k = Some v.
Proof.
  unfold lookup, dict_lookup.
  induction d as [|[k0 v0] d IH]; cbn.
  - by rewrite decide_True.
  - destruct (decide (k0 = k)) as [->|Hne]; cbn.
    + by rewrite decide_True.
    + by rewrite decide_False.
Qed.

Lemma setitem_lookup_is_Some d k v k' :
  is_Some (d !! k') → is_Some (setitem d k v !! k').
Proof.
  unfold lookup, dict_lookup.
  induction d as [|[k0 v0] d IH]; cbn; [by intros [? ?]|].
  destruct (decide (k0 = k)) as [->|Hne]; cbn.
  - by destruct (decide (k = k')).
  - by destruct (decide (k0 = k')).
Qed.

(** Every key of the items is a key of the dictionary. *)
Lemma ordered_dict_is_Some (items : list (K * V)) k v :
  (k, v) ∈ items → is_Some (ordered_dict items !! k).
Proof.
  induction items as [|[k0 v0] items IH] using rev_ind.
  - intros Hin. by apply elem_of_nil in Hin.
  - rewrite ordered_dict_snoc. intros Hin.
    apply elem_of_app in Hin as [Hin|Hin].
    + by apply setitem_lookup_is_Some, IH.
    + apply list_elem_of_singleton in Hin as [= -> ->].
      rewrite setitem_lookup. by eexists.
Qed.

Lemma dict_lookup_NoDup (items : list (K * V)) k v :
  NoDup items.*1 → (k, v) ∈ items → (items : Dict.t K V) !! k = Some v.
Proof.
  unfold lookup, dict_lookup.
  induction items as [|[k0 v0] items IH]; cbn.
  - intros _ Hin. by apply elem_of_nil in Hin.
  - intros Hnodup Hin. apply NoDup_cons in Hnodup as [Hnot Hnodup].
    apply elem_of_cons in Hin as [[= -> ->]|Hin].
    + by rewrite decide_True.
    + rewrite decide_False; [by apply IH|]. intros ->. apply Hnot.
      apply list_elem_of_fmap. by exists (k, v).
Qed.

End OrderedDict.

Lemma NoDup_fmap_eq {A B} (f : A → B) (l : list A) (x y : A) :
  NoDup (f <$> l) → x ∈ l → y ∈ l → f x = f y → x = y.
Proof.
  induction l as [|z l IH]; cbn; intros Hnodup Hx Hy Heq.
  - by apply elem_of_nil in Hx.
  - apply NoDup_cons in Hnodup as [Hnot Hnodup].
    apply elem_of_cons in Hx as [->|Hx]; apply elem_of_cons in Hy as [->|Hy].
    + done.
    + exfalso. apply Hnot. rewrite Heq. by apply list_elem_of_fmap_2.
    + exfalso. apply Hnot. rewrite <- Heq. by apply list_elem_of_fmap_2.
    + by apply IH.
Qed.

Lemma elem_of_imap_triple {A} (parts : path) (g : nat → nat) (lines : list A)
    (x : path * nat * A) :
  x ∈ imap (λ n line, (parts, g n, line)) lines
  ↔ ∃ n, x = (parts, g n, default x.2 (lines !! n)) ∧ is_Some (lines !! n).
Proof.
  revert g. induction lines as [|l lines IH]; intros g; cbn.
  - split; [by intros ?%elem_of_nil|]. intros (n & _ & [? Hn]).
    by rewrite lookup_nil in Hn.
  - rewrite elem_of_cons, (IH (g ∘ S)). split.
    + intros [->|(n & Hx & Hn)]; [by exists 0%nat; split; [|eexists]|].
      by exists (S n).
    + intros ([|n] & Hx & Hn); [left|right; by exists n].
      by rewrite Hx.
Qed.

Lemma elem_of_concat {A} (x : A) (ls : list (list A)) :
  x ∈ concat ls ↔ ∃ l, x ∈ l ∧ l ∈ ls.
Proof.
  induction ls as [|l ls IH]; cbn.
  - split; [by intros ?%elem_of_nil|]. by intros (l & _ & ?%elem_of_nil).
  - rewrite elem_of_app, IH. split.
    + intros [Hx|(l' & Hx & Hl')].
      * exists l. split; [done|apply list_elem_of_here].
      * exists l'. split; [done|by apply list_elem_of_further].
    + intros (l' & Hx & Hl'). apply elem_of_cons in Hl' as [->|Hl'].
      * by left.
      * right. by exists l'.
Qed.

Lemma NoDup_imap_triple {A} (parts : path) (lines : list A) :
  ∀ g : nat → nat, (∀ n m, g n = g m → n = m) →
    NoDup (imap (λ n line, (parts, g n, line)) lines).
Proof.
  induction lines as [|l lines IH]; intros g Hg; cbn; [constructor|].
  constructor.
  - intros Hin. apply (elem_of_imap_triple parts (g ∘ S)) in Hin
      as (n & [= Heq _] & _).
    by apply Hg in Heq.
  - apply (IH (g ∘ S)). intros n m Heq. apply Hg in Heq. lia.
Qed.

Lemma elem_of_all_lines (blocks : list (path * list DetectedLine.t))
    (parts : path) (n : nat) (line : DetectedLine.t) :
  (parts, n, line) ∈ all_lines blocks
  ↔ ∃ lines, (parts, lines) ∈ blocks ∧ lines !! n = Some line.
Proof.
  unfold all_lines. rewrite elem_of_concat. split.
  - intros (l & Hin & Hl). apply list_elem_of_fmap in Hl as ([parts' lines] & -> & Hpl).
    cbn [fst snd] in Hin.
    apply (elem_of_imap_triple parts' id) in Hin as (m & [= -> -> Hline] & [l' Hm]).
    exists lines. split; [done|]. rewrite Hm in Hline |- *. cbn in Hline. congruence.
  - intros (lines & Hin & Hn). eexists. split; [|apply list_elem_of_fmap; by eexists].
    cbn [fst snd]. apply (elem_of_imap_triple parts id).
    exists n. rewrite Hn. split; [done|by eexists].
Qed.

Lemma key_of_inj (parts parts' : path) (n n' : nat) :
  (3 ≤ length parts)%nat → (3 ≤ length parts')%nat →
  key_of parts n = key_of parts' n' → take 3 parts = take 3 parts' ∧ n = n'.
Proof.
  destruct parts as [|a [|b [|c rest]]]; cbn; try lia.
  destruct parts' as [|a' [|b' [|c' rest']]]; cbn; try lia.
  intros _ _. unfold key_of. cbn. by intros [= -> -> -> ->].
Qed.

Section FilingLines.

(** The loop over the lines of one block. *)
Lemma file_block_lines (parts : path) (a b c : string)
    (lines : list DetectedLine.t) :
  parts !! 0%nat = Some a → parts !! 1%nat = Some b → parts !! 2%nat = Some c →
  ∀ (g : nat → nat) acc,
    foldl (LineDetectionProcessor.file_line a b c) acc
          (imap (λ line_id line, (g line_id, line)) lines)
    = (foldl (λ d kv, setitem d kv.1 kv.2) acc.1
             (filed <$> filter agrees (imap (λ n line, (parts, g n, line)) lines)),
       acc.2 ++ (put_aside
                   <$> filter (λ x, ¬ agrees x)
                              (imap (λ n line, (parts, g n, line)) lines))).
Proof.
  intros Ha Hb Hc.
  assert (take 2 parts = [a; b]) as Htake.
  { destruct parts as [|a' [|b' [|c' rest]]]; try done.
    cbn in Ha, Hb. by injection Ha as ->; injection Hb as ->. }
  assert (∀ n, key_of parts n = (a, b, c, n)) as Hkey.
  { intros n. unfold key_of. by rewrite Ha, Hb, Hc. }
  induction lines as [|line lines IH]; intros g [detected free].
  - cbn. by rewrite app_nil_r.
  - cbn [imap foldl]. rewrite (IH (g ∘ S)).
    unfold LineDetectionProcessor.file_line. cbn [fst snd].
    destruct (decide (agrees (parts, g 0%nat, line))) as [Hag|Hag].
    + rewrite (filter_cons_True agrees) by done.
      rewrite (filter_cons_False (λ x, ¬ agrees x)) by (intros Hn; by apply Hn).
      unfold agrees in Hag. cbn [fst snd] in Hag. rewrite Htake in Hag.
      rewrite decide_False by (intros Hn; by apply Hn).
      cbn [fst snd fmap list_fmap foldl]. unfold filed at 2. cbn [fst snd].
      by rewrite Hkey.
    + rewrite (filter_cons_False agrees) by done.
      rewrite (filter_cons_True (λ x, ¬ agrees x)) by done.
      unfold agrees in Hag. cbn [fst snd] in Hag. rewrite Htake in Hag.
      rewrite decide_True by done.
      cbn [fst snd fmap list_fmap]. unfold put_aside at 2. cbn [fst snd].
      by rewrite <- (assoc_L (++)).
Qed.

(** The loop over the blocks. *)
Lemma file_blocks (blocks : list (path * list DetectedLine.t)) :
  Forall (λ pl, (3 ≤ length pl.1)%nat) blocks →
  ∀ acc,
    for_each blocks LineDetectionProcessor.file_block acc
    = Ok (foldl (λ d kv, setitem d kv.1 kv.2) acc.1
                (filed <$> filter agrees (all_lines blocks)),
          acc.2 ++ (put_aside <$> filter (λ x, ¬ agrees x) (all_lines blocks))).
Proof.
  induction 1 as [|[parts lines] blocks Hparts _ IH]; intros [detected free].
  - cbn. by rewrite app_nil_r.
  - cbn [fst] in Hparts. cbn [for_each].
    destruct parts as [|a [|b [|c rest]]]; cbn in Hparts; try lia.
    pose proof (file_block_lines (a :: b :: c :: rest) a b c lines
                  eq_refl eq_refl eq_refl (λ n, n) (detected, free)) as Hlines.
    cbn beta in Hlines.
    rewrite (f_equal Ok Hlines
             : LineDetectionProcessor.file_block (detected, free)
                 (a :: b :: c :: rest, lines) = _).
    cbn [mbind result_bind]. rewrite IH. unfold all_lines. cbn [map concat fst snd].
    rewrite !filter_app, !fmap_app, foldl_app. cbn [fst snd].
    by rewrite (assoc_L (++)).
Qed.

Lemma file_lines_lengths (blocks : list (path * list DetectedLine.t)) r :
  LineDetectionProcessor.file_lines blocks = Ok r →
  Forall (λ pl, (3 ≤ length pl.1)%nat) blocks.
Proof.
  unfold LineDetectionProcessor.file_lines.
  apply (for_each_Ok_Forall LineDetectionProcessor.file_block).
  intros s [parts lines] s'. unfold LineDetectionProcessor.file_block, index.
  destruct parts as [|a [|b [|c rest]]]; cbn; try done. lia.
Qed.

Lemma all_lines_NoDup (blocks : list (path * list DetectedLine.t)) :
  NoDup (map (λ pl, take 3 pl.1) blocks) → NoDup (all_lines blocks).
Proof.
  unfold all_lines.
  induction blocks as [|[parts lines] blocks IH]; cbn [map concat fst snd];
    [constructor|].
  intros Hnodup. apply NoDup_cons in Hnodup as [Hnot Hnodup].
  apply NoDup_app. split; [|split].
  - by apply (NoDup_imap_triple parts lines id).
  - intros [[p n] x] Hin Hin'.
    apply (elem_of_imap_triple parts id) in Hin as (m & [= -> _ _] & _).
    apply (elem_of_all_lines blocks) in Hin' as (lines' & Hb & _).
    apply Hnot. apply list_elem_of_fmap. by exists (parts, lines').
  - by apply IH.
Qed.

Lemma all_lines_keys_NoDup (blocks : list (path * list DetectedLine.t)) :
  Forall (λ pl, (3 ≤ length pl.1)%nat) blocks →
  NoDup (map (λ pl, take 3 pl.1) blocks) →
  NoDup (filed <$> all_lines blocks).*1.
Proof.
  intros Hlen Hnodup. rewrite <- list_fmap_compose.
  apply NoDup_fmap_2_strong; [|by apply all_lines_NoDup].
  intros [[p n] x] [[p' n'] x'] Hin Hin'. unfold filed. cbn.
  intros Hkey.
  apply elem_of_all_lines in Hin as (lines & Hb & Hn).
  apply elem_of_all_lines in Hin' as (lines' & Hb' & Hn').
  rewrite Forall_forall in Hlen.
  apply key_of_inj in Hkey as [Htake ->];
    [|apply (Hlen _ Hb)|apply (Hlen _ Hb')].
  pose proof (NoDup_fmap_eq (λ pl : path * list DetectedLine.t, take 3 pl.1)
                _ _ _ Hnodup Hb Hb' Htake) as [= -> ->].
  congruence.
Qed.

End FilingLines.

Lemma filter_lengths {A} (P : A → Prop) `{∀ x, Decision (P x)} (l : list A) :
  (length (filter P l) + length (filter (λ x, ¬ P x) l) = length l)%nat.
Proof.
  induction l as [|x l IH]; [done|]. rewrite !filter_cons.
  destruct (decide (P x)) as [HP|HP].
  - rewrite decide_False by (intros Hn; by apply Hn). cbn. lia.
  - rewrite decide_True by done. cbn. lia.
Qed.

(** X9.  Line detection files every line of every block in exactly one of
    two places.  A line whose predicted path is not the namespace and class
    of its block is put aside as a free line, with its predicted path; the
    free lines keep the order of the blocks and of the lines.  A line that
    agrees with its block is filed under the namespace, the class and the id
    of the block followed by the place of the line among the detected lines
    of the block, counted from 0 and counting the free lines as well.  The
    names are taken from the first three segments of the block path: a block
    path of fewer segments makes the call fail, and when no two blocks share
    their first three segments no two lines share a name, so that no line is
    lost. *)
Theorem X9_detected_and_free_lines
    (blocks : Dict.t path (list DetectedLine.t))
    (detected : Dict.t line_key DetectedLine.t)
    (free : list (path * DetectedLine.t)) :
  LineDetectionProcessor.file_lines blocks = Ok (detected, free) →
  Forall (λ pl, (3 ≤ length pl.1)%nat) blocks
  ∧ free = put_aside <$> filter (λ x, ¬ agrees x) (all_lines blocks)
  ∧ detected = ordered_dict (filed <$> filter agrees (all_lines blocks))
  ∧ (∀ k line,
       (k, line) ∈ detected →
       ∃ parts lines,
         (parts, lines) ∈ blocks
         ∧ lines !! k.2 = Some line
         ∧ DetectedLine.predicted_path line = take 2 parts
         ∧ k = key_of parts k.2)
  ∧ (∀ parts lines n line,
       (parts, lines) ∈ blocks →
       lines !! n = Some line →
       DetectedLine.predicted_path line = take 2 parts →
       is_Some (detected !! key_of parts n))
  ∧ (NoDup (map (λ pl, take 3 pl.1) blocks) →
     (length detected + length free = length (all_lines blocks))%nat
     ∧ ∀ parts lines n line,
         (parts, lines) ∈ blocks →
         lines !! n = Some line →
         DetectedLine.predicted_path line = take 2 parts →
         detected !! key_of parts n = Some line).
Proof.
  intros Hok. pose proof (file_lines_lengths _ _ Hok) as Hlen.
  unfold LineDetectionProcessor.file_lines in Hok.
  rewrite (file_blocks blocks Hlen ([], [])) in Hok. cbn [fst snd app] in Hok.
  fold (ordered_dict (filed <$> filter agrees (all_lines blocks))) in Hok.
  injection Hok as <- <-.
  assert (∀ parts lines n line,
            (parts, lines) ∈ blocks → lines !! n = Some line →
            DetectedLine.predicted_path line = take 2 parts →
            (key_of parts n, line) ∈ filed <$> filter agrees (all_lines blocks))
    as Hfiled.
  { intros parts lines n line Hb Hn Hag. apply list_elem_of_fmap.
    exists (parts, n, line). split; [done|]. apply list_elem_of_filter.
    split; [done|]. apply elem_of_all_lines. by exists lines. }
  split; [done|]. split; [done|]. split; [done|]. split; [|split].
  - intros k line Hin. apply ordered_dict_elem_of in Hin.
    apply list_elem_of_fmap in Hin as ([[parts n] x] & [= -> ->] & Hin).
    apply list_elem_of_filter in Hin as [Hag Hin].
    apply elem_of_all_lines in Hin as (lines & Hb & Hn).
    by exists parts, lines.
  - intros parts lines n line Hb Hn Hag.
    eapply ordered_dict_is_Some. by eapply Hfiled.
  - intros Hnodup.
    assert (NoDup (filed <$> filter agrees (all_lines blocks)).*1) as Hkeys.
    { eapply sublist_NoDup; [by apply all_lines_keys_NoDup|].
      apply fmap_sublist, fmap_sublist, sublist_filter. }
    rewrite (ordered_dict_NoDup _ Hkeys). split.
    + rewrite !length_fmap. apply filter_lengths.
    + intros parts lines n line Hb Hn Hag.
      apply dict_lookup_NoDup; [done|]. by eapply Hfiled.
Qed.

Lemma X9_detected_and_free_lines_witness :
  ∃ detected free,
    LineDetectionProcessor.file_lines detected_blocks = Ok (detected, free)
    ∧ Forall (λ pl, (3 ≤ length pl.1)%nat) detected_blocks
    ∧ free = put_aside <$> filter (λ x, ¬ agrees x) (all_lines detected_blocks)
    ∧ detected
      = ordered_dict (filed <$> filter agrees (all_lines detected_blocks))
    ∧ (∀ k line,
         (k, line) ∈ detected →
         ∃ parts lines,
           (parts, lines) ∈ detected_blocks
           ∧ lines !! k.2 = Some line
           ∧ DetectedLine.predicted_path line = take 2 parts
           ∧ k = key_of parts k.2)
    ∧ (∀ parts lines n line,
         (parts, lines) ∈ detected_blocks →
         lines !! n = Some line →
         DetectedLine.predicted_path line = take 2 parts →
         is_Some (detected !! key_of parts n))
    ∧ (NoDup (map (λ pl, take 3 pl.1) detected_blocks) →
       (length detected + length free = length (all_lines detected_blocks))%nat
       ∧ ∀ parts lines n line,
           (parts, lines) ∈ detected_blocks →
           lines !! n = Some line →
           DetectedLine.predicted_path line = take 2 parts →
           detected !! key_of parts n = Some line).
Proof.
  exists [(("regions", "TEXT", "1", 0%nat),
           DetectedLine.mk ["regions"; "TEXT"] "{}");
          (("regions", "TABULAR", "3.0.0.0", 0%nat),
           DetectedLine.mk ["regions"; "TABULAR"] "{}")],
         [(["regions"; "ILLUSTRATION"],
           DetectedLine.mk ["regions"; "ILLUSTRATION"] "{}")].
  split; [vm_compute; reflexivity|].
  apply X9_detected_and_free_lines. vm_compute. reflexivity.
Defined.

(** The lines artifact of the example: the minimum confidence the
    composition will read is 0, and the lines are named after their blocks. *)
Example lines_artifact_of_the_example :
  match LineDetectionProcessor.file_lines detected_blocks with
  | Ok (detected, _) =>
      (LineDetectionProcessor.write_lines LineDetectionProcessor.init detected).*1
  | Raise _ => []
  end
  = ["meta.json"; "regions/TEXT/1/0.json"; "regions/TABULAR/3.0.0.0/0.json"].
Proof. vm_compute. reflexivity. Qed.

(** ** The plain text of the entries of the reading order *)

Lemma dict_of_items_lookup_None `{Countable K} {V} (items : list (K * V)) (k : K) :
  k ∉ items.*1 → dict_of_items items !! k = None.
Proof.
  induction items as [|[k' v'] items IH] using rev_ind; intros Hnot.
  - unfold dict_of_items. cbn. apply lookup_empty.
  - rewrite dict_of_items_snoc. rewrite fmap_app in Hnot.
    apply not_elem_of_app in Hnot as [Hnot Hne].
    rewrite lookup_insert_ne; [by apply IH|]. intros ->. apply Hne.
    apply list_elem_of_here.
Qed.

Lemma dict_lookup_elem_of `{EqDecision K} {V} (items : list (K * V)) (k : K) (v : V) :
  (items : Dict.t K V) !! k = Some v → (k, v) ∈ items.
Proof.
  unfold lookup, dict_lookup.
  induction items as [|[k0 v0] items IH]; cbn; [done|].
  destruct (decide (k0 = k)) as [->|Hne].
  - intros [= ->]. apply list_elem_of_here.
  - intros Hin. by apply list_elem_of_further, IH.
Qed.

Section PlainTextEntries.
Context `{Libraries}.

(** The text region of a block that has OCR lines. *)
Lemma held_text_region (ocr : list (path * string))
    (document : Document.t region) (block_path : path) :
  holds_texts ocr document →
  take 2 block_path = ["regions"; "TEXT"] →
  lines_under block_path ocr ≠ [] →
  ∃ x, Document.get document block_path = Ok (Some (Text x))
       ∧ TextRegion._order x = (lines_under block_path ocr).*1
       ∧ TextRegion._line_texts x = dict_of_items (lines_under block_path ocr).
Proof.
  intros (Hsound & Htexts & Hnone & _) Hclass Hlines.
  destruct (Document._regions document !! block_path) as [r|] eqn:Hr;
    [|by apply Hnone in Hr].
  pose proof (Hsound _ _ Hr) as [_ Hr'].
  destruct r as [x|x|x|x]; [| | |done].
  - exists x. apply Htexts in Hr as Hx. destruct Hx as (Ho & Ht & _).
    split; [|done]. unfold Document.get. by rewrite Hr.
  - destruct Hr' as [Hr' _]. congruence.
  - congruence.
Qed.

Lemma lines_under_NoDup (ocr : list (path * string)) (block_path : path) :
  NoDup ocr.*1 → NoDup (lines_under block_path ocr).*1.
Proof.
  intros Hnodup. eapply sublist_NoDup; [exact Hnodup|].
  apply fmap_sublist, sublist_filter.
Qed.

Lemma export_text_block (self : ComposeProcessor.t) (ocr : list (path * string))
    (document : Document.t region) (composition : PlainTextComposition.t)
    (p : path) :
  holds_texts ocr document → NoDup ocr.*1 →
  passes_filter self p = true →
  take 2 p = ["regions"; "TEXT"] →
  length p = 3%nat →
  lines_under p ocr ≠ [] →
  ComposeProcessor.export_path self document composition p
  = Ok (PlainTextComposition.append_all composition (lines_under p ocr)).
Proof.
  intros Hdocument Hnodup Hfilter Hclass Hlen Hlines.
  destruct (held_text_region ocr document p Hdocument Hclass Hlines)
    as (x & Hget & Horder & Htexts).
  unfold ComposeProcessor.export_path. unfold passes_filter in Hfilter.
  assert (match ComposeProcessor._block_filter self with
          | Some block_filter => negb (block_filter p)
          | None => false
          end = false) as ->.
  { destruct (ComposeProcessor._block_filter self); [by rewrite Hfilter|done]. }
  rewrite (proj2 (Nat.eqb_eq _ _) Hlen), Hget. cbn [mbind result_bind].
  unfold export_plain_text_region, TextRegion.export_plain_text_region.
  rewrite Horder. apply export_plain_text_lines.
  intros q t Hin. rewrite Htexts. apply dict_of_items_lookup; [|done].
  by apply lines_under_NoDup.
Qed.

Lemma export_text_line (self : ComposeProcessor.t) (ocr : list (path * string))
    (document : Document.t region) (composition : PlainTextComposition.t)
    (p : path) :
  holds_texts ocr document → NoDup ocr.*1 →
  passes_filter self p = true →
  take 2 p = ["regions"; "TEXT"] →
  length p = 4%nat →
  lines_under (take 3 p) ocr ≠ [] →
  ComposeProcessor.export_path self document composition p
  = match (ocr : Dict.t path string) !! p with
    | Some text => Ok (PlainTextComposition.append_text composition p text)
    | None => Raise KeyError
    end.
Proof.
  intros Hdocument Hnodup Hfilter Hclass Hlen Hlines.
  assert (take 2 (take 3 p) = ["regions"; "TEXT"]) as Hclass'
    by (by rewrite take_take_2_3).
  destruct (held_text_region ocr document (take 3 p) Hdocument Hclass' Hlines)
    as (x & Hget & Horder & Htexts).
  unfold ComposeProcessor.export_path. unfold passes_filter in Hfilter.
  assert (match ComposeProcessor._block_filter self with
          | Some block_filter => negb (block_filter p)
          | None => false
          end = false) as ->.
  { destruct (ComposeProcessor._block_filter self); [by rewrite Hfilter|done]. }
  rewrite Hlen. cbn [Nat.eqb]. rewrite Hget. cbn [mbind result_bind].
  unfold export_plain_text_line, TextRegion.export_plain_text_line, getitem.
  rewrite Htexts.
  destruct ((ocr : Dict.t path string) !! p) as [text|] eqn:Hp.
  - apply dict_lookup_elem_of in Hp.
    rewrite (dict_of_items_lookup _ p text); [done| |].
    + by apply lines_under_NoDup.
    + unfold lines_under. by apply list_elem_of_filter.
  - rewrite dict_of_items_lookup_None; [done|]. intros Hin.
    apply list_elem_of_fmap in Hin as ([q t] & -> & Hin).
    apply list_elem_of_filter in Hin as [_ Hin]. cbn [fst] in Hp.
    by rewrite (dict_lookup_NoDup ocr q t Hnodup Hin) in Hp.
Qed.

End PlainTextEntries.

(** X10.  What an entry of the reading order under ("regions", "TEXT") adds
    to the plain text of a constructed document, when the block filter lets
    it through and no line occurs twice in the OCR results.  A block path
    that has OCR lines adds the texts of these lines, in the order of the OCR
    results.  A line path of four segments whose block has OCR lines adds the
    text of the line if the line has one, and otherwise stops the export with
    KeyError: a line that was detected but not read cannot be named in the
    reading order of a block that was read. *)
Theorem X10_plain_text_of_an_entry `{Libraries}
    (self : ComposeProcessor.t) (page_path : string) (input : Input.t)
    (document : Document.t region) (composition : PlainTextComposition.t)
    (p : path) :
  Document_init page_path input = Ok document →
  NoDup (Input.sorted_ocr input).*1 →
  passes_filter self p = true →
  take 2 p = ["regions"; "TEXT"] →
  let ocr := Input.sorted_ocr input in
  (length p = 3%nat → lines_under p ocr ≠ [] →
   ComposeProcessor.export_path self document composition p
   = Ok (PlainTextComposition.append_all composition (lines_under p ocr)))
  ∧ (length p = 4%nat → lines_under (take 3 p) ocr ≠ [] →
     (∀ text, (p, text) ∈ ocr →
        ComposeProcessor.export_path self document composition p
        = Ok (PlainTextComposition.append_text composition p text))
     ∧ (p ∉ ocr.*1 →
        ComposeProcessor.export_path self document composition p
        = Raise KeyError)).
Proof.
  intros Hdocument Hnodup Hfilter Hclass ocr.
  apply Document_init_holds in Hdocument. split.
  - intros Hlen Hlines. by apply export_text_block.
  - intros Hlen Hlines.
    pose proof (export_text_line self ocr document composition p
                  Hdocument Hnodup Hfilter Hclass Hlen Hlines) as Hline.
    split.
    + intros text Hin.
      by rewrite (dict_lookup_NoDup ocr p text Hnodup Hin) in Hline.
    + intros Hnot.
      destruct ((ocr : Dict.t path string) !! p) as [text|] eqn:Hp; [|done].
      apply dict_lookup_elem_of in Hp. exfalso. apply Hnot.
      apply list_elem_of_fmap. by exists (p, text).
Qed.

Lemma X10_plain_text_of_an_entry_witness :
  is_ok (Document_init (H := Sample.libraries) "page" Example.input) = true
  ∧ match Document_init (H := Sample.libraries) "page" Example.input with
    | Ok document =>
        let p := ["regions"; "TEXT"; "1"] in
        let composition := PlainTextComposition.init Str.newline Str.newline in
        let ocr := Input.sorted_ocr Example.input in
        (length p = 3%nat → lines_under p ocr ≠ [] →
         ComposeProcessor.export_path (H := Sample.libraries)
           Example.text_only document composition p
         = Ok (PlainTextComposition.append_all composition (lines_under p ocr)))
        ∧ (length p = 4%nat → lines_under (take 3 p) ocr ≠ [] →
           (∀ text, (p, text) ∈ ocr →
              ComposeProcessor.export_path (H := Sample.libraries)
                Example.text_only document composition p
              = Ok (PlainTextComposition.append_text composition p text))
           ∧ (p ∉ ocr.*1 →
              ComposeProcessor.export_path (H := Sample.libraries)
                Example.text_only document composition p
              = Raise KeyError))
    | Raise _ => True
    end.
Proof.
  split; [vm_compute; reflexivity|].
  destruct (Document_init (H := Sample.libraries) "page" Example.input)
    as [document|] eqn:Hdocument; [|exact I].
  apply (X10_plain_text_of_an_entry (H := Sample.libraries)
           Example.text_only "page" Example.input document
           (PlainTextComposition.init Str.newline Str.newline)
           ["regions"; "TEXT"; "1"] Hdocument).
  - apply (bool_decide_unpack _). vm_compute. exact I.
  - reflexivity.
  - reflexivity.
Defined.

Section PlainTextPage.
Context `{Libraries}.

Lemma export_entries (self : ComposeProcessor.t) (ocr : list (path * string))
    (document : Document.t region) (entries : list path) :
  holds_texts ocr document → NoDup ocr.*1 →
  (∀ p, p ∈ entries → passes_filter self p = true →
        take 2 p = ["regions"; "TEXT"]
        ∧ (length p = 3%nat ∨ length p = 4%nat)
        ∧ contribution ocr p ≠ []) →
  ∀ composition,
    for_each entries (ComposeProcessor.export_path self document) composition
    = Ok (PlainTextComposition.append_all composition
            (concat (map (contribution ocr)
                         (filter (λ p, passes_filter self p = true) entries)))).
Proof.
  intros Hdocument Hnodup.
  induction entries as [|p entries IH]; intros Hentries composition; [done|].
  cbn [for_each]. rewrite filter_cons.
  assert (∀ c, for_each entries (ComposeProcessor.export_path self document) c
               = Ok (PlainTextComposition.append_all c
                       (concat (map (contribution ocr)
                                  (filter (λ p, passes_filter self p = true)
                                          entries))))) as IH'.
  { apply IH. intros q Hq. apply Hentries. by apply list_elem_of_further. }
  destruct (decide (passes_filter self p = true)) as [Hfilter|Hfilter].
  - destruct (Hentries p (list_elem_of_here _ _) Hfilter)
      as (Hclass & Hlen & Hcontribution).
    cbn [map concat]. unfold PlainTextComposition.append_all.
    rewrite foldl_app. fold (PlainTextComposition.append_all composition
                               (contribution ocr p)).
    assert (ComposeProcessor.export_path self document composition p
            = Ok (PlainTextComposition.append_all composition
                    (contribution ocr p))) as ->.
    { unfold contribution in *. destruct Hlen as [Hlen|Hlen]; rewrite Hlen in *;
        cbn [Nat.eqb] in *.
      - by apply export_text_block.
      - destruct ((ocr : Dict.t path string) !! p) as [text|] eqn:Hp; [|done].
        rewrite (export_text_line self ocr); try done; [by rewrite Hp|].
        apply dict_lookup_elem_of in Hp. intros Hnil.
        assert ((p, text) ∈ lines_under (take 3 p) ocr) as Hin
          by (unfold lines_under; by apply list_elem_of_filter).
        rewrite Hnil in Hin. by apply elem_of_nil in Hin. }
    cbn [mbind result_bind]. apply IH'.
  - assert (ComposeProcessor.export_path self document composition p
            = Ok composition) as ->; [|apply IH'].
    unfold ComposeProcessor.export_path. unfold passes_filter in Hfilter.
    destruct (ComposeProcessor._block_filter self) as [block_filter|]; [|done].
    by destruct (block_filter p).
Qed.

End PlainTextPage.

(** X11.  The plain text of a page of text.  When every entry of the
    reading order that the block filter lets through is a block path or a
    line path under ("regions", "TEXT") that has OCR text, the plain text
    export of the constructed document does not fail, and its text is that
    of the OCR lines the entries stand for, appended entry after entry in
    the order of the reading order: the lines of a block in the order of the
    OCR results and a line by itself; the entries the filter holds back add
    nothing.  No line occurs twice in the OCR results. *)
Theorem X11_plain_text_of_a_page `{Libraries}
    (self : ComposeProcessor.t) (page_path : string) (input : Input.t)
    (document : Document.t region) :
  Document_init page_path input = Ok document →
  NoDup (Input.sorted_ocr input).*1 →
  (∀ p, p ∈ Document.reading_order document →
        passes_filter self p = true →
        take 2 p = ["regions"; "TEXT"]
        ∧ (length p = 3%nat ∨ length p = 4%nat)
        ∧ contribution (Input.sorted_ocr input) p ≠ []) →
  ComposeProcessor.export_plain_text self document
  = Ok (PlainTextComposition.text
          (PlainTextComposition.append_all
             (PlainTextComposition.init Str.newline
                (ComposeProcessor._block_separator self))
             (concat (map (contribution (Input.sorted_ocr input))
                          (filter (λ p, passes_filter self p = true)
                                  (Document.reading_order document)))))).
Proof.
  intros Hdocument Hnodup Hentries.
  apply Document_init_holds in Hdocument.
  unfold ComposeProcessor.export_plain_text.
  by rewrite (export_entries self (Input.sorted_ocr input) document
                (Document.reading_order document) Hdocument Hnodup Hentries).
Qed.

Lemma X11_plain_text_of_a_page_witness :
  is_ok (Document_init (H := Sample.libraries) "page" Example.input) = true
  ∧ match Document_init (H := Sample.libraries) "page" Example.input with
    | Ok document =>
        ComposeProcessor.export_plain_text (H := Sample.libraries)
          Example.text_only document
        = Ok (PlainTextComposition.text
                (PlainTextComposition.append_all
                   (PlainTextComposition.init Str.newline
                      (ComposeProcessor._block_separator Example.text_only))
                   (concat (map (contribution (Input.sorted_ocr Example.input))
                                (filter (λ p, passes_filter Example.text_only p
                                              = true)
                                        (Document.reading_order document))))))
    | Raise _ => True
    end.
Proof.
  split; [vm_compute; reflexivity|].
  destruct (Document_init (H := Sample.libraries) "page" Example.input)
    as [document|] eqn:Hdocument; [|exact I].
  apply (X11_plain_text_of_a_page (H := Sample.libraries)
           Example.text_only "page" Example.input document Hdocument).
  - apply (bool_decide_unpack _). vm_compute. exact I.
  - assert (Document.reading_order document
            = [["regions"; "TEXT"; "1"]; ["regions"; "ILLUSTRATION"; "2"]])
      as Horder.
    { destruct (Document_init_frame (H := Sample.libraries) _ _ _ Hdocument)
        as [Hinput _].
      unfold Document.reading_order. rewrite Hinput. vm_compute. reflexivity. }
    rewrite Horder. intros p Hp Hfilter.
    apply elem_of_cons in Hp as [->|Hp].
    + split; [reflexivity|]. split; [left; reflexivity|].
      vm_compute. discriminate.
    + apply list_elem_of_singleton in Hp as ->. vm_compute in Hfilter.
      discriminate.
Defined.

(** The plain text of the page of the example, composed from its text
    block. *)
Example plain_text_of_the_example :
  ComposeProcessor.process (H := Sample.libraries)
    (ComposeProcessor.mk false (Some (RegionsFilter "regions/TEXT")) Str.newline)
    "page" Example.input
  = Ok [("page.txt",
         PlainText ("Hello" +:+ Str.newline +:+ "World" +:+ Str.newline))].
Proof. vm_compute. reflexivity. Qed.

(** ** The lines of a merged region *)

Lemma map_result_getitem (lines : Dict.t path Line.t) (run : list path)
    (merged_lines : list (path * Line.t)) :
  map_result (λ p, l ← getitem lines p; Ok (p, l)) run = Ok merged_lines →
  Forall (λ pl : path * Line.t, lines !! pl.1 = Some pl.2) merged_lines.
Proof.
  revert merged_lines. induction run as [|p run IH]; intros merged_lines Hml.
  - injection Hml as <-. constructor.
  - cbn [map_result] in Hml. bind_inv Hml as y Hy. bind_inv Hml as ys Hys.
    injection Hml as <-. bind_inv Hy as l Hl. injection Hy as <-.
    constructor; [|by apply IH]. cbn. unfold getitem in Hl.
    by destruct (lines !! p) as [l'|]; [injection Hl as ->|].
Qed.

Section MergedLines.
Context `{Libraries}.

Lemma is_adjacent_true (self : RegionReadingOrder.t) (line_path : path) :
  RegionReadingOrder._is_adjacent self line_path = Ok true →
  ∃ previous,
    last (RegionReadingOrder._regionless_text_lines self) = Some previous
    ∧ take 3 previous = take 3 line_path.
Proof.
  unfold RegionReadingOrder._is_adjacent.
  destruct (last _) as [previous|]; [|done].
  case_bool_decide as Hsame; [done|]. intros _. exists previous.
  split; [done|].
  destruct (decide (take 3 previous = take 3 line_path)) as [Heq|Hne]; [done|].
  by destruct Hsame.
Qed.

Lemma flush_homogeneous (document : Document.t region)
    (self self' : RegionReadingOrder.t) :
  homogeneous document self →
  RegionReadingOrder._flush_regionless_lines self = Ok self' →
  homogeneous document self'
  ∧ RegionReadingOrder._regionless_text_lines self' = [].
Proof.
  intros (Hdoc & Hordered & Htext & Hsame).
  unfold RegionReadingOrder._flush_regionless_lines.
  destruct (RegionReadingOrder._regionless_text_lines self)
    as [|first rest] eqn:Hrun.
  - intros [= <-]. split; [|done]. split; [done|]. split; [done|].
    by rewrite Hrun.
  - intros Hok. bind_inv Hok as u Hu. bind_inv Hok as merged_lines Hml.
    injection Hok as <-. split; [|done]. split; [done|].
    cbn [RegionReadingOrder._ordered_regions
         RegionReadingOrder._regionless_text_lines].
    split; [|split; [constructor|by intros p q ?%elem_of_nil]].
    apply Forall_app. split; [done|]. constructor; [|done]. cbn [snd fst].
    pose proof (map_result_fst _ _ _ Hml) as Hpaths.
    apply map_result_getitem in Hml. rewrite Hdoc in Hml.
    pose proof (Forall_inv Htext) as Hfirst. cbn in Hfirst.
    unfold merged_sound, MergedTextRegion.init.
    cbn [MergedTextRegion._block_path MergedTextRegion._lines].
    split; [done|]. split; [by rewrite Hfirst|]. split; [by rewrite Hfirst|].
    split; [by destruct merged_lines|]. split; [by rewrite Hpaths|].
    apply Forall_forall. intros l Hl. split.
    + rewrite Forall_forall in Htext. apply Htext. rewrite <- Hpaths.
      by apply list_elem_of_fmap_2.
    + rewrite Forall_forall in Hml. by apply Hml.
Qed.

Lemma append_homogeneous (document : Document.t region)
    (self self' : RegionReadingOrder.t) (p : path) :
  regions_sound document →
  homogeneous document self →
  RegionReadingOrder.append self p = Ok self' →
  homogeneous document self'.
Proof.
  intros Hdocument Hself. unfold RegionReadingOrder.append.
  destruct (length p =? 3)%nat.
  - intros Hok. bind_inv Hok as flushed Hflushed.
    apply (flush_homogeneous document) in Hflushed
      as [(Hdoc & Hordered & Htext & Hsame) Hrun]; [|done].
    bind_inv Hok as region Hregion. rewrite Hdoc in Hregion.
    destruct region as [region|]; injection Hok as <-; [|done].
    split; [done|]. cbn. split; [|done].
    apply Forall_app. split; [done|]. constructor; [|done]. cbn.
    unfold Document.get in Hregion.
    destruct (Document._regions document !! p) as [r|] eqn:Hr.
    + injection Hregion as ->. apply Hdocument in Hr as [_ Hr].
      by destruct region.
    + by destruct (forallb _ _).
  - destruct (3 <? length p)%nat; [|done].
    intros Hok. bind_inv Hok as u Hu.
    unfold assert in Hu. case_bool_decide as Hclass; [|done].
    unfold RegionReadingOrder._add_regionless_line in Hok.
    bind_inv Hok as adjacent Hadjacent. bind_inv Hok as kept Hkept.
    injection Hok as <-.
    assert (homogeneous document kept
            ∧ ∀ q, q ∈ RegionReadingOrder._regionless_text_lines kept →
                   take 3 q = take 3 p) as [(Hdoc & Hordered & Htext & Hsame) Hp].
    { destruct adjacent; cbn in Hkept.
      - injection Hkept as <-. split; [done|].
        apply is_adjacent_true in Hadjacent as (previous & Hlast & Hprev).
        destruct Hself as (_ & _ & _ & Hsame). intros q Hq.
        rewrite <- Hprev. apply Hsame; [done|]. by apply last_Some_elem_of.
      - apply (flush_homogeneous document) in Hkept as [Hkept Hrun]; [|done].
        split; [done|]. rewrite Hrun. by intros q ?%elem_of_nil. }
    split; [done|]. cbn. split; [done|]. split.
    + apply Forall_app. split; [done|]. by constructor.
    + intros q q' Hq Hq'.
      apply elem_of_app in Hq as [Hq|Hq]; apply elem_of_app in Hq' as [Hq'|Hq'].
      * by apply Hsame.
      * apply list_elem_of_singleton in Hq' as ->. by apply Hp.
      * apply list_elem_of_singleton in Hq as ->. symmetry. by apply Hp.
      * apply list_elem_of_singleton in Hq as ->.
        by apply list_elem_of_singleton in Hq' as ->.
Qed.

Lemma init_homogeneous (document : Document.t region)
    (ro : RegionReadingOrder.t) :
  regions_sound document →
  RegionReadingOrder.init document = Ok ro →
  homogeneous document ro.
Proof.
  intros Hdocument. unfold RegionReadingOrder.init. intros Hro.
  bind_inv Hro as region_indices Hindices. bind_inv Hro as walked Hwalked.
  apply (flush_homogeneous document walked); [|done].
  apply (for_each_invariant_from _ (homogeneous document) _ _ _ Hwalked).
  - split; [done|]. split; [constructor|]. split; [constructor|].
    by intros p q ?%elem_of_nil.
  - intros s x s'. by apply append_homogeneous.
Qed.

End MergedLines.

(** X12.  Every merged region of the reconstructed reading order of a
    constructed document is ordered under the path it was made for, a path
    of three segments under ("regions", "TEXT"); it has at least one line;
    its lines are lines under ("regions", "TEXT") of one and the same block
    (their first three segments agree), and each of them is the line that
    the input has under its path: lines of different blocks are never
    merged. *)
Theorem X12_merged_region_is_of_one_block `{Libraries}
    (page_path : string) (input : Input.t) (document : Document.t region)
    (ro : RegionReadingOrder.t) (p : path) (m : MergedTextRegion.t) :
  Document_init page_path input = Ok document →
  RegionReadingOrder.init document = Ok ro →
  (p, Merged m) ∈ RegionReadingOrder._ordered_regions ro →
  merged_sound (Input.lines_by_path input) p m.
Proof.
  intros Hdocument Hro Hin.
  destruct (Document_init_frame _ _ _ Hdocument) as [Hinput _].
  apply Document_init_sound in Hdocument.
  apply init_homogeneous in Hro as (_ & Hordered & _); [|done].
  rewrite Forall_forall in Hordered. apply Hordered in Hin.
  cbn in Hin. by rewrite Hinput in Hin.
Qed.

Lemma X12_merged_region_is_of_one_block_witness :
  match Document_init (H := Sample.libraries) "page" Example.mixed_input with
  | Ok document =>
      match RegionReadingOrder.init (H := Sample.libraries) document with
      | Ok ro =>
          match head (RegionReadingOrder._ordered_regions ro) with
          | Some (_, Merged _) => true
          | _ => false
          end
      | Raise _ => false
      end
  | Raise _ => false
  end = true
  ∧ match Document_init (H := Sample.libraries) "page" Example.mixed_input with
    | Ok document =>
        match RegionReadingOrder.init (H := Sample.libraries) document with
        | Ok ro =>
            match head (RegionReadingOrder._ordered_regions ro) with
            | Some (p, Merged m) =>
                merged_sound (Input.lines_by_path Example.mixed_input) p m
            | _ => True
            end
        | Raise _ => True
        end
    | Raise _ => True
    end.
Proof.
  split; [vm_compute; reflexivity|].
  destruct (Document_init (H := Sample.libraries) "page" Example.mixed_input)
    as [document|] eqn:Hdocument; [|exact I].
  destruct (RegionReadingOrder.init (H := Sample.libraries) document)
    as [ro|] eqn:Hro; [|exact I].
  destruct (RegionReadingOrder._ordered_regions ro) as [|[p [x|x|x|m]] l]
    eqn:Hordered; try exact I.
  apply (X12_merged_region_is_of_one_block (H := Sample.libraries)
           "page" Example.mixed_input document ro p m Hdocument Hro).
  rewrite Hordered. apply list_elem_of_here.
Defined.

(** ** The evidence for a line *)

Lemma sum_list_indicator (l a n : nat) :
  sum_list ((λ i, if decide (l = i) then 1 else 0)%nat <$> seq a n)
  = (if decide (a ≤ l < a + n)%nat then 1 else 0)%nat.
Proof.
  revert a. induction n as [|n IH]; intros a; cbn.
  - destruct (decide _); [lia|done].
  - rewrite IH. repeat destruct (decide _); lia.
Qed.

Lemma sum_list_plus {A} (f g : A → nat) (l : list A) :
  sum_list ((λ i, f i + g i)%nat <$> l)
  = (sum_list (f <$> l) + sum_list (g <$> l))%nat.
Proof. induction l as [|x l IH]; cbn; [done|]. rewrite IH. lia. Qed.

Lemma occurrences_cons (i l : nat) (labels : list nat) :
  occurrences i (l :: labels)
  = ((if decide (l = i) then 1 else 0) + occurrences i labels)%nat.
Proof.
  unfold occurrences. rewrite filter_cons. by destruct (decide (l = i)).
Qed.

Lemma occurrences_le (i : nat) (labels : list nat) :
  (occurrences i labels ≤ length labels)%nat.
Proof. unfold occurrences. apply length_filter. Qed.

(** The counts of all labels add up to the number of labels. *)
Lemma sum_occurrences (labels : list nat) (n : nat) :
  Forall (λ l, (l < n)%nat) labels →
  sum_list ((λ i, occurrences i labels) <$> seq 0 n) = length labels.
Proof.
  induction 1 as [|l labels Hl _ IH].
  - cbn. induction (seq 0 n) as [|x s IHs]; [done|]. cbn. by rewrite IHs.
  - erewrite list_fmap_ext; [|intros ? i _; apply occurrences_cons].
    rewrite (sum_list_plus (λ i, if decide (l = i) then 1 else 0)%nat
                           (λ i, occurrences i labels)).
    rewrite IH, sum_list_indicator. cbn. rewrite decide_True by lia. done.
Qed.

Lemma labels_below (labels : list nat) :
  Forall (λ l, (l < foldr (λ l n, S l `max` n) 0 labels)%nat) labels.
Proof.
  induction labels as [|l labels IH]; constructor; cbn.
  - lia.
  - eapply Forall_impl; [exact IH|]. cbn. lia.
Qed.

Lemma sum_bincount (labels : list nat) (minlength : nat) :
  sum_list (bincount labels minlength) = length labels.
Proof.
  unfold bincount. apply sum_occurrences.
  eapply Forall_impl; [apply labels_below|]. cbn. lia.
Qed.

Lemma bincount_lookup (labels : list nat) (minlength i count : nat) :
  bincount labels minlength !! i = Some count → count = occurrences i labels.
Proof.
  unfold bincount. rewrite list_lookup_fmap. intros Hi.
  destruct (seq 0 _ !! i) as [j|] eqn:Hj; [|done].
  apply lookup_seq in Hj as [-> _]. cbn in Hi. by injection Hi as <-.
Qed.

Lemma fraction_bounds (count sum_all : nat) :
  (0 < sum_all)%nat → (count ≤ sum_all)%nat →
  (0 <= inject_Z (Z.of_nat count) / inject_Z (Z.of_nat sum_all) <= 1)%Q.
Proof.
  intros Hpos Hle.
  assert (0 < inject_Z (Z.of_nat sum_all))%Q as Hsum.
  { change 0%Q with (inject_Z 0). rewrite <- Zlt_Qlt. lia. }
  split.
  - apply Qle_shift_div_l; [done|]. rewrite Qmult_0_l.
    change 0%Q with (inject_Z 0). rewrite <- Zle_Qle. lia.
  - apply Qle_shift_div_r; [done|]. rewrite Qmult_1_l.
    rewrite <- Zle_Qle. lia.
Qed.

Section Evidence.
Context {L : Type} (remap_labels : Predictor.t → L → list nat).

Lemma add_evidence_of (prediction_name : string) (classes : list (string * nat))
    (labels : list nat) (minlength : nat) (evidence evidence' : Dict.t string Q)
    (k : string * nat) :
  labels ≠ [] → k ∈ classes →
  Forall (evidence_of prediction_name classes labels) evidence →
  ConfidenceSampler.add_evidence prediction_name (bincount labels minlength)
    (sum_list (bincount labels minlength)) evidence k = Ok evidence' →
  Forall (evidence_of prediction_name classes labels) evidence'.
Proof.
  intros Hlabels Hk Hevidence. unfold ConfidenceSampler.add_evidence.
  intros Hok. bind_inv Hok as count Hcount. injection Hok as <-.
  unfold index in Hcount.
  destruct (bincount labels minlength !! k.2) as [c|] eqn:Hc; [|done].
  injection Hcount as ->. apply bincount_lookup in Hc as ->.
  rewrite sum_bincount. apply Forall_forall. intros [key v] Hin.
  apply setitem_elem_of in Hin as [[= -> ->]|Hin].
  - split.
    + apply fraction_bounds; [|apply occurrences_le].
      destruct labels; [done|cbn; lia].
    + exists k.1, k.2. by destruct k.
  - rewrite Forall_forall in Hevidence. by apply Hevidence.
Qed.

Lemma add_evidence_keys (prediction_name : string) (counts : list nat)
    (sum_all : nat) (done : list (string * nat))
    (evidence evidence' : Dict.t string Q) (k : string * nat) :
  evidence_keys prediction_name done evidence →
  ConfidenceSampler.add_evidence prediction_name counts sum_all evidence k
  = Ok evidence' →
  evidence_keys prediction_name (done ++ [k]) evidence'.
Proof.
  intros Hdone. unfold ConfidenceSampler.add_evidence.
  intros Hok. bind_inv Hok as count Hcount. injection Hok as <-.
  intros k' Hk'. apply elem_of_app in Hk' as [Hk'|Hk'].
  - by apply setitem_lookup_is_Some, Hdone.
  - apply list_elem_of_singleton in Hk' as ->. rewrite setitem_lookup.
    by eexists.
Qed.

End Evidence.

(** X13.  The evidence that the sampler gives for a line.  When the call
    returns, the first two segments of the path name the prediction and the
    class, and the sampler has the predictor of that name.  If no label was
    sampled under the line the evidence is empty.  Otherwise it has, for
    every class of the predictor, an entry under the name of the prediction
    and of the class, and every entry is the share of the sampled labels that
    have the value of its class: a number from 0 to 1. *)
Theorem X13_evidence_of_a_line {L : Type}
    (remap_labels : Predictor.t → L → list nat)
    (self : ConfidenceSampler.t) (p : path) (line : L)
    (evidence : Dict.t string Q) :
  ConfidenceSampler.call remap_labels self p line = Ok evidence →
  ∃ prediction_name predictor_class predictor,
    take 2 p = [prediction_name; predictor_class]
    ∧ ConfidenceSampler._predictions self !! prediction_name = Some predictor
    ∧ let labels := remap_labels predictor line in
      let classes := Predictor.classes predictor in
      (labels = [] → evidence = [])
      ∧ Forall (evidence_of prediction_name classes labels) evidence
      ∧ (labels ≠ [] → evidence_keys prediction_name classes evidence).
Proof.
  unfold ConfidenceSampler.call.
  destruct (take 2 p) as [|prediction_name [|predictor_class [|]]]; try done.
  intros Hok. bind_inv Hok as predictor Hpredictor.
  exists prediction_name, predictor_class, predictor. split; [done|].
  split.
  { unfold getitem in Hpredictor.
    by destruct (_ !! prediction_name) as [q|]; [injection Hpredictor as ->|]. }
  cbn zeta. rewrite sum_bincount in Hok at 1.
  destruct (remap_labels predictor line) as [|l labels] eqn:Hlabels.
  - cbn in Hok. injection Hok as <-. split; [done|]. split; [constructor|done].
  - cbn [length Nat.ltb Nat.leb] in Hok. split; [done|]. split.
    + eapply (for_each_invariant_in
                (ConfidenceSampler.add_evidence prediction_name _ _)
                (Forall (evidence_of prediction_name
                           (Predictor.classes predictor) (l :: labels))));
        [|constructor|exact Hok].
      intros s k s' Hk Hs Hadd. by eapply add_evidence_of.
    + intros _.
      apply (for_each_prefix
               (ConfidenceSampler.add_evidence prediction_name _ _)
               (evidence_keys prediction_name)
               (λ done s k s', add_evidence_keys prediction_name _ _ done s s' k)
               _ [] _ _) in Hok; [done|].
      intros k Hk. by apply elem_of_nil in Hk.
Qed.

Lemma X13_evidence_of_a_line_witness :
  ∃ evidence,
    ConfidenceSampler.call labels_of_the_example sampler_of_the_example
      ["regions"; "TEXT"; "1"] (DetectedLine.mk ["regions"; "TEXT"] "{}")
    = Ok evidence
    ∧ ∃ prediction_name predictor_class predictor,
        take 2 ["regions"; "TEXT"; "1"] = [prediction_name; predictor_class]
        ∧ ConfidenceSampler._predictions sampler_of_the_example
            !! prediction_name = Some predictor
        ∧ let labels :=
            labels_of_the_example predictor
              (DetectedLine.mk ["regions"; "TEXT"] "{}") in
          let classes := Predictor.classes predictor in
          (labels = [] → evidence = [])
          ∧ Forall (evidence_of prediction_name classes labels) evidence
          ∧ (labels ≠ [] → evidence_keys prediction_name classes evidence).
Proof.
  eexists. split; [vm_compute; reflexivity|].
  apply (X13_evidence_of_a_line labels_of_the_example sampler_of_the_example).
  vm_compute. reflexivity.
Defined.
